(** * freud: cubatic order parameter and anisotropic PMF (PMFXYZ)

    A shallow embedding of [cpp/order/CubaticOrderParameter.cc] and
    [cpp/pmft/PMFXYZ.cc] together with the properties established about
    them.

    Conventions of the embedding.
    - [float] is IEEE-754 binary32 and [double] is binary64, both with
      round-to-nearest-even, taken from the Standard Library's
      [SpecFloat] (precision 24 / exponent bound 128, and 53 / 1024).
    - [unsigned int] is a [Z] reduced modulo [2^32]; [int] is a [Z] in
      the signed 32-bit range.
    - float buffers live in a store of named buffers; a pointer is a
      buffer name and an offset, so that aliased arguments
      ([tensorSub(t, t, r4)]) are the same cells.
    - [parallel_for] over a blocked range is run as one sequential pass
      over the whole range: every output cell has a single writer.
    - the collaborators that are not part of the two files (VectorMath's
      vectors and quaternions, libm, the random number generator, the
      periodic box and the cell list) are interfaces, given as type
      classes. *)

From Stdlib Require Import ZArith Bool List Lia String.
From Stdlib Require Import Floats.SpecFloat.
From stdpp Require Import base list.

Local Open Scope Z_scope.

(* ================================================================= *)
(** ** IEEE-754 binary32 and binary64 arithmetic *)

Module Float.

Definition float : Type := spec_float.
Definition double : Type := spec_float.

Definition prec32 : Z := 24.
Definition emax32 : Z := 128.
Definition prec64 : Z := 53.
Definition emax64 : Z := 1024.

(** [m * 2^e] rounded to the format. *)
Definition B32 (m e : Z) : float := binary_normalize prec32 emax32 m e false.
Definition B64 (m e : Z) : double := binary_normalize prec64 emax64 m e false.

Definition fzero : float := S754_zero false.
Definition fone : float := B32 1 0.
Definition ftwo : float := B32 2 0.
Definition nan : float := S754_nan.

Definition fadd : float -> float -> float := SFadd prec32 emax32.
Definition fsub : float -> float -> float := SFsub prec32 emax32.
Definition fmul : float -> float -> float := SFmul prec32 emax32.
Definition fdiv : float -> float -> float := SFdiv prec32 emax32.
Definition fsqrt : float -> float := SFsqrt prec32 emax32.
Definition fneg : float -> float := SFopp.

Definition dadd : double -> double -> double := SFadd prec64 emax64.
Definition dsub : double -> double -> double := SFsub prec64 emax64.
Definition dmul : double -> double -> double := SFmul prec64 emax64.
Definition ddiv : double -> double -> double := SFdiv prec64 emax64.

(** C comparison operators; every comparison with a NaN is false,
    except [!=]. *)
Definition flt (a b : spec_float) : bool := SFltb a b.
Definition fle (a b : spec_float) : bool := SFleb a b.
Definition fgt (a b : spec_float) : bool := SFltb b a.
Definition fge (a b : spec_float) : bool := SFleb b a.
Definition feq (a b : spec_float) : bool := SFeqb a b.
Definition fne (a b : spec_float) : bool := negb (SFeqb a b).

Definition is_nan (a : spec_float) : bool :=
  match a with S754_nan => true | _ => false end.

(** Conversions between the two formats: widening is exact, narrowing
    rounds. *)
Definition to_double (a : float) : double :=
  match a with
  | S754_finite s m e => binary_normalize prec64 emax64 (cond_Zopp s (Zpos m)) e s
  | _ => a
  end.

Definition to_float (a : double) : float :=
  match a with
  | S754_finite s m e => binary_normalize prec32 emax32 (cond_Zopp s (Zpos m)) e s
  | _ => a
  end.

(** Integer to float conversion, [(float)n]. *)
Definition of_int (n : Z) : float := binary_normalize prec32 emax32 n 0 false.

(** The double literals of the two files. *)
Definition d_1_0 : double := B64 1 0.
Definition d_2_0 : double := B64 2 0.
Definition d_0_1 : double := B64 7205759403792794 (-56).
Definition d_1em6 : double := B64 4722366482869645 (-72).

(** The integer [n], [|n| <= 2^24], as the binary32 number of that
    value in canonical form: mantissa of 24 bits. *)
Definition of_small_int (n : Z) (szero : bool) : float :=
  match n with
  | Z0 => S754_zero szero
  | Zpos p =>
      let d := Zpos (digits2_pos p) in
      S754_finite false (Z.to_pos (Z.shiftl (Zpos p) (prec32 - d))) (d - prec32)
  | Zneg p =>
      let d := Zpos (digits2_pos p) in
      S754_finite true (Z.to_pos (Z.shiftl (Zpos p) (prec32 - d))) (d - prec32)
  end.

(** The largest integer below a finite float, [None] for infinities
    and NaN. *)
Definition floorZ (a : float) : option Z :=
  match a with
  | S754_zero _ => Some 0
  | S754_finite s m e =>
      Some (if 0 <=? e then Z.shiftl (cond_Zopp s (Zpos m)) e
            else Z.shiftr (cond_Zopp s (Zpos m)) (- e))
  | _ => None
  end.

(** [floorf]: a float of non-negative exponent is an integer already;
    otherwise the mantissa has at most 24 bits and so has the floor. *)
Definition floorf (a : float) : float :=
  match a with
  | S754_finite s m e =>
      if 0 <=? e then a
      else of_small_int (Z.shiftr (cond_Zopp s (Zpos m)) (- e)) s
  | _ => a
  end.

Definition INT_MIN : Z := - 2 ^ 31.

(** Truncating float to int conversion as [cvttss2si] performs it (the
    [__SSE2__] branch of the binning kernels, and what the compiler
    emits for [int(f)] on that target): the value truncated toward
    zero, and the "integer indefinite" [INT_MIN] when that is not an
    [int], for infinities and for NaN. *)
Definition cvtt_ss2si (a : float) : Z :=
  match a with
  | S754_zero _ => 0
  | S754_finite s m e =>
      let t := cond_Zopp s (if 0 <=? e then Z.shiftl (Zpos m) e
                            else Z.shiftr (Zpos m) (- e)) in
      if (INT_MIN <=? t) && (t <? 2 ^ 31) then t else INT_MIN
  | _ => INT_MIN
  end.

(** Conversion to [unsigned int]: reduction modulo [2^32]. *)
Definition u32 (z : Z) : Z := z mod 2 ^ 32.

(** [fmin]: the smaller argument, the other one when one is a NaN. *)
Definition fmin (a b : float) : float :=
  if is_nan a then b else if is_nan b then a
  else if flt a b then a else b.

End Float.

Import Float.

#[global] Instance float_inhabited : Inhabited spec_float := populate fzero.

(* ================================================================= *)
(** ** Collaborators outside the two files *)

(** [vec3<float>] and [quat<float>] of VectorMath.h, and the [float3] /
    [float4] of the binning kernels: plain records of floats. *)
Record vec3 : Type := mk_vec3 { vx : float; vy : float; vz : float }.
Record quat : Type := mk_quat { qs : float; qv : vec3 }.
Record float3 : Type := make_float3 { f3x : float; f3y : float; f3z : float }.
Record float4 : Type := make_float4
  { f4x : float; f4y : float; f4z : float; f4w : float }.

#[global] Instance vec3_inhabited : Inhabited vec3 :=
  populate (mk_vec3 fzero fzero fzero).
#[global] Instance quat_inhabited : Inhabited quat :=
  populate (mk_quat fone (mk_vec3 fzero fzero fzero)).
#[global] Instance float3_inhabited : Inhabited float3 :=
  populate (make_float3 fzero fzero fzero).
#[global] Instance float4_inhabited : Inhabited float4 :=
  populate (make_float4 fzero fzero fzero fone).

(** The operations of VectorMath.h that the two files call. *)
Class VectorMath : Type := {
  rotate : quat -> vec3 -> vec3;
  conj : quat -> quat;
  quat_mul : quat -> quat -> quat;
  fromAxisAngle : vec3 -> float -> quat;
  dot : vec3 -> vec3 -> float;
  vec3_div : vec3 -> float -> vec3          (* [operator/=] *)
}.

(** libm: [cosf], [sinf], [acos] on doubles, and the float overload of
    [exp] that [using namespace std] selects for a float argument. *)
Class Libm : Type := {
  cosf : float -> float;
  sinf : float -> float;
  acos : double -> double;
  expf : float -> float
}.

(** [std::mt19937] behind its three distributions: each draw returns a
    float and the advanced engine. *)
Class RandomEngine : Type := {
  rng : Type;
  m_theta_dist : rng -> float * rng;        (* U[0, 2 pi) *)
  m_phi_dist : rng -> float * rng;          (* U[0, 1)    *)
  m_angle_dist : rng -> float * rng         (* U[0, 2 pi) *)
}.

(** [trajectory::Box]. *)
Class BoxOps : Type := {
  Box : Type;
  getLx : Box -> float;
  getLy : Box -> float;
  getLz : Box -> float;
  is2D : Box -> bool;
  wrap : Box -> float3 -> float3
}.

(** [locality::LinkCell]: construction for a box and a cell width,
    [computeCellList], the cell of a point, the neighbours of a cell,
    and the particles [itercell] yields for a cell, in iteration order. *)
Class LinkCellOps `{BoxOps} : Type := {
  LinkCell : Type;
  LinkCell_new : Box -> float -> LinkCell;
  computeCellList : LinkCell -> list float3 -> nat -> LinkCell;
  getCell : LinkCell -> float3 -> Z;
  getCellNeighbors : LinkCell -> Z -> list Z;
  itercell : LinkCell -> Z -> list nat
}.

(** What a constructor does: build the object, throw
    [std::invalid_argument], or write past an array it has allocated,
    after which the C++ has no defined behaviour. *)
Inductive construction (A : Type) : Type :=
  | Constructed (obj : A)
  | invalid_argument (what : string)
  | undefined.
Arguments Constructed {A} obj.
Arguments invalid_argument {A} what.
Arguments undefined {A}.

Definition throws {A : Type} (r : construction A) : bool :=
  match r with invalid_argument _ => true | _ => false end.

(** A [for] loop over [lo, lo + n) threading the state [s]. *)
Definition for_loop {St : Type} (lo n : nat) (body : nat -> St -> St) (s : St)
  : St :=
  fold_left (fun s i => body i s) (seq lo n) s.

(** A range-based loop over the elements of a container. *)
Definition for_each {A St : Type} (l : list A) (body : A -> St -> St) (s : St)
  : St :=
  fold_left (fun s a => body a s) l s.

(** [tbb::blocked_range<size_t>]. *)
Record blocked_range : Type := mk_range { r_begin : nat; r_end : nat }.

(* ================================================================= *)
(** ** PMFXYZ.cc *)

Module PMFXYZ.
Section PMFXYZ.
Context `{VectorMath} `{LinkCellOps}.

(** The members of [PMFXYZ]. [m_lc] is set only when [useCells()]
    holds. *)
Record t : Type := {
  m_box : Box;
  m_max_x : float; m_max_y : float; m_max_z : float;
  m_dx : float; m_dy : float; m_dz : float;
  m_nbins_x : Z; m_nbins_y : Z; m_nbins_z : Z;
  m_x_array : list float; m_y_array : list float; m_z_array : list float;
  m_pcf_array : list Z;
  m_lc : option LinkCell
}.

(** [PMFXYZ::useCells], on the members it reads. *)
Definition useCells (box : Box) (max_x max_y max_z : float) : bool :=
  let l_min := fmin (getLx box) (getLy box) in
  let l_min := if negb (is2D box) then fmin l_min (getLz box) else l_min in
  let rmax := fsqrt (fadd (fadd (fmul max_x max_x) (fmul max_y max_y))
                          (fmul max_z max_z)) in
  if flt rmax (fdiv l_min (B32 3 0)) then true else false.

(** [int(2 * floorf(max / d))] stored in an [unsigned int]. *)
Definition nbins (max d : float) : Z :=
  u32 (cvtt_ss2si (fmul (of_int 2) (floorf (fdiv max d)))).

(** Lines 62-87: the centre of bin [i],
    [-max + ((float(i)*d + float(i+1)*d) / 2.0)]: the products and their
    sum in float, the division by [2.0] and the sum with [-max] in
    double, the result stored in a float. *)
Definition bin_centre (max d : float) (i : nat) : float :=
  let x := fmul (of_int (Z.of_nat i)) d in
  let nextx := fmul (of_int (u32 (Z.of_nat i + 1))) d in
  to_float (dadd (to_double (fneg max))
                 (ddiv (to_double (fadd x nextx)) d_2_0)).

Definition bin_centres (n : Z) (max d : float) : list float :=
  map (bin_centre max d) (seq 0 (Z.to_nat n)).

(** [PMFXYZ::PMFXYZ]. The three [assert(m_nbins > 0)] are on unsigned
    values and are not part of the error behaviour.  Line 90 allocates
    [m_nbins_x * m_nbins_y * m_nbins_z] cells, the product taken in
    [unsigned int]; line 91 clears
    [sizeof(unsigned int)*m_nbins_x*m_nbins_y*m_nbins_z] bytes, the
    product taken in a 64-bit [size_t]: where the first product wraps
    and the second does not, the [memset] runs past the array. *)
Definition PMFXYZ (box : Box) (max_x max_y max_z dx dy dz : float)
  : construction t :=
  if flt dx fzero then invalid_argument "dx must be positive"
  else if flt dy fzero then invalid_argument "dy must be positive"
  else if flt dz fzero then invalid_argument "dz must be positive"
  else if flt max_x fzero then invalid_argument "max_x must be positive"
  else if flt max_y fzero then invalid_argument "max_y must be positive"
  else if flt max_z fzero then invalid_argument "max_z must be positive"
  else if fgt dx max_x then invalid_argument "max_x must be greater than dx"
  else if fgt dy max_y then invalid_argument "max_y must be greater than dy"
  else if fgt dz max_z then invalid_argument "max_z must be greater than dz"
  else if fgt max_x (fdiv (getLx box) (of_int 2))
          || fgt max_y (fdiv (getLy box) (of_int 2))
       then invalid_argument
              "max_x, max_y must be smaller than half the smallest box size"
  else if fgt max_z (fdiv (getLz box) (of_int 2)) && negb (is2D box)
       then invalid_argument
              "max_z must be smaller than half the smallest box size"
  else
    let nx := nbins max_x dx in
    let ny := nbins max_y dy in
    let nz := nbins max_z dz in
    let cells := u32 (nx * ny * nz) in
    let cleared := (4 * nx * ny * nz) mod 2 ^ 64 / 4 in
    if cleared <=? cells then
      Constructed
        {| m_box := box;
           m_max_x := max_x; m_max_y := max_y; m_max_z := max_z;
           m_dx := dx; m_dy := dy; m_dz := dz;
           m_nbins_x := nx; m_nbins_y := ny; m_nbins_z := nz;
           m_x_array := bin_centres nx max_x dx;
           m_y_array := bin_centres ny max_y dy;
           m_z_array := bin_centres nz max_z dz;
           m_pcf_array := replicate (Z.to_nat cells) 0;
           m_lc :=
             if useCells box max_x max_y max_z then
               let max_val :=
                 fsqrt (fadd (fadd (fmul max_x max_x) (fmul max_y max_y))
                             (fmul max_z max_z)) in
               Some (LinkCell_new box max_val)
             else None |}
    else undefined.

(** The members the two helper classes [ComputePMFTWithoutCellList] and
    [ComputePMFTWithCellList] share; the histogram they point to is
    threaded through [operator()] as the state. *)
Record functor : Type := {
  f_nbins_x : Z; f_nbins_y : Z; f_nbins_z : Z;
  f_box : Box;
  f_max_x : float; f_max_y : float; f_max_z : float;
  f_dx : float; f_dy : float; f_dz : float;
  f_ref_points : list float3;
  f_ref_orientations : list float4;
  f_Nref : nat;
  f_points : list float3;
  f_orientations : list float4;
  f_Np : nat;
  f_extra_orientations : list float4
}.

(** The body of the innermost loop, the same text in both kernels
    (lines 178-238 and 328-391): the pair of reference [i] and point
    [j], with the reciprocals of the steps computed before the loops. *)
Definition bin_pair (f : functor) (dx_inv dy_inv dz_inv : float)
  (i j : nat) (pcf : list Z) : list Z :=
  let ref := f.(f_ref_points) !!! i in
  let point := f.(f_points) !!! j in
  let dx := fsub (f3x ref) (f3x point) in
  let dy := fsub (f3y ref) (f3y point) in
  let dz := fsub (f3z ref) (f3z point) in
  let delta := wrap f.(f_box) (make_float3 dx dy dz) in
  let xsq := fmul (f3x delta) (f3x delta) in
  let ysq := fmul (f3y delta) (f3y delta) in
  let zsq := fmul (f3z delta) (f3z delta) in
  if flt (to_double xsq) d_1em6 && flt (to_double ysq) d_1em6
     && flt (to_double zsq) d_1em6
  then pcf
  else
    let x := f3x delta in
    let y := f3y delta in
    let z := f3z delta in
    let ro := f.(f_ref_orientations) !!! i in
    let q := mk_quat (f4w ro) (mk_vec3 (f4x ro) (f4y ro) (f4z ro)) in
    let eo := f.(f_extra_orientations) !!! i in
    let qe := mk_quat (f4w eo) (mk_vec3 (f4x eo) (f4y eo) (f4z eo)) in
    let v := mk_vec3 x y z in
    let v := rotate (conj q) v in
    let v := rotate qe v in
    let x := fadd (vx v) f.(f_max_x) in
    let y := fadd (vy v) f.(f_max_y) in
    let z := fadd (vz v) f.(f_max_z) in
    let binx := floorf (fmul x dx_inv) in
    let biny := floorf (fmul y dy_inv) in
    let binz := floorf (fmul z dz_inv) in
    let ibinx := u32 (cvtt_ss2si binx) in
    let ibiny := u32 (cvtt_ss2si biny) in
    let ibinz := u32 (cvtt_ss2si binz) in
    if (ibinx <? f.(f_nbins_x)) && (ibiny <? f.(f_nbins_y))
       && (ibinz <? f.(f_nbins_z))
    then
      let idx := Z.to_nat (u32 (ibinz * f.(f_nbins_y) * f.(f_nbins_x)
                                + ibiny * f.(f_nbins_x) + ibinx)) in
      <[idx := u32 (pcf !!! idx + 1)]> pcf
    else pcf.

(** [ComputePMFTWithoutCellList::operator()]. *)
Definition ComputePMFTWithoutCellList (f : functor) (myR : blocked_range)
  (pcf : list Z) : list Z :=
  let dx_inv := fdiv fone f.(f_dx) in
  let dy_inv := fdiv fone f.(f_dy) in
  let dz_inv := fdiv fone f.(f_dz) in
  for_loop (r_begin myR) (r_end myR - r_begin myR) (fun i pcf =>
    for_loop 0 f.(f_Np) (fun j pcf =>
      bin_pair f dx_inv dy_inv dz_inv i j pcf) pcf) pcf.

(** [ComputePMFTWithCellList::operator()]. *)
Definition ComputePMFTWithCellList (f : functor) (lc : LinkCell)
  (myR : blocked_range) (pcf : list Z) : list Z :=
  let dx_inv := fdiv fone f.(f_dx) in
  let dy_inv := fdiv fone f.(f_dy) in
  let dz_inv := fdiv fone f.(f_dz) in
  for_loop (r_begin myR) (r_end myR - r_begin myR) (fun i pcf =>
    let ref := f.(f_ref_points) !!! i in
    let ref_cell := getCell lc ref in
    let neigh_cells := getCellNeighbors lc ref_cell in
    for_each neigh_cells (fun neigh_cell pcf =>
      for_each (itercell lc neigh_cell) (fun j pcf =>
        bin_pair f dx_inv dy_inv dz_inv i j pcf) pcf) pcf) pcf.

(** [PMFXYZ::compute]. *)
Definition compute (o : t)
  (ref_points : list float3) (ref_orientations : list float4) (Nref : nat)
  (points : list float3) (orientations : list float4) (Np : nat)
  (extra_orientations : list float4) : t :=
  let f :=
    {| f_nbins_x := o.(m_nbins_x); f_nbins_y := o.(m_nbins_y);
       f_nbins_z := o.(m_nbins_z); f_box := o.(m_box);
       f_max_x := o.(m_max_x); f_max_y := o.(m_max_y); f_max_z := o.(m_max_z);
       f_dx := o.(m_dx); f_dy := o.(m_dy); f_dz := o.(m_dz);
       f_ref_points := ref_points; f_ref_orientations := ref_orientations;
       f_Nref := Nref; f_points := points; f_orientations := orientations;
       f_Np := Np; f_extra_orientations := extra_orientations |} in
  let set_pcf (lc : option LinkCell) (pcf : list Z) : t :=
    {| m_box := o.(m_box);
       m_max_x := o.(m_max_x); m_max_y := o.(m_max_y); m_max_z := o.(m_max_z);
       m_dx := o.(m_dx); m_dy := o.(m_dy); m_dz := o.(m_dz);
       m_nbins_x := o.(m_nbins_x); m_nbins_y := o.(m_nbins_y);
       m_nbins_z := o.(m_nbins_z);
       m_x_array := o.(m_x_array); m_y_array := o.(m_y_array);
       m_z_array := o.(m_z_array);
       m_pcf_array := pcf; m_lc := lc |} in
  if useCells o.(m_box) o.(m_max_x) o.(m_max_y) o.(m_max_z) then
    match o.(m_lc) with
    | Some lc =>
        let lc := computeCellList lc points Np in
        set_pcf (Some lc)
          (ComputePMFTWithCellList f lc (mk_range 0 Nref) o.(m_pcf_array))
    | None => o
    end
  else
    set_pcf o.(m_lc)
      (ComputePMFTWithoutCellList f (mk_range 0 Nref) o.(m_pcf_array)).

(** [PMFXYZ::resetPCF]: the [memset] of
    [sizeof(unsigned int)*m_nbins_x*m_nbins_y*m_nbins_z] bytes, the
    product taken in a 64-bit [size_t]; [None] where it would write past
    the end of the array. *)
Definition resetPCF (o : t) : option t :=
  let bytes := (4 * o.(m_nbins_x) * o.(m_nbins_y) * o.(m_nbins_z)) mod 2 ^ 64 in
  let cells := Z.to_nat (bytes / 4) in
  if decide (cells <= length o.(m_pcf_array))%nat then
    Some
      {| m_box := o.(m_box);
         m_max_x := o.(m_max_x); m_max_y := o.(m_max_y); m_max_z := o.(m_max_z);
         m_dx := o.(m_dx); m_dy := o.(m_dy); m_dz := o.(m_dz);
         m_nbins_x := o.(m_nbins_x); m_nbins_y := o.(m_nbins_y);
         m_nbins_z := o.(m_nbins_z);
         m_x_array := o.(m_x_array); m_y_array := o.(m_y_array);
         m_z_array := o.(m_z_array);
         m_pcf_array := replicate cells 0 ++ drop cells o.(m_pcf_array);
         m_lc := o.(m_lc) |}
  else None.

End PMFXYZ.
End PMFXYZ.

(* ================================================================= *)
(** ** CubaticOrderParameter.cc *)

Module Cubatic.

(** The float buffers of the file: the four [shared_ptr<float>] members
    of the class, and the local arrays of its functions. *)
Inductive buf : Set :=
  | m_global_tensor | m_cubatic_tensor | m_particle_tensor | m_gen_r4_tensor
  | l_mbar | r4_tensor               (* ComputeParticleTensor::operator() *)
  | calculated_tensor | l_tensor     (* calcCubaticTensor *)
  | diff                             (* calcCubaticOrderParameter *)
  | new_cubatic_tensor.              (* compute *)

#[global] Instance buf_eq_dec : EqDecision buf.
Proof. solve_decision. Defined.

(** The store, and [float*] as a buffer with an offset. Reading outside
    a buffer gives [0] and writing outside it does nothing; in C++ both
    are undefined, and the properties below rest on accesses in bounds. *)
Definition mem : Type := buf -> list float.

Record ptr : Type := mk_ptr { p_buf : buf; p_off : nat }.

Definition base (b : buf) : ptr := mk_ptr b 0.
Definition shift (p : ptr) (i : nat) : ptr := mk_ptr (p_buf p) (p_off p + i).

Definition load (m : mem) (p : ptr) : float := m (p_buf p) !!! p_off p.

Definition store (m : mem) (p : ptr) (v : float) : mem :=
  fun b => if decide (b = p_buf p) then <[p_off p := v]> (m b) else m b.

(** [new float[n]] and local arrays [float a[n]]: a fresh buffer. Its
    contents are indeterminate in C++ and zero here. *)
Definition new_array (b : buf) (n : nat) (m : mem) : mem :=
  fun b' => if decide (b' = b) then replicate n fzero else m b'.

(** [memset(p, 0, sizeof(float)*n)]. *)
Definition memset_zero (p : ptr) (n : nat) (m : mem) : mem :=
  for_loop 0 n (fun i m => store m (shift p i) fzero) m.

(** [memcpy(dst, src, sizeof(float)*n)] between buffers of the store. *)
Definition memcpy (dst src : ptr) (n : nat) (m : mem) : mem :=
  for_loop 0 n (fun i m => store m (shift dst i) (load m (shift src i))) m.

(** Modelled from the spec: [Index2D] of Index1D.h, which is not among
    the sources.  The data model has the particle-tensor array as a
    dense [N x 81] row-major buffer whose row [i] is the tensor of
    particle [i], so that [Index2D(n, 81)(i, j)] is [i * 81 + j]. *)
Record Index2D : Type := mk_Index2D { m_w : nat; m_h : nat }.

Definition index2 (a_i : Index2D) (i j : nat) : nat := (i * m_h a_i + j)%nat.

(** *** The tensor primitives *)

Definition tensorProduct (tensor : ptr) (vector : vec3) (m : mem) : mem :=
  let v := [vx vector; vy vector; vz vector] in
  snd
    (for_loop 0 3 (fun i '(cnt, m) =>
       let v_i := v !!! i in
       for_loop 0 3 (fun j '(cnt, m) =>
         let v_j := v !!! j in
         for_loop 0 3 (fun k '(cnt, m) =>
           let v_k := v !!! k in
           for_loop 0 3 (fun l '(cnt, m) =>
             let v_l := v !!! l in
             (S cnt,
              store m (shift tensor cnt)
                (fmul (fmul (fmul v_i v_j) v_k) v_l)))
           (cnt, m)) (cnt, m)) (cnt, m)) (0%nat, m)).

Definition tensorMult (tensor : ptr) (a : float) (m : mem) : mem :=
  for_loop 0 81 (fun i m =>
    store m (shift tensor i) (fmul (load m (shift tensor i)) a)) m.

Definition tensorDiv (tensor : ptr) (a : float) (m : mem) : mem :=
  let a_inv := to_float (ddiv d_1_0 (to_double a)) in
  for_loop 0 81 (fun i m =>
    store m (shift tensor i) (fmul (load m (shift tensor i)) a_inv)) m.

Definition tensorDot (tensor_a tensor_b : ptr) (m : mem) : float :=
  for_loop 0 81 (fun i l_sum =>
    fadd l_sum (fmul (load m (shift tensor_a i)) (load m (shift tensor_b i))))
    fzero.

Definition tensorAdd (tensor_out tensor_i tensor_j : ptr) (m : mem) : mem :=
  for_loop 0 81 (fun i m =>
    store m (shift tensor_out i)
      (fadd (load m (shift tensor_i i)) (load m (shift tensor_j i)))) m.

Definition tensorSub (tensor_out tensor_i tensor_j : ptr) (m : mem) : mem :=
  for_loop 0 81 (fun i m =>
    store m (shift tensor_out i)
      (fsub (load m (shift tensor_i i)) (load m (shift tensor_j i)))) m.

Section Cubatic.
Context `{VectorMath} `{Libm} `{RandomEngine}.

(** The world basis vectors, [vec3<float>(1,0,0)] and so on. *)
Definition basis : list vec3 :=
  [ mk_vec3 (of_int 1) (of_int 0) (of_int 0);
    mk_vec3 (of_int 0) (of_int 1) (of_int 0);
    mk_vec3 (of_int 0) (of_int 0) (of_int 1) ].

(** [ComputeParticleTensor::operator()]. *)
Definition ComputeParticleTensor (particle_tensor : ptr)
  (orientations : list quat) (n : nat) (r : blocked_range) (m : mem) : mem :=
  let a_i := mk_Index2D n 81 in
  let v := basis in
  let m := new_array r4_tensor 81 m in
  let m := new_array l_mbar 81 m in
  for_loop (r_begin r) (r_end r - r_begin r) (fun i m =>
    let l_orientation := orientations !!! i in
    let m := memset_zero (base l_mbar) 81 m in
    let m :=
      for_loop 0 3 (fun j m =>
        let m := memset_zero (base r4_tensor) 81 m in
        let v_r := rotate l_orientation (v !!! j) in
        let m := tensorProduct (base r4_tensor) v_r m in
        tensorAdd (base l_mbar) (base r4_tensor) (base l_mbar) m) m in
    let m := tensorMult (base l_mbar) (to_float d_2_0) m in
    for_loop 0 81 (fun j m =>
      store m (shift particle_tensor (index2 a_i i j))
        (load m (shift (base l_mbar) j))) m) m.

(** [ComputeGlobalTensor::operator()]. *)
Definition ComputeGlobalTensor (m_bar particle_tensor : ptr) (n : nat)
  (r : blocked_range) (m : mem) : mem :=
  let a_i := mk_Index2D n 81 in
  let n_inv := to_float (ddiv d_1_0 (to_double (of_int (Z.of_nat n)))) in
  for_loop (r_begin r) (r_end r - r_begin r) (fun i m =>
    let tensor_value :=
      for_loop 0 n (fun j tensor_value =>
        fadd tensor_value (load m (shift particle_tensor (index2 a_i j i))))
        fzero in
    let tensor_value := fmul tensor_value n_inv in
    store m (shift m_bar i) tensor_value) m.

(** [CubaticOrderParameter::calcCubaticTensor]. *)
Definition calcCubaticTensor (cubatic_tensor : ptr) (orientation : quat)
  (m : mem) : mem :=
  let system_vectors := basis in
  let m := new_array calculated_tensor 81 m in
  let m := memset_zero (base calculated_tensor) 81 m in
  let system_vectors :=
    for_loop 0 3 (fun i sv => <[i := rotate orientation (sv !!! i)]> sv)
      system_vectors in
  let m :=
    for_loop 0 3 (fun v_idx m =>
      let m := new_array l_tensor 81 m in
      let m := tensorProduct (base l_tensor) (system_vectors !!! v_idx) m in
      tensorAdd (base calculated_tensor) (base calculated_tensor)
        (base l_tensor) m) m in
  let m := tensorMult (base calculated_tensor) (to_float d_2_0) m in
  let m := tensorSub (base calculated_tensor) (base calculated_tensor)
             (base m_gen_r4_tensor) m in
  memcpy cubatic_tensor (base calculated_tensor) 81 m.

(** [CubaticOrderParameter::calcCubaticOrderParameter]: the value
    written through the reference, and the store. *)
Definition calcCubaticOrderParameter (cubatic_tensor : ptr) (m : mem)
  : float * mem :=
  let m := new_array diff 81 m in
  let m := memset_zero (base diff) 81 m in
  let m := tensorSub (base diff) (base m_global_tensor) cubatic_tensor m in
  (to_float
     (dsub d_1_0
        (to_double
           (fdiv (tensorDot (base diff) (base diff) m)
                 (tensorDot cubatic_tensor cubatic_tensor m)))),
   m).

(** The members of [CubaticOrderParameter]; the float buffers are in
    [heap]. *)
Record t : Type := {
  m_t_initial : float;
  m_t_final : float;
  m_scale : float;
  m_n : nat;
  m_n_replicates : nat;
  m_cubatic_orientation : quat;
  m_cubatic_order_parameter : float;
  heap : mem;
  m_gen : rng
}.

(** [CubaticOrderParameter::CubaticOrderParameter]; [r4_tensor] is the
    caller's array and [rd] the engine seeded from [m_rd()].  The two
    members the constructor leaves unset are given the default
    quaternion and zero. *)
Definition CubaticOrderParameter (t_initial t_final scale : float)
  (r4 : list float) (rd : rng) : construction t :=
  if flt t_initial t_final
  then invalid_argument "t_initial must be greater than t_final"
  else if flt (to_double t_final) d_1em6
  then invalid_argument "t_final must be > 1e-6"
  else if fgt scale (of_int 1) || flt scale (of_int 0)
  then invalid_argument "scale must be between 0 and 1"
  else
    let m : mem := fun b =>
      match b with
      | m_global_tensor => replicate 81 fzero
      | m_cubatic_tensor => replicate 81 fzero
      | m_particle_tensor => []
      | m_gen_r4_tensor => take 81 r4
      | _ => []
      end in
    Constructed
      {| m_t_initial := t_initial; m_t_final := t_final; m_scale := scale;
         m_n := 0; m_n_replicates := 1;
         m_cubatic_orientation := inhabitant;
         m_cubatic_order_parameter := fzero;
         heap := m; m_gen := rd |}.

(** Lines 515-519 and 537-541: a random unit axis from two draws. *)
Definition random_axis (g : rng) : vec3 * rng :=
  let '(theta, g) := m_theta_dist g in
  let '(u, g) := m_phi_dist g in
  let phi := to_float (acos (dsub (dmul d_2_0 (to_double u)) d_1_0)) in
  let axis :=
    mk_vec3 (fmul (cosf theta) (sinf phi)) (fmul (sinf theta) (sinf phi))
            (cosf phi) in
  let axis_norm := fsqrt (dot axis axis) in
  (vec3_div axis axis_norm, g).

(** Lines 489-513 of [compute]: the particle tensors, the global tensor
    and the subtraction of the generator.  The array is allocated anew
    only when the particle count differs from [m_n], with [n*81] cells,
    the product taken in [unsigned int] (line 492); the stage then
    clears and fills [n*81] cells of whatever array there is.  [None]
    where that runs past the end of the array, which the C++ leaves
    undefined. *)
Definition assemble (o : t) (orientations : list quat) (n : nat)
  : option mem :=
  let m := heap o in
  let m := if negb (m_n o =? n)%nat
           then new_array m_particle_tensor
                  (Z.to_nat (u32 (Z.of_nat n * 81))) m
           else m in
  if decide (n * 81 <= length (m m_particle_tensor))%nat then
    let m := memset_zero (base m_global_tensor) 81 m in
    let m := memset_zero (base m_particle_tensor) (n * 81) m in
    let m := ComputeParticleTensor (base m_particle_tensor) orientations n
               (mk_range 0 n) m in
    let m := ComputeGlobalTensor (base m_global_tensor)
               (base m_particle_tensor) n (mk_range 0 81) m in
    let a_i := mk_Index2D n 81 in
    let m :=
      for_loop 0 n (fun i m =>
        tensorSub (shift (base m_particle_tensor) (index2 a_i i 0))
          (shift (base m_particle_tensor) (index2 a_i i 0))
          (base m_gen_r4_tensor) m) m in
    Some (tensorSub (base m_global_tensor) (base m_global_tensor)
            (base m_gen_r4_tensor) m)
  else None.

(** The locals of [compute] that live across iterations of the loop. *)
Record loop_state : Type := {
  t_current : float;
  loop_count : Z;
  self : t
}.

(** How one pass through the body of the [while] ends: at the [throw],
    at the [continue], or at [t_current *= m_scale] after a commit. *)
Inductive iteration : Type :=
  | Thrown (what : string) (l : loop_state)
  | Rejected (l : loop_state)
  | Accepted (l : loop_state).

(** The three assignments of a commit, lines 554-556 and 564-566. *)
Definition commit (o : t) (m : mem) (g : rng) (new_order_parameter : float)
  (current_orientation : quat) : t :=
  {| m_t_initial := m_t_initial o; m_t_final := m_t_final o;
     m_scale := m_scale o; m_n := m_n o; m_n_replicates := m_n_replicates o;
     m_cubatic_orientation := current_orientation;
     m_cubatic_order_parameter := new_order_parameter;
     heap := memcpy (base m_cubatic_tensor) (base new_cubatic_tensor) 81 m;
     m_gen := g |}.

(** The object with its store and engine replaced, the retained state
    untouched. *)
Definition keep (o : t) (m : mem) (g : rng) : t :=
  {| m_t_initial := m_t_initial o; m_t_final := m_t_final o;
     m_scale := m_scale o; m_n := m_n o; m_n_replicates := m_n_replicates o;
     m_cubatic_orientation := m_cubatic_orientation o;
     m_cubatic_order_parameter := m_cubatic_order_parameter o;
     heap := m; m_gen := g |}.

(** Lines 534-573: the body of the annealing loop. *)
Definition anneal_iteration (l : loop_state) : iteration :=
  let o := self l in
  let loop_count := u32 (loop_count l + 1) in
  let '(axis, g) := random_axis (m_gen o) in
  let '(a, g) := m_angle_dist g in
  let angle := to_float (dmul d_0_1 (to_double a)) in
  let current_orientation :=
    quat_mul (fromAxisAngle axis angle) (m_cubatic_orientation o) in
  let m := calcCubaticTensor (base new_cubatic_tensor) current_orientation
             (heap o) in
  let '(new_order_parameter, m) :=
    calcCubaticOrderParameter (base new_cubatic_tensor) m in
  if fne new_order_parameter new_order_parameter
  then Thrown "received negative value"
         {| t_current := t_current l; loop_count := loop_count;
            self := keep o m g |}
  else if fgt new_order_parameter (m_cubatic_order_parameter o)
  then Accepted
         {| t_current := fmul (t_current l) (m_scale o);
            loop_count := loop_count;
            self := commit o m g new_order_parameter current_orientation |}
  else
    let boltzmann_factor :=
      expf (fdiv (fneg (fsub (m_cubatic_order_parameter o) new_order_parameter))
                 (t_current l)) in
    let '(test_value, g) := m_phi_dist g in
    if fge boltzmann_factor test_value
    then Accepted
           {| t_current := fmul (t_current l) (m_scale o);
              loop_count := loop_count;
              self := commit o m g new_order_parameter current_orientation |}
    else Rejected
           {| t_current := t_current l; loop_count := loop_count;
              self := keep o m g |}.

(** The guard of the [while]. *)
Definition loop_guard (l : loop_state) : bool :=
  fgt (t_current l) (m_t_final (self l)) && (loop_count l <? 10000).

(** How the loop ends. *)
Inductive loop_exit : Type :=
  | Exited (l : loop_state)
  | Raised (what : string) (l : loop_state).

(** The [while] loop run for at most [fuel] passes through its body;
    [None] when the guard still holds after them. *)
Fixpoint anneal_loop (fuel : nat) (l : loop_state) : option loop_exit :=
  if loop_guard l then
    match fuel with
    | O => None
    | S fuel =>
        match anneal_iteration l with
        | Thrown what l' => Some (Raised what l')
        | Rejected l' => anneal_loop fuel l'
        | Accepted l' => anneal_loop fuel l'
        end
    end
  else Some (Exited l).

(** Lines 514-531: the initial orientation, its tensor and score, and
    the locals of the loop. *)
Definition anneal_start (o : t) (m : mem) : loop_state :=
  let '(axis, g) := random_axis (m_gen o) in
  let '(angle, g) := m_angle_dist g in
  let current_orientation := fromAxisAngle axis angle in
  let m := calcCubaticTensor (base m_cubatic_tensor) current_orientation m in
  let '(s, m) := calcCubaticOrderParameter (base m_cubatic_tensor) m in
  let m := new_array new_cubatic_tensor 81 m in
  let m := memset_zero (base new_cubatic_tensor) 81 m in
  {| t_current := m_t_initial o; loop_count := 0;
     self :=
       {| m_t_initial := m_t_initial o; m_t_final := m_t_final o;
          m_scale := m_scale o; m_n := m_n o;
          m_n_replicates := m_n_replicates o;
          m_cubatic_orientation := current_orientation;
          m_cubatic_order_parameter := s;
          heap := m; m_gen := g |} |}.

(** How a call of [compute] ends: it returns, or the
    [std::runtime_error] of the loop leaves it; with the object as the
    call leaves it. *)
Inductive outcome : Type :=
  | Returned (o : t)
  | runtime_error (what : string) (o : t).

(** [CubaticOrderParameter::compute], the loop given [fuel] passes.
    [None] when the assembly stage runs past the particle array, or
    when the loop would need more passes than [fuel]. *)
Definition compute_fuel (fuel : nat) (o : t) (orientations : list quat)
  (n n_replicates : nat) : option outcome :=
  match assemble o orientations n with
  | None => None
  | Some m =>
      match anneal_loop fuel (anneal_start o m) with
      | None => None
      | Some (Raised what l) => Some (runtime_error what (self l))
      | Some (Exited l) =>
          let o' := self l in
          Some (Returned
            {| m_t_initial := m_t_initial o'; m_t_final := m_t_final o';
               m_scale := m_scale o'; m_n := n;
               m_n_replicates := n_replicates;
               m_cubatic_orientation := m_cubatic_orientation o';
               m_cubatic_order_parameter := m_cubatic_order_parameter o';
               heap := heap o'; m_gen := m_gen o' |})
      end
  end.

(** [CubaticOrderParameter::compute]: the guard admits at most 10000
    passes, so that [None] is the call without defined behaviour. *)
Definition compute (o : t) (orientations : list quat) (n n_replicates : nat)
  : option outcome :=
  compute_fuel (Z.to_nat 10000) o orientations n n_replicates.

End Cubatic.
End Cubatic.

(* ================================================================= *)
(** ** The tensor algebra as the specification states it

    [TensorOps] of the specification: a rank-4 tensor is a value of 81
    floats, entry [(i,j,k,l)] at position [((i*3+j)*3+k)*3+l]. *)

Module T4.

Abbreviation t := (list float).

Definition zero : t := replicate 81 fzero.
Definition add (A B : t) : t := zip_with fadd A B.
Definition sub (A B : t) : t := zip_with fsub A B.
Definition mul_scalar (A : t) (a : float) : t := map (fun x => fmul x a) A.
Definition dot (A B : t) : float :=
  fold_left (fun s ab => fadd s (fmul (fst ab) (snd ab))) (zip A B) fzero.

Definition component (v : vec3) (i : nat) : float := [vx v; vy v; vz v] !!! i.

(** [outer4(v)[i,j,k,l] = v_i * v_j * v_k * v_l]. *)
Definition outer4_entry (v : vec3) (i j k l : nat) : float :=
  fmul (fmul (fmul (component v i) (component v j)) (component v k))
       (component v l).

Definition outer4 (v : vec3) : t :=
  map (fun c => outer4_entry v (c / 27) (c / 9 mod 3) (c / 3 mod 3) (c mod 3))
      (seq 0 81).

(** Position of entry [(i,j,k,l)]. *)
Definition pos (i j k l : nat) : nat := ((i * 3 + j) * 3 + k) * 3 + l.

(** The score [1 - |G - M|^2 / |M|^2], the subtraction from the double
    [1.0] rounded to float. *)
Definition score (G M : t) : float :=
  to_float (dsub d_1_0 (to_double (fdiv (dot (sub G M) (sub G M)) (dot M M)))).

End T4.

(** The 81 floats at a pointer. *)
Definition read (m : Cubatic.mem) (p : Cubatic.ptr) : T4.t :=
  map (fun i => Cubatic.load m (Cubatic.shift p i)) (seq 0 81).

(* ================================================================= *)
(** ** Reference instances of the collaborators

    Concrete collaborators on which the embedding can be run. *)

Module Model.

Definition vscale (a : float) (b : vec3) : vec3 :=
  mk_vec3 (fmul a (vx b)) (fmul a (vy b)) (fmul a (vz b)).
Definition vadd (a b : vec3) : vec3 :=
  mk_vec3 (fadd (vx a) (vx b)) (fadd (vy a) (vy b)) (fadd (vz a) (vz b)).
Definition vneg (a : vec3) : vec3 :=
  mk_vec3 (fneg (vx a)) (fneg (vy a)) (fneg (vz a)).
Definition vdot (a b : vec3) : float :=
  fadd (fadd (fmul (vx a) (vx b)) (fmul (vy a) (vy b))) (fmul (vz a) (vz b)).
Definition cross (a b : vec3) : vec3 :=
  mk_vec3 (fsub (fmul (vy a) (vz b)) (fmul (vz a) (vy b)))
          (fsub (fmul (vz a) (vx b)) (fmul (vx a) (vz b)))
          (fsub (fmul (vx a) (vy b)) (fmul (vy a) (vx b))).

(** Structural equality of floats, for table lookup. *)
Definition same_float (a b : float) : bool :=
  match a, b with
  | S754_zero s, S754_zero s' => Bool.eqb s s'
  | S754_infinity s, S754_infinity s' => Bool.eqb s s'
  | S754_nan, S754_nan => true
  | S754_finite s m e, S754_finite s' m' e' =>
      Bool.eqb s s' && Pos.eqb m m' && Z.eqb e e'
  | _, _ => false
  end.

(** A function given by finitely many of its values, NaN elsewhere. *)
Fixpoint tabulated (table : list (float * float)) (x : float) : float :=
  match table with
  | [] => nan
  | (a, y) :: table => if same_float a x then y else tabulated table x
  end.

(** Modelled from the spec: libm, which is not among the sources.  The
    values of [cosf], [sinf], [acos] and [expf] at the arguments the
    examples below reach, rounded to nearest; the float [1.5707964] is
    [acos(0)] stored in a float, [0.1] is half of the float [0.2]. *)
Definition phi_half_pi : float := B32 13176795 (-23).
Definition f_0_1 : float := B32 13421773 (-27).

Definition cosf_table : list (float * float) :=
  [ (fzero, fone); (phi_half_pi, B32 (-12303662) (-48));
    (f_0_1, B32 16693400 (-24)) ].
Definition sinf_table : list (float * float) :=
  [ (fzero, fzero); (phi_half_pi, fone); (f_0_1, B32 13399415 (-27)) ].
Definition acos_table : list (float * float) :=
  [ (S754_zero false, B64 7074237752028440 (-52)) ].
Definition expf_table : list (float * float) :=
  [ (B32 (-13569112) (-28), B32 15950224 (-24)) ].

#[global] Instance libm : Libm := {
  cosf := tabulated cosf_table;
  sinf := tabulated sinf_table;
  acos := tabulated acos_table;
  expf := tabulated expf_table
}.

(** Modelled from the spec: VectorMath.h, which is not among the
    sources.  Quaternions act in the Hamilton convention:
    [rotate q v = (s^2 - |u|^2) v + 2 s (u x v) + 2 (u . v) u] for
    [q = (s, u)], [conj] negates the vector part, and
    [fromAxisAngle axis theta = (cos(theta/2), sin(theta/2) axis)]. *)
#[global] Instance vector_math : VectorMath := {
  rotate a b :=
    vadd
      (vadd (vscale (fsub (fmul (qs a) (qs a)) (vdot (qv a) (qv a))) b)
            (vscale (fmul (of_int 2) (qs a)) (cross (qv a) b)))
      (vscale (fmul (of_int 2) (vdot (qv a) b)) (qv a));
  conj a := mk_quat (qs a) (vneg (qv a));
  quat_mul a b :=
    mk_quat (fsub (fmul (qs a) (qs b)) (vdot (qv a) (qv b)))
      (vadd (vadd (vscale (qs a) (qv b)) (vscale (qs b) (qv a)))
            (cross (qv a) (qv b)));
  fromAxisAngle axis theta :=
    mk_quat (cosf (fdiv theta ftwo)) (vscale (sinf (fdiv theta ftwo)) axis);
  dot := vdot;
  vec3_div a b := mk_vec3 (fdiv (vx a) b) (fdiv (vy a) b) (fdiv (vz a) b)
}.

(** A random engine that replays a list of draws, and gives zero once
    the list is used up. *)
Definition replay (g : list float) : float * list float :=
  match g with
  | [] => (fzero, [])
  | x :: g => (x, g)
  end.

#[global] Instance replay_engine : RandomEngine := {
  rng := list float;
  m_theta_dist := replay;
  m_phi_dist := replay;
  m_angle_dist := replay
}.

(** Modelled from the spec: [trajectory::Box], which is not among the
    sources.  An orthorhombic box with its edge lengths and 2D flag;
    [wrap] gives the minimum image of a vector no longer than a box
    edge, and leaves [z] alone in a 2D box. *)
Record box : Type := mk_box { Lx : float; Ly : float; Lz : float; twoD : bool }.

Definition wrap1 (L x : float) : float :=
  let half := fdiv L (of_int 2) in
  if fgt x half then fsub x L
  else if flt x (fneg half) then fadd x L
  else x.

#[global] Instance box_ops : BoxOps := {
  Box := box;
  getLx := Lx;
  getLy := Ly;
  getLz := Lz;
  is2D := twoD;
  wrap b v :=
    make_float3 (wrap1 (Lx b) (f3x v)) (wrap1 (Ly b) (f3y v))
      (if twoD b then f3z v else wrap1 (Lz b) (f3z v))
}.

(** Modelled from the spec: [locality::LinkCell], which is not among
    the sources.  The coarsest cell list: one cell that holds every
    point and is its own only neighbour. *)
#[global] Instance one_cell : LinkCellOps := {
  LinkCell := nat;
  LinkCell_new _ _ := 0%nat;
  computeCellList _ _ Np := Np;
  getCell _ _ := 0;
  getCellNeighbors _ _ := [0];
  itercell lc _ := seq 0 lc
}.

(** The identity quaternion, as [quat] and as [float4]. *)
Definition q_id : quat := mk_quat fone (mk_vec3 fzero fzero fzero).
Definition q4_id : float4 := make_float4 fzero fzero fzero fone.

End Model.

(* ================================================================= *)
(** * Terms of the statements

    What the theorems below speak of: the contents of a tensor read
    from the store, the pairs a kernel goes through, the bin of a
    coordinate, and the like. *)

Import Cubatic.

(** [n] consecutive cells from [out] filled in increasing order, cell
    [i] with a value computed from the store at that moment. *)
Definition pointwise (n : nat) (out : ptr) (f : nat -> mem -> float) (m : mem)
  : mem :=
  for_loop 0 n (fun i m => store m (shift out i) (f i m)) m.

(** [q] is not one of the [n] cells from [out]. *)
Definition outside (out : ptr) (n : nat) (q : ptr) : Prop :=
  p_buf q <> p_buf out \/ (p_off q < p_off out)%nat
  \/ (p_off out + n <= p_off q)%nat.

(** An input that is the output itself, or lies in another buffer. *)
Definition compat (a out : ptr) : Prop := a = out \/ p_buf a <> p_buf out.

Section CubaticTensorTerms.
Context `{VectorMath}.

(** The tensor [calcCubaticTensor] assembles, in the order of its
    operations: the accumulator starts from the zero tensor. *)
Definition cubatic_tensor_of (orientation : quat) (r4 : T4.t) : T4.t :=
  T4.sub
    (T4.mul_scalar
       (T4.add
          (T4.add
             (T4.add T4.zero (T4.outer4 (rotate orientation (basis !!! 0%nat))))
             (T4.outer4 (rotate orientation (basis !!! 1%nat))))
          (T4.outer4 (rotate orientation (basis !!! 2%nat))))
       ftwo)
    r4.

End CubaticTensorTerms.

Section AnnealTerms.
Context `{VectorMath} `{Libm} `{RandomEngine}.

(** The orientation an iteration proposes from the state it starts in,
    and the engine after the draws of the proposal. *)
Definition proposal (l : loop_state) : quat * rng :=
  let '(axis, g) := random_axis (m_gen (self l)) in
  let '(a, g) := m_angle_dist g in
  (quat_mul (fromAxisAngle axis (to_float (dmul d_0_1 (to_double a))))
     (m_cubatic_orientation (self l)), g).

(** The score of that proposal against the stored global tensor. *)
Definition candidate_score (l : loop_state) : float :=
  T4.score (read (heap (self l)) (base m_global_tensor))
    (cubatic_tensor_of (fst (proposal l))
       (read (heap (self l)) (base m_gen_r4_tensor))).

(** The Boltzmann factor of line 560 for a candidate score [s']. *)
Definition boltzmann (l : loop_state) (s' : float) : float :=
  expf (fdiv (fneg (fsub (m_cubatic_order_parameter (self l)) s'))
             (t_current l)).

(** The retained score agrees with the stored tensors. *)
Definition consistent (o : t) : Prop :=
  m_cubatic_order_parameter o
  = T4.score (read (heap o) (base m_global_tensor))
      (read (heap o) (base m_cubatic_tensor)).

(** The retained tensor is the cubatic tensor of the retained
    orientation. *)
Definition tensor_consistent (o : t) : Prop :=
  read (heap o) (base m_cubatic_tensor)
  = cubatic_tensor_of (m_cubatic_orientation o)
      (read (heap o) (base m_gen_r4_tensor)).

(** The buffers the loop writes have their 81 cells. *)
Definition loop_buffers (m : mem) : Prop :=
  length (m m_cubatic_tensor) = 81%nat
  /\ length (m new_cubatic_tensor) = 81%nat.

(** Buffers that evaluating a proposal does not write. *)
Definition retained_buf (b : buf) : Prop :=
  b <> calculated_tensor /\ b <> l_tensor /\ b <> new_cubatic_tensor
  /\ b <> diff.

End AnnealTerms.

(** Row [i] of an [n x 81] array at [p]. *)
Definition row (p : ptr) (n i : nat) : ptr :=
  shift p (index2 (mk_Index2D n 81) i 0).

(** [1.0/(float)n] stored in a float. *)
Definition n_inv (n : nat) : float :=
  to_float (ddiv d_1_0 (to_double (of_int (Z.of_nat n)))).

Section ParticleTensorTerms.
Context `{VectorMath}.

(** The tensor of a particle of orientation [q] as
    [ComputeParticleTensor] accumulates it: each outer product is added
    in front of the sum so far, which starts from zero. *)
Definition particle_row (q : quat) : T4.t :=
  T4.mul_scalar
    (T4.add (T4.outer4 (rotate q (basis !!! 2%nat)))
       (T4.add (T4.outer4 (rotate q (basis !!! 1%nat)))
          (T4.add (T4.outer4 (rotate q (basis !!! 0%nat))) T4.zero)))
    ftwo.

(** The body of the loop over particles in [ComputeParticleTensor]. *)
Definition particle_pass (particle_tensor : ptr) (orientations : list quat)
  (n i : nat) (m : mem) : mem :=
  let a_i := mk_Index2D n 81 in
  let v := basis in
  let l_orientation := orientations !!! i in
  let m := memset_zero (base l_mbar) 81 m in
  let m :=
    for_loop 0 3 (fun j m =>
      let m := memset_zero (base r4_tensor) 81 m in
      let v_r := rotate l_orientation (v !!! j) in
      let m := tensorProduct (base r4_tensor) v_r m in
      tensorAdd (base l_mbar) (base r4_tensor) (base l_mbar) m) m in
  let m := tensorMult (base l_mbar) (to_float d_2_0) m in
  for_loop 0 81 (fun j m =>
    store m (shift particle_tensor (index2 a_i i j))
      (load m (shift (base l_mbar) j))) m.

(** The column mean of the rows [rows 0 .. rows (n-1)]: the sum from
    zero in the order of the particles, times [1/n]. *)
Definition column_mean (rows : nat -> T4.t) (n : nat) : T4.t :=
  map (fun k =>
         fmul (for_loop 0 n (fun j tensor_value =>
                 fadd tensor_value (rows j !!! k)) fzero)
              (n_inv n))
      (seq 0 81).

End ParticleTensorTerms.

Section ComputeTerms.
Context `{VectorMath} `{Libm} `{RandomEngine}.

(** The store after lines 490-493: the particle array the stage works
    on, allocated anew when the particle count has changed. *)
Definition particle_array (o : t) (n : nat) : mem :=
  if negb (m_n o =? n)%nat
  then new_array m_particle_tensor (Z.to_nat (u32 (Z.of_nat n * 81))) (heap o)
  else heap o.

(** The [n*81] cells the stage clears and fills lie inside that array. *)
Definition stage_in_bounds (o : t) (n : nat) : Prop :=
  (n * 81 <= length (particle_array o n m_particle_tensor))%nat.

(** The store the stage leaves when it stays inside the array. *)
Definition assembled (o : t) (orientations : list quat) (n : nat) : mem :=
  let m := particle_array o n in
  let m := memset_zero (base m_global_tensor) 81 m in
  let m := memset_zero (base m_particle_tensor) (n * 81) m in
  let m := ComputeParticleTensor (base m_particle_tensor) orientations n
             (mk_range 0 n) m in
  let m := ComputeGlobalTensor (base m_global_tensor)
             (base m_particle_tensor) n (mk_range 0 81) m in
  let m :=
    for_loop 0 n (fun i m =>
      tensorSub (row (base m_particle_tensor) n i)
        (row (base m_particle_tensor) n i) (base m_gen_r4_tensor) m) m in
  tensorSub (base m_global_tensor) (base m_global_tensor)
    (base m_gen_r4_tensor) m.

(** The two tensors the constructor allocates have their 81 cells: so in
    every object of the program, which never allocates them again. *)
Definition allocated (o : t) : Prop :=
  length (heap o m_global_tensor) = 81%nat
  /\ length (heap o m_cubatic_tensor) = 81%nat.

(** The object's buffers have the sizes the constructor and a returning
    [compute] leave them with. *)
Definition well_formed (o : t) : Prop :=
  length (heap o m_global_tensor) = 81%nat
  /\ length (heap o m_cubatic_tensor) = 81%nat
  /\ length (heap o m_particle_tensor) = (m_n o * 81)%nat.

(** The global tensor of the particles before the generator is
    subtracted. *)
Definition global_mean (orientations : list quat) (n : nat) : T4.t :=
  column_mean (fun j => particle_row (orientations !!! j)) n.

(** The state an iteration ends in. *)
Definition state_of (it : iteration) : loop_state :=
  match it with Thrown _ l | Rejected l | Accepted l => l end.

(** The object a call of [compute] leaves. *)
Definition object_of (out : outcome) : t :=
  match out with Returned o | runtime_error _ o => o end.

(** The state the loop ends in. *)
Definition exit_state (e : loop_exit) : loop_state :=
  match e with Exited l | Raised _ l => l end.

(** The invariant of the loop: the retained score and tensor agree with
    the retained orientation and the global tensor, and the buffers the
    loop writes are in place. *)
Definition loop_invariant (l : loop_state) : Prop :=
  consistent (self l) /\ tensor_consistent (self l)
  /\ loop_buffers (heap (self l)).

End ComputeTerms.

Definition is_zero (a : float) : bool :=
  match a with S754_zero _ => true | _ => false end.

(** Equal as numbers: the same float, or two zeros of any sign. *)
Definition same_value (a b : float) : Prop :=
  a = b \/ (is_zero a = true /\ is_zero b = true).

Section CubaticTensorTerms2.
Context `{VectorMath}.

(** Entry [(i,j,k,l)] of the tensor of the specification,
    [2 (outer4 u0 + outer4 u1 + outer4 u2) - R4]. *)
Definition cubatic_entry (u0 u1 u2 : vec3) (r4 : list float) (i j k l : nat)
  : float :=
  fsub
    (fmul
       (fadd (fadd (T4.outer4_entry u0 i j k l) (T4.outer4_entry u1 i j k l))
             (T4.outer4_entry u2 i j k l))
       ftwo)
    (r4 !!! T4.pos i j k l).

End CubaticTensorTerms2.

Section ObjectTerms.
Context `{VectorMath} `{Libm} `{RandomEngine}.

(** The members no statement of the loop assigns. *)
Definition same_settings (o o' : t) : Prop :=
  m_t_initial o' = m_t_initial o /\ m_t_final o' = m_t_final o
  /\ m_scale o' = m_scale o /\ m_n o' = m_n o
  /\ m_n_replicates o' = m_n_replicates o.

(** [o'] is what [o] has become after some calls of [compute], each of
    which returned or threw. *)
Inductive calls (o : t) : t -> Prop :=
  | calls_none : calls o o
  | calls_compute o' orientations n n_replicates out :
      calls o o' ->
      compute o' orientations n n_replicates = Some out ->
      calls o (object_of out).

(** An object of the program: made by the constructor, then used
    through [compute]. *)
Definition reachable (o : t) : Prop :=
  exists t_initial t_final scale r4 rd o0,
    CubaticOrderParameter t_initial t_final scale r4 rd = Constructed o0
    /\ calls o0 o.

End ObjectTerms.

Section BinningTerms.
Context `{VectorMath} `{LinkCellOps}.
Import PMFXYZ.

(** The wrapped displacement [box.wrap(ref_points[i] - points[j])]. *)
Definition displacement (f : functor) (i j : nat) : float3 :=
  let ref := f_ref_points f !!! i in
  let point := f_points f !!! j in
  wrap (f_box f)
    (make_float3 (fsub (f3x ref) (f3x point)) (fsub (f3y ref) (f3y point))
       (fsub (f3z ref) (f3z point))).

(** The test of lines 192 and 341. *)
Definition coincident (delta : float3) : bool :=
  flt (to_double (fmul (f3x delta) (f3x delta))) d_1em6
  && flt (to_double (fmul (f3y delta) (f3y delta))) d_1em6
  && flt (to_double (fmul (f3z delta) (f3z delta))) d_1em6.

(** The displacement in the frame of reference [i]:
    [rotate(extra_orientations[i], rotate(conj(ref_orientations[i]), delta))]. *)
Definition body_frame (f : functor) (i : nat) (delta : float3) : vec3 :=
  let ro := f_ref_orientations f !!! i in
  let eo := f_extra_orientations f !!! i in
  rotate (mk_quat (f4w eo) (mk_vec3 (f4x eo) (f4y eo) (f4z eo)))
    (rotate (conj (mk_quat (f4w ro) (mk_vec3 (f4x ro) (f4y ro) (f4z ro))))
       (mk_vec3 (f3x delta) (f3y delta) (f3z delta))).

(** The bin of a coordinate: the shifted coordinate times the rounded
    reciprocal of the step, floored and converted to [int]. *)
Definition bin_index (v max d : float) : Z :=
  cvtt_ss2si (floorf (fmul (fadd v max) (fdiv fone d))).

(** The pairs the two kernels go through, in their order. *)
Definition direct_pairs (f : functor) (r : blocked_range) : list (nat * nat) :=
  flat_map (fun i => map (pair i) (seq 0 (f_Np f)))
    (seq (r_begin r) (r_end r - r_begin r)).

Definition cell_pairs (f : functor) (lc : LinkCell) (r : blocked_range)
  : list (nat * nat) :=
  flat_map (fun i =>
      flat_map (fun c => map (pair i) (itercell lc c))
        (getCellNeighbors lc (getCell lc (f_ref_points f !!! i))))
    (seq (r_begin r) (r_end r - r_begin r)).

(** A list of pairs binned one after the other. *)
Definition bin_pairs (f : functor) (pairs : list (nat * nat)) (pcf : list Z)
  : list Z :=
  fold_left (fun pcf ij =>
      bin_pair f (fdiv fone (f_dx f)) (fdiv fone (f_dy f))
        (fdiv fone (f_dz f)) (fst ij) (snd ij) pcf)
    pairs pcf.

(** The sizes the constructor can give a grid whose histogram is
    addressable: every count fits an [int] and the cells an
    [unsigned int]. *)
Definition grid_sized (f : functor) : Prop :=
  0 <= f_nbins_x f <= 2 ^ 31 /\ 0 <= f_nbins_y f <= 2 ^ 31
  /\ 0 <= f_nbins_z f <= 2 ^ 31
  /\ f_nbins_x f * f_nbins_y f * f_nbins_z f < 2 ^ 32.

End BinningTerms.

(** The floor as an [int]: the mathematical floor when it is in the
    range of [int], and the "integer indefinite" otherwise. *)
Definition floor_int (a : float) : Z :=
  match floorZ a with
  | Some b => if (INT_MIN <=? b) && (b <? 2 ^ 31) then b else INT_MIN
  | None => INT_MIN
  end.

Section PairTerms.
Context `{VectorMath} `{LinkCellOps}.
Import PMFXYZ.

(** The cell a pair is counted in, if any. *)
Definition pair_cell (f : functor) (i j : nat) : option nat :=
  let delta := displacement f i j in
  let v := body_frame f i delta in
  let bx := bin_index (vx v) (f_max_x f) (f_dx f) in
  let by_ := bin_index (vy v) (f_max_y f) (f_dy f) in
  let bz := bin_index (vz v) (f_max_z f) (f_dz f) in
  if coincident delta then None
  else if (0 <=? bx) && (bx <? f_nbins_x f)
          && ((0 <=? by_) && (by_ <? f_nbins_y f))
          && ((0 <=? bz) && (bz <? f_nbins_z f))
  then Some (Z.to_nat (bz * f_nbins_y f * f_nbins_x f + by_ * f_nbins_x f + bx))
  else None.

(** One more count in a cell of the [unsigned int] histogram. *)
Definition increment (cell : nat) (pcf : list Z) : list Z :=
  <[cell := u32 (pcf !!! cell + 1)]> pcf.

Definition count_pair (f : functor) (pcf : list Z) (ij : nat * nat) : list Z :=
  match pair_cell f (fst ij) (snd ij) with
  | Some cell => increment cell pcf
  | None => pcf
  end.

(** The bin of a coordinate as the specification words it: the shifted
    coordinate divided by the step. *)
Definition claimed_bin_index (v max d : float) : Z :=
  cvtt_ss2si (floorf (fdiv (fadd v max) d)).

Definition claimed_pair_cell (f : functor) (i j : nat) : option nat :=
  let delta := displacement f i j in
  let v := body_frame f i delta in
  let bx := claimed_bin_index (vx v) (f_max_x f) (f_dx f) in
  let by_ := claimed_bin_index (vy v) (f_max_y f) (f_dy f) in
  let bz := claimed_bin_index (vz v) (f_max_z f) (f_dz f) in
  if coincident delta then None
  else if (0 <=? bx) && (bx <? f_nbins_x f)
          && ((0 <=? by_) && (by_ <? f_nbins_y f))
          && ((0 <=? bz) && (bz <? f_nbins_z f))
  then Some (Z.to_nat (bz * f_nbins_y f * f_nbins_x f + by_ * f_nbins_x f + bx))
  else None.

End PairTerms.

Import Model.

(** The object [CubaticOrderParameter(2, 1.5, 0.5, 0)] with an engine
    that replays seven draws. *)
Definition example_draws : list float :=
  [fzero; B32 1 (-1); fzero; fzero; B32 1 (-1); B32 2 0; B32 1 (-1)].

Definition example_object : Cubatic.t :=
  {| m_t_initial := B32 2 0; m_t_final := B32 3 (-1); m_scale := B32 1 (-1);
     m_n := 0; m_n_replicates := 1;
     m_cubatic_orientation := inhabitant;
     m_cubatic_order_parameter := fzero;
     heap := fun b =>
       match b with
       | m_global_tensor => replicate 81 fzero
       | m_cubatic_tensor => replicate 81 fzero
       | m_particle_tensor => []
       | m_gen_r4_tensor => replicate 81 fzero
       | _ => []
       end;
     m_gen := example_draws |}.

(** The state in which [compute] on one particle of identity orientation
    enters the loop. *)
Definition example_loop_state : loop_state :=
  match assemble example_object [q_id] 1 with
  | Some m => anneal_start example_object m
  | None => anneal_start example_object (heap example_object)
  end.

(** The same object with an engine whose seventh draw, the one the
    first pass of the loop compares the Boltzmann factor with, is
    0.99. *)
Definition example_cold_draws : list float :=
  [fzero; B32 1 (-1); fzero; fzero; B32 1 (-1); B32 2 0; B32 16609444 (-24)].

Definition example_cold_object : Cubatic.t :=
  {| m_t_initial := B32 2 0; m_t_final := B32 3 (-1); m_scale := B32 1 (-1);
     m_n := 0; m_n_replicates := 1;
     m_cubatic_orientation := inhabitant;
     m_cubatic_order_parameter := fzero;
     heap := fun b =>
       match b with
       | m_global_tensor => replicate 81 fzero
       | m_cubatic_tensor => replicate 81 fzero
       | m_particle_tensor => []
       | m_gen_r4_tensor => replicate 81 fzero
       | _ => []
       end;
     m_gen := example_cold_draws |}.

Definition example_cold_state : loop_state :=
  match assemble example_cold_object [q_id] 1 with
  | Some m => anneal_start example_cold_object m
  | None => anneal_start example_cold_object (heap example_cold_object)
  end.

(** The object after three calls: [compute] on two particles, which
    returns; [compute] on none, which throws; the object the throw
    leaves. *)
Definition example_stale_object : Cubatic.t :=
  match compute example_object [q_id; q_id] 2 1 with
  | Some out =>
      match compute (object_of out) [] 0 1 with
      | Some out' => object_of out'
      | None => object_of out
      end
  | None => example_object
  end.

Definition origin : float3 := make_float3 fzero fzero fzero.

(** A cubic grid in a cubic box, with one reference at the origin and
    one point, all orientations the identity. *)
Definition example_grid (L max d : float) : construction PMFXYZ.t :=
  PMFXYZ.PMFXYZ (mk_box L L L false) max max max d d d.

Definition example_functor (L max d : float) (n : Z) (point : float3)
  : PMFXYZ.functor :=
  {| PMFXYZ.f_nbins_x := n; PMFXYZ.f_nbins_y := n; PMFXYZ.f_nbins_z := n;
     PMFXYZ.f_box := mk_box L L L false;
     PMFXYZ.f_max_x := max; PMFXYZ.f_max_y := max; PMFXYZ.f_max_z := max;
     PMFXYZ.f_dx := d; PMFXYZ.f_dy := d; PMFXYZ.f_dz := d;
     PMFXYZ.f_ref_points := [origin]; PMFXYZ.f_ref_orientations := [q4_id];
     PMFXYZ.f_Nref := 1;
     PMFXYZ.f_points := [point]; PMFXYZ.f_orientations := [q4_id];
     PMFXYZ.f_Np := 1;
     PMFXYZ.f_extra_orientations := [q4_id] |}.

Definition example_histogram (L max d : float) (point : float3) : list Z :=
  match example_grid L max d with
  | Constructed g =>
      PMFXYZ.m_pcf_array
        (PMFXYZ.compute g [origin] [q4_id] 1 [point] [q4_id] 1 [q4_id])
  | _ => []
  end.

(** The sum of the counts of a histogram. *)
Definition total (pcf : list Z) : Z := fold_right Z.add 0 pcf.

(** A float that is a number: finite or a zero. *)
Definition finite (a : float) : bool :=
  match a with
  | S754_zero _ | S754_finite _ _ _ => true
  | _ => false
  end.

Section GridTerms.
Context `{VectorMath} `{LinkCellOps}.
Import PMFXYZ.

(** The helper object [compute] hands to [parallel_for]. *)
Definition functor_of (o : t)
  (ref_points : list float3) (ref_orientations : list float4) (Nref : nat)
  (points : list float3) (orientations : list float4) (Np : nat)
  (extra_orientations : list float4) : functor :=
  {| f_nbins_x := m_nbins_x o; f_nbins_y := m_nbins_y o;
     f_nbins_z := m_nbins_z o; f_box := m_box o;
     f_max_x := m_max_x o; f_max_y := m_max_y o; f_max_z := m_max_z o;
     f_dx := m_dx o; f_dy := m_dy o; f_dz := m_dz o;
     f_ref_points := ref_points; f_ref_orientations := ref_orientations;
     f_Nref := Nref; f_points := points; f_orientations := orientations;
     f_Np := Np; f_extra_orientations := extra_orientations |}.

(** The grid of an object: what [compute] and [resetPCF] never assign. *)
Definition same_grid (o o' : t) : Prop :=
  m_box o' = m_box o
  /\ m_max_x o' = m_max_x o /\ m_max_y o' = m_max_y o /\ m_max_z o' = m_max_z o
  /\ m_dx o' = m_dx o /\ m_dy o' = m_dy o /\ m_dz o' = m_dz o
  /\ m_nbins_x o' = m_nbins_x o /\ m_nbins_y o' = m_nbins_y o
  /\ m_nbins_z o' = m_nbins_z o.

(** The number of pairs of a list that are counted. *)
Fixpoint counted (f : functor) (pairs : list (nat * nat)) : Z :=
  match pairs with
  | [] => 0
  | ij :: pairs =>
      match pair_cell f (fst ij) (snd ij) with
      | Some _ => 1 + counted f pairs
      | None => counted f pairs
      end
  end.

End GridTerms.

(** How [compute] on the example ends. *)
Definition example_outcome : outcome :=
  match compute example_object [q_id] 1 1 with
  | Some out => out
  | None => Returned example_object
  end.

(** The grid of 2 bins of width 41 on [-41, 41] in a box of edge 200,
    as [PMFXYZ(box, 41, 41, 41, 41, 41, 41)] builds it. *)
Definition example_pmf : PMFXYZ.t :=
  {| PMFXYZ.m_box := mk_box (B32 200 0) (B32 200 0) (B32 200 0) false;
     PMFXYZ.m_max_x := B32 41 0; PMFXYZ.m_max_y := B32 41 0;
     PMFXYZ.m_max_z := B32 41 0;
     PMFXYZ.m_dx := B32 41 0; PMFXYZ.m_dy := B32 41 0; PMFXYZ.m_dz := B32 41 0;
     PMFXYZ.m_nbins_x := 2; PMFXYZ.m_nbins_y := 2; PMFXYZ.m_nbins_z := 2;
     PMFXYZ.m_x_array := [B32 (-41) (-1); B32 41 (-1)];
     PMFXYZ.m_y_array := [B32 (-41) (-1); B32 41 (-1)];
     PMFXYZ.m_z_array := [B32 (-41) (-1); B32 41 (-1)];
     PMFXYZ.m_pcf_array := replicate 8 0;
     PMFXYZ.m_lc := None |}.

(** [mT * 2^eT <= m * 2^e], on integers. *)
Definition le_val (mT eT m e : Z) : Prop :=
  mT * 2 ^ (eT - Z.min eT e) <= m * 2 ^ (e - Z.min eT e).

(** What [shr_fexp] does to a mantissa and its exponent: nothing when
    the exponent is the one of the format already, and otherwise the
    mantissa loses its low bits. *)
Definition stage (m e : Z) : Z * Z :=
  let e1 := fexp prec32 emax32 (Zdigits2 m + e) in
  if e1 <=? e then (m, e) else (m / 2 ^ (e1 - e), e1).

(** The end of [binary_round_aux]. *)
Definition finish (s : bool) (r : Z * Z) : float :=
  match fst r with
  | Z0 => S754_zero s
  | Zpos m =>
      if snd r <=? emax32 - prec32 then S754_finite s m (snd r)
      else S754_infinity s
  | Zneg _ => S754_nan
  end.

(** A positive float, or [+inf], of value at least [mT * 2^eT]. *)
Definition above (mT eT : Z) (a : float) : Prop :=
  match a with
  | S754_infinity false => True
  | S754_finite false m e => le_val mT eT (Zpos m) e /\ -149 <= e
  | _ => False
  end.

(** The value of a finite float in units of [2^-149], an integer for
    every float whose exponent is at least -149. *)
Definition scaled (a : float) : Z :=
  match a with
  | S754_finite s m e => cond_Zopp s (Zpos m) * 2 ^ (e + 149)
  | _ => 0
  end.

(** A finite float of exponent at least -149, as every binary32 number
    has. *)
Definition ranged (a : float) : bool :=
  match a with
  | S754_zero _ => true
  | S754_finite _ _ e => -149 <=? e
  | _ => false
  end.

(** A positive binary32 number: mantissa of at most 24 bits, exponent at
    least -149. *)
Definition threshold (x0 : float) : bool :=
  match x0 with
  | S754_finite false m e => (Zpos m <=? 2 ^ 24) && (-149 <=? e)
  | _ => false
  end.

(** The coordinate [v] is past the end of the bins of an axis of
    half-extent [max] and step [d]: in exact arithmetic, [v + max] is at
    least a binary32 number [x0] whose product with the rounded
    reciprocal of [d] is at least [nbins max d]. *)
Definition past_end (x0 v max d : float) : bool :=
  ranged v && ranged max && threshold x0
  && (PMFXYZ.nbins max d <=? 2 ^ 24)
  && (PMFXYZ.nbins max d * 2 ^ 298 <=? scaled x0 * scaled (fdiv fone d))
  && (scaled x0 <=? scaled v + scaled max).

(** The grid of 4 bins of width 0.4 on [-1, 1] in a box of edge 10, as
    [PMFXYZ(box, 1, 1, 1, 0.4, 0.4, 0.4)] builds it, with a cell list
    since the box is more than three times as wide as the grid. *)
Definition example_fine_pmf : PMFXYZ.t :=
  {| PMFXYZ.m_box := mk_box (B32 10 0) (B32 10 0) (B32 10 0) false;
     PMFXYZ.m_max_x := fone; PMFXYZ.m_max_y := fone; PMFXYZ.m_max_z := fone;
     PMFXYZ.m_dx := B32 13421773 (-25); PMFXYZ.m_dy := B32 13421773 (-25);
     PMFXYZ.m_dz := B32 13421773 (-25);
     PMFXYZ.m_nbins_x := 4; PMFXYZ.m_nbins_y := 4; PMFXYZ.m_nbins_z := 4;
     PMFXYZ.m_x_array := PMFXYZ.bin_centres 4 fone (B32 13421773 (-25));
     PMFXYZ.m_y_array := PMFXYZ.bin_centres 4 fone (B32 13421773 (-25));
     PMFXYZ.m_z_array := PMFXYZ.bin_centres 4 fone (B32 13421773 (-25));
     PMFXYZ.m_pcf_array := replicate 64 0;
     PMFXYZ.m_lc :=
       Some (LinkCell_new (mk_box (B32 10 0) (B32 10 0) (B32 10 0) false)
               (fsqrt (fadd (fadd (fmul fone fone) (fmul fone fone))
                         (fmul fone fone)))) |}.

(* ================================================================= *)
(** * Facts *)

Lemma for_loop_0 {St : Type} lo (body : nat -> St -> St) s :
  for_loop lo 0 body s = s.
Proof. reflexivity. Qed.

Lemma for_loop_snoc {St : Type} lo n (body : nat -> St -> St) s :
  for_loop lo (S n) body s = body (lo + n)%nat (for_loop lo n body s).
Proof.
  unfold for_loop. rewrite seq_S, fold_left_app. reflexivity.
Qed.

Lemma for_loop_ext {St : Type} lo n (f g : nat -> St -> St) s :
  (forall i s, (lo <= i < lo + n)%nat -> f i s = g i s) ->
  for_loop lo n f s = for_loop lo n g s.
Proof.
  intros Hfg. induction n as [|n IH]; [reflexivity|].
  rewrite !for_loop_snoc, IH, Hfg; [reflexivity|lia|].
  intros i s' Hi. apply Hfg. lia.
Qed.

(** An invariant carried through a loop. *)
Lemma for_loop_invariant {St : Type} (P : nat -> St -> Prop) lo n
  (body : nat -> St -> St) s :
  P 0%nat s ->
  (forall k s, (k < n)%nat -> P k s -> P (S k) (body (lo + k)%nat s)) ->
  P n (for_loop lo n body s).
Proof.
  intros H0 Hstep. induction n as [|n IH]; [exact H0|].
  rewrite for_loop_snoc. apply Hstep; [lia|]. apply IH.
  intros k s' Hk. apply Hstep. lia.
Qed.

(** ** The store *)

Lemma shift_shift p i j : shift (shift p i) j = shift p (i + j).
Proof. unfold shift. simpl. f_equal. lia. Qed.

Lemma shift_0 p : shift p 0 = p.
Proof. destruct p. unfold shift. simpl. f_equal. lia. Qed.

Lemma store_other_buf m p v b : b <> p_buf p -> store m p v b = m b.
Proof. intros Hb. unfold store. destruct (decide (b = p_buf p)); congruence. Qed.

Lemma store_same_buf m p v : store m p v (p_buf p) = <[p_off p := v]> (m (p_buf p)).
Proof. unfold store. destruct (decide (p_buf p = p_buf p)); congruence. Qed.

Lemma length_store m p v b : length (store m p v b) = length (m b).
Proof.
  unfold store. destruct (decide (b = p_buf p)); [|reflexivity].
  subst. apply length_insert.
Qed.

Lemma load_store_same m p v :
  (p_off p < length (m (p_buf p)))%nat -> load (store m p v) p = v.
Proof.
  intros Hlt. unfold load. rewrite store_same_buf.
  apply list_lookup_total_insert_eq. exact Hlt.
Qed.

Lemma load_store_other m p v q : q <> p -> load (store m p v) q = load m q.
Proof.
  intros Hne. unfold load, store.
  destruct (decide (p_buf q = p_buf p)) as [Hb|Hb]; [|reflexivity].
  rewrite Hb. apply list_lookup_total_insert_ne.
  intros Ho. apply Hne. destruct p, q; simpl in *; congruence.
Qed.

Lemma new_array_same b n m : new_array b n m b = replicate n fzero.
Proof. unfold new_array. destruct (decide (b = b)); congruence. Qed.

Lemma new_array_other b n m b' : b' <> b -> new_array b n m b' = m b'.
Proof. intros Hb. unfold new_array. destruct (decide (b' = b)); congruence. Qed.

(** ** Loops that fill a range of cells *)

Lemma outside_shift_compat a out i :
  compat a out -> outside out i (shift a i).
Proof.
  intros [->|Hb]; unfold outside, shift; simpl; [right; right; lia|left; exact Hb].
Qed.

Lemma outside_other_buf out n q : p_buf q <> p_buf out -> outside out n q.
Proof. intros Hq. left. exact Hq. Qed.

Lemma pointwise_spec n out f m :
  (p_off out + n <= length (m (p_buf out)))%nat ->
  (forall i m1, (i < n)%nat ->
     (forall q, outside out i q -> load m1 q = load m q) -> f i m1 = f i m) ->
  (forall i, (i < n)%nat -> load (pointwise n out f m) (shift out i) = f i m)
  /\ (forall q, outside out n q -> load (pointwise n out f m) q = load m q)
  /\ (forall b, length (pointwise n out f m b) = length (m b)).
Proof.
  unfold pointwise. induction n as [|n IH]; intros Hlen Hst.
  - split; [intros i Hi; lia|]. split; reflexivity.
  - destruct IH as (IH1 & IH2 & IH3); [lia|intros i m1 Hi; apply Hst; lia|].
    rewrite (for_loop_snoc 0 n (fun i m0 => store m0 (shift out i) (f i m0)) m).
    simpl.
    set (mn := for_loop 0 n (fun i m0 => store m0 (shift out i) (f i m0)) m) in *.
    assert (Hfn : f n mn = f n m) by (apply Hst; [lia|exact IH2]).
    split; [|split].
    + intros i Hi. destruct (decide (i = n)) as [->|Hne].
      * rewrite load_store_same; [exact Hfn|].
        simpl. rewrite IH3. lia.
      * rewrite load_store_other; [apply IH1; lia|].
        unfold shift. intros Heq. injection Heq. lia.
    + intros q Hq. rewrite load_store_other.
      * apply IH2. destruct Hq as [Hq|[Hq|Hq]]; [left; exact Hq|right; left; exact Hq|].
        right; right. lia.
      * intros ->. destruct Hq as [Hq|[Hq|Hq]]; simpl in Hq; [congruence|lia|lia].
    + intros b. rewrite length_store. apply IH3.
Qed.

Lemma pointwise_other_buf n out f m b :
  b <> p_buf out -> pointwise n out f m b = m b.
Proof.
  intros Hb. unfold pointwise. induction n as [|n IH]; [reflexivity|].
  rewrite (for_loop_snoc 0 n (fun i m0 => store m0 (shift out i) (f i m0)) m).
  rewrite store_other_buf; [exact IH|exact Hb].
Qed.

Lemma length_pointwise n out f m b :
  length (pointwise n out f m b) = length (m b).
Proof.
  unfold pointwise. induction n as [|n IH]; [reflexivity|].
  rewrite (for_loop_snoc 0 n (fun i m0 => store m0 (shift out i) (f i m0)) m).
  rewrite length_store. exact IH.
Qed.

Lemma read_ext m1 m2 p q :
  (forall i, (i < 81)%nat -> load m1 (shift p i) = load m2 (shift q i)) ->
  read m1 p = read m2 q.
Proof.
  intros Hl. unfold read. apply map_ext_in. intros i Hi.
  apply in_seq in Hi. apply Hl. lia.
Qed.

Lemma read_same_buf m1 m2 p : m1 (p_buf p) = m2 (p_buf p) -> read m1 p = read m2 p.
Proof.
  intros Hb. apply read_ext. intros i _. unfold load. simpl. rewrite Hb. reflexivity.
Qed.

Lemma read_pointwise out f m :
  (p_off out + 81 <= length (m (p_buf out)))%nat ->
  (forall i m1, (i < 81)%nat ->
     (forall q, outside out i q -> load m1 q = load m q) -> f i m1 = f i m) ->
  read (pointwise 81 out f m) out = map (fun i => f i m) (seq 0 81).
Proof.
  intros Hlen Hst. destruct (pointwise_spec 81 out f m Hlen Hst) as (H1 & _ & _).
  unfold read. apply map_ext_in. intros i Hi. apply in_seq in Hi.
  apply H1. lia.
Qed.

Lemma zip_with_map_seq {A B C D : Type} (f : A -> B -> C) (g : D -> A)
  (h : D -> B) (l : list D) :
  zip_with f (map g l) (map h l) = map (fun x => f (g x) (h x)) l.
Proof. induction l as [|x l IH]; simpl; [reflexivity|]. rewrite IH. reflexivity. Qed.

(** ** The tensor primitives as such loops *)

Lemma tensorProduct_pointwise tensor vector m :
  tensorProduct tensor vector m
  = pointwise 81 tensor
      (fun c _ =>
         T4.outer4_entry vector (c / 27) (c / 9 mod 3) (c / 3 mod 3) (c mod 3))
      m.
Proof.
  unfold tensorProduct, pointwise.
  cbv -[store shift fmul]. exact eq_refl.
Qed.

Lemma tensorAdd_pointwise out a b m :
  tensorAdd out a b m
  = pointwise 81 out
      (fun i m => fadd (load m (shift a i)) (load m (shift b i))) m.
Proof. unfold tensorAdd, pointwise. exact eq_refl. Qed.

Lemma tensorSub_pointwise out a b m :
  tensorSub out a b m
  = pointwise 81 out
      (fun i m => fsub (load m (shift a i)) (load m (shift b i))) m.
Proof. unfold tensorSub, pointwise. exact eq_refl. Qed.

Lemma tensorMult_pointwise tensor a m :
  tensorMult tensor a m
  = pointwise 81 tensor (fun i m => fmul (load m (shift tensor i)) a) m.
Proof. unfold tensorMult, pointwise. exact eq_refl. Qed.

Lemma memset_zero_pointwise p n m :
  memset_zero p n m = pointwise n p (fun _ _ => fzero) m.
Proof. unfold memset_zero, pointwise. exact eq_refl. Qed.

Lemma memcpy_pointwise dst src n m :
  memcpy dst src n m = pointwise n dst (fun i m => load m (shift src i)) m.
Proof. unfold memcpy, pointwise. exact eq_refl. Qed.

(** What each primitive leaves in its output, what it leaves alone, and
    the sizes of the buffers. *)

Lemma read_tensorProduct tensor vector m :
  (p_off tensor + 81 <= length (m (p_buf tensor)))%nat ->
  read (tensorProduct tensor vector m) tensor = T4.outer4 vector.
Proof.
  intros Hlen. rewrite tensorProduct_pointwise.
  rewrite read_pointwise; [reflexivity|exact Hlen|].
  intros i m1 _ _. reflexivity.
Qed.

Lemma read_tensorAdd out a b m :
  (p_off out + 81 <= length (m (p_buf out)))%nat ->
  compat a out -> compat b out ->
  read (tensorAdd out a b m) out = T4.add (read m a) (read m b).
Proof.
  intros Hlen Ha Hb. rewrite tensorAdd_pointwise.
  rewrite read_pointwise; [|exact Hlen|].
  - unfold T4.add, read. rewrite zip_with_map_seq. reflexivity.
  - intros i m1 _ Hag.
    rewrite !Hag by (apply outside_shift_compat; assumption). reflexivity.
Qed.

Lemma read_tensorSub out a b m :
  (p_off out + 81 <= length (m (p_buf out)))%nat ->
  compat a out -> compat b out ->
  read (tensorSub out a b m) out = T4.sub (read m a) (read m b).
Proof.
  intros Hlen Ha Hb. rewrite tensorSub_pointwise.
  rewrite read_pointwise; [|exact Hlen|].
  - unfold T4.sub, read. rewrite zip_with_map_seq. reflexivity.
  - intros i m1 _ Hag.
    rewrite !Hag by (apply outside_shift_compat; assumption). reflexivity.
Qed.

Lemma read_tensorMult tensor a m :
  (p_off tensor + 81 <= length (m (p_buf tensor)))%nat ->
  read (tensorMult tensor a m) tensor = T4.mul_scalar (read m tensor) a.
Proof.
  intros Hlen. rewrite tensorMult_pointwise.
  rewrite read_pointwise; [|exact Hlen|].
  - unfold T4.mul_scalar, read. rewrite map_map. reflexivity.
  - intros i m1 _ Hag.
    rewrite Hag by (apply outside_shift_compat; left; reflexivity). reflexivity.
Qed.

Lemma read_memset_zero p m :
  (p_off p + 81 <= length (m (p_buf p)))%nat ->
  read (memset_zero p 81 m) p = T4.zero.
Proof.
  intros Hlen. rewrite memset_zero_pointwise.
  rewrite read_pointwise; [|exact Hlen|intros; reflexivity].
  exact eq_refl.
Qed.

Lemma read_memcpy dst src m :
  (p_off dst + 81 <= length (m (p_buf dst)))%nat ->
  compat src dst ->
  read (memcpy dst src 81 m) dst = read m src.
Proof.
  intros Hlen Hs. rewrite memcpy_pointwise.
  rewrite read_pointwise; [reflexivity|exact Hlen|].
  intros i m1 _ Hag. apply Hag. apply outside_shift_compat. exact Hs.
Qed.

Lemma tensorProduct_other_buf tensor vector m b :
  b <> p_buf tensor -> tensorProduct tensor vector m b = m b.
Proof. rewrite tensorProduct_pointwise. apply pointwise_other_buf. Qed.

Lemma tensorAdd_other_buf out a b m b' :
  b' <> p_buf out -> tensorAdd out a b m b' = m b'.
Proof. rewrite tensorAdd_pointwise. apply pointwise_other_buf. Qed.

Lemma tensorSub_other_buf out a b m b' :
  b' <> p_buf out -> tensorSub out a b m b' = m b'.
Proof. rewrite tensorSub_pointwise. apply pointwise_other_buf. Qed.

Lemma tensorMult_other_buf tensor a m b :
  b <> p_buf tensor -> tensorMult tensor a m b = m b.
Proof. rewrite tensorMult_pointwise. apply pointwise_other_buf. Qed.

Lemma memset_zero_other_buf p n m b :
  b <> p_buf p -> memset_zero p n m b = m b.
Proof. rewrite memset_zero_pointwise. apply pointwise_other_buf. Qed.

Lemma memcpy_other_buf dst src n m b :
  b <> p_buf dst -> memcpy dst src n m b = m b.
Proof. rewrite memcpy_pointwise. apply pointwise_other_buf. Qed.

Lemma length_tensorProduct tensor vector m b :
  length (tensorProduct tensor vector m b) = length (m b).
Proof. rewrite tensorProduct_pointwise. apply length_pointwise. Qed.

Lemma length_tensorAdd out a b m b' :
  length (tensorAdd out a b m b') = length (m b').
Proof. rewrite tensorAdd_pointwise. apply length_pointwise. Qed.

Lemma length_tensorSub out a b m b' :
  length (tensorSub out a b m b') = length (m b').
Proof. rewrite tensorSub_pointwise. apply length_pointwise. Qed.

Lemma length_tensorMult tensor a m b :
  length (tensorMult tensor a m b) = length (m b).
Proof. rewrite tensorMult_pointwise. apply length_pointwise. Qed.

Lemma length_memset_zero p n m b :
  length (memset_zero p n m b) = length (m b).
Proof. rewrite memset_zero_pointwise. apply length_pointwise. Qed.

Lemma length_memcpy dst src n m b :
  length (memcpy dst src n m b) = length (m b).
Proof. rewrite memcpy_pointwise. apply length_pointwise. Qed.

Lemma length_new_array b n m b' :
  length (new_array b n m b') = if decide (b' = b) then n else length (m b').
Proof.
  unfold new_array. destruct (decide (b' = b)); [apply length_replicate|reflexivity].
Qed.

Lemma tensorDiv_pointwise tensor a m :
  tensorDiv tensor a m
  = pointwise 81 tensor
      (fun i m =>
         fmul (load m (shift tensor i)) (to_float (ddiv d_1_0 (to_double a))))
      m.
Proof. unfold tensorDiv, pointwise. exact eq_refl. Qed.

Lemma tensorDot_read a b m : tensorDot a b m = T4.dot (read m a) (read m b).
Proof.
  unfold tensorDot, T4.dot, read, for_loop.
  rewrite (zip_with_map_seq pair).
  generalize (seq 0 81) fzero. intros l. induction l as [|i l IH]; intros s.
  - reflexivity.
  - simpl. apply IH.
Qed.

Lemma for_loop_3 {St : Type} (body : nat -> St -> St) s :
  for_loop 0 3 body s = body 2%nat (body 1%nat (body 0%nat s)).
Proof. unfold for_loop. exact eq_refl. Qed.

Lemma to_float_2 : to_float d_2_0 = ftwo.
Proof. vm_compute. reflexivity. Qed.

Lemma in_bounds_base b (m : mem) :
  length (m b) = 81%nat ->
  (p_off (base b) + 81 <= length (m (p_buf (base b))))%nat.
Proof. intros Hlen. unfold base. cbn [p_off p_buf]. rewrite Hlen. lia. Qed.

Section CubaticTensorFacts.

Context `{VectorMath}.

(** The three rotated basis vectors [calcCubaticTensor] works with. *)
Lemma rotated_basis orientation :
  for_loop 0 3 (fun i sv => <[i := rotate orientation (sv !!! i)]> sv) basis
  = [rotate orientation (basis !!! 0%nat); rotate orientation (basis !!! 1%nat);
     rotate orientation (basis !!! 2%nat)].
Proof. rewrite for_loop_3. exact eq_refl. Qed.

(** One pass of the loop of [calcCubaticTensor]: the outer product of
    [u] is added to the accumulator. *)
Lemma accumulate_outer u m :
  length (m calculated_tensor) = 81%nat ->
  let m' :=
    tensorAdd (base calculated_tensor) (base calculated_tensor) (base l_tensor)
      (tensorProduct (base l_tensor) u (new_array l_tensor 81 m)) in
  read m' (base calculated_tensor)
  = T4.add (read m (base calculated_tensor)) (T4.outer4 u)
  /\ length (m' calculated_tensor) = 81%nat
  /\ forall b, b <> calculated_tensor -> b <> l_tensor -> m' b = m b.
Proof.
  intros Hlen. cbv zeta.
  set (m1 := new_array l_tensor 81 m).
  set (m2 := tensorProduct (base l_tensor) u m1).
  assert (Hl1 : length (m1 l_tensor) = 81%nat).
  { unfold m1. rewrite new_array_same. apply length_replicate. }
  assert (Hc1 : m1 calculated_tensor = m calculated_tensor).
  { unfold m1. apply new_array_other. discriminate. }
  assert (Hc2 : m2 calculated_tensor = m calculated_tensor).
  { unfold m2. rewrite tensorProduct_other_buf by discriminate. exact Hc1. }
  split; [|split].
  - rewrite read_tensorAdd.
    + assert (E1 : read m2 (base calculated_tensor)
                   = read m (base calculated_tensor))
        by (apply read_same_buf; exact Hc2).
      assert (E2 : read m2 (base l_tensor) = T4.outer4 u).
      { unfold m2. apply read_tensorProduct, in_bounds_base. exact Hl1. }
      rewrite E1, E2. reflexivity.
    + apply in_bounds_base. rewrite Hc2. exact Hlen.
    + left. reflexivity.
    + right. cbn [base p_buf]. discriminate.
  - rewrite length_tensorAdd, Hc2. exact Hlen.
  - intros b Hb1 Hb2. rewrite tensorAdd_other_buf by exact Hb1.
    unfold m2. rewrite tensorProduct_other_buf by exact Hb2.
    unfold m1. apply new_array_other. exact Hb2.
Qed.

Lemma calcCubaticTensor_spec cubatic_tensor orientation m :
  p_buf cubatic_tensor <> calculated_tensor ->
  p_buf cubatic_tensor <> l_tensor ->
  (p_off cubatic_tensor + 81 <= length (m (p_buf cubatic_tensor)))%nat ->
  let m' := calcCubaticTensor cubatic_tensor orientation m in
  read m' cubatic_tensor
  = cubatic_tensor_of orientation (read m (base m_gen_r4_tensor))
  /\ (forall b, b <> calculated_tensor -> b <> l_tensor ->
        b <> p_buf cubatic_tensor -> m' b = m b)
  /\ (forall b, b <> calculated_tensor -> b <> l_tensor ->
        length (m' b) = length (m b)).
Proof.
  intros Hc Hl Hlen. cbv zeta. unfold calcCubaticTensor.
  rewrite rotated_basis, to_float_2.
  rewrite (for_loop_3 (St:=mem)).
  change ([rotate orientation (basis !!! 0%nat);
           rotate orientation (basis !!! 1%nat);
           rotate orientation (basis !!! 2%nat)] !!! 0%nat)
    with (rotate orientation (basis !!! 0%nat)).
  change ([rotate orientation (basis !!! 0%nat);
           rotate orientation (basis !!! 1%nat);
           rotate orientation (basis !!! 2%nat)] !!! 1%nat)
    with (rotate orientation (basis !!! 1%nat)).
  change ([rotate orientation (basis !!! 0%nat);
           rotate orientation (basis !!! 1%nat);
           rotate orientation (basis !!! 2%nat)] !!! 2%nat)
    with (rotate orientation (basis !!! 2%nat)).
  set (u0 := rotate orientation (basis !!! 0%nat)).
  set (u1 := rotate orientation (basis !!! 1%nat)).
  set (u2 := rotate orientation (basis !!! 2%nat)).
  set (m0 := new_array calculated_tensor 81 m).
  set (m1 := memset_zero (base calculated_tensor) 81 m0).
  assert (Hl0 : length (m0 calculated_tensor) = 81%nat).
  { unfold m0. rewrite new_array_same. apply length_replicate. }
  assert (Hl1 : length (m1 calculated_tensor) = 81%nat).
  { unfold m1. rewrite length_memset_zero. exact Hl0. }
  assert (Hr1 : read m1 (base calculated_tensor) = T4.zero).
  { unfold m1. apply read_memset_zero, in_bounds_base. exact Hl0. }
  assert (Hf1 : forall b, b <> calculated_tensor -> m1 b = m b).
  { intros b Hb. unfold m1. rewrite memset_zero_other_buf by exact Hb.
    unfold m0. apply new_array_other. exact Hb. }
  destruct (accumulate_outer u0 m1 Hl1) as (Hr2 & Hl2 & Hf2).
  set (m2 := tensorAdd _ _ _ (tensorProduct _ u0 _)) in *.
  destruct (accumulate_outer u1 m2 Hl2) as (Hr3 & Hl3 & Hf3).
  set (m3 := tensorAdd _ _ _ (tensorProduct _ u1 _)) in *.
  destruct (accumulate_outer u2 m3 Hl3) as (Hr4 & Hl4 & Hf4).
  set (m4 := tensorAdd _ _ _ (tensorProduct _ u2 _)) in *.
  set (m5 := tensorMult (base calculated_tensor) ftwo m4).
  set (m6 := tensorSub (base calculated_tensor) (base calculated_tensor)
               (base m_gen_r4_tensor) m5).
  assert (Hl5 : length (m5 calculated_tensor) = 81%nat).
  { unfold m5. rewrite length_tensorMult. exact Hl4. }
  assert (Hr5 : read m5 (base calculated_tensor)
                = T4.mul_scalar (read m4 (base calculated_tensor)) ftwo).
  { unfold m5. apply read_tensorMult, in_bounds_base. exact Hl4. }
  assert (Hf5 : forall b, b <> calculated_tensor -> b <> l_tensor -> m5 b = m b).
  { intros b Hb1 Hb2. unfold m5. rewrite tensorMult_other_buf by exact Hb1.
    rewrite Hf4, Hf3, Hf2 by assumption. apply Hf1. exact Hb1. }
  assert (Hr6 : read m6 (base calculated_tensor)
                = T4.sub (read m5 (base calculated_tensor))
                    (read m (base m_gen_r4_tensor))).
  { unfold m6. rewrite read_tensorSub.
    - assert (E : read m5 (base m_gen_r4_tensor)
                  = read m (base m_gen_r4_tensor))
        by (apply read_same_buf; apply Hf5; discriminate).
      rewrite E. reflexivity.
    - apply in_bounds_base. exact Hl5.
    - left. reflexivity.
    - right. cbn [base p_buf]. discriminate. }
  assert (Hf6 : forall b, b <> calculated_tensor -> b <> l_tensor -> m6 b = m b).
  { intros b Hb1 Hb2. unfold m6. rewrite tensorSub_other_buf by exact Hb1.
    apply Hf5; assumption. }
  split; [|split].
  - rewrite read_memcpy.
    + rewrite Hr6, Hr5, Hr4, Hr3, Hr2, Hr1. reflexivity.
    + rewrite Hf6 by assumption. exact Hlen.
    + right. cbn [base p_buf]. auto.
  - intros b Hb1 Hb2 Hb3. rewrite memcpy_other_buf by exact Hb3.
    apply Hf6; assumption.
  - intros b Hb1 Hb2. rewrite length_memcpy. rewrite Hf6 by assumption.
    reflexivity.
Qed.

(** [calcCubaticTensor] writes its two local arrays and its output, and
    nothing else; this needs no room in the output. *)
Lemma calcCubaticTensor_spec_frame cubatic_tensor orientation m b :
  b <> calculated_tensor -> b <> l_tensor -> b <> p_buf cubatic_tensor ->
  calcCubaticTensor cubatic_tensor orientation m b = m b.
Proof.
  intros Hb1 Hb2 Hb3. unfold calcCubaticTensor.
  rewrite (for_loop_3 (St:=mem)).
  rewrite memcpy_other_buf, tensorSub_other_buf, tensorMult_other_buf
    by assumption.
  repeat (rewrite tensorAdd_other_buf, tensorProduct_other_buf,
            new_array_other by assumption).
  rewrite memset_zero_other_buf, new_array_other by assumption.
  reflexivity.
Qed.

End CubaticTensorFacts.

Lemma calcCubaticOrderParameter_spec cubatic_tensor m :
  p_buf cubatic_tensor <> diff ->
  fst (calcCubaticOrderParameter cubatic_tensor m)
  = T4.score (read m (base m_global_tensor)) (read m cubatic_tensor)
  /\ forall b, b <> diff ->
       snd (calcCubaticOrderParameter cubatic_tensor m) b = m b.
Proof.
  intros Hd. unfold calcCubaticOrderParameter. cbn [fst snd].
  set (m0 := new_array diff 81 m).
  set (m1 := memset_zero (base diff) 81 m0).
  set (m2 := tensorSub (base diff) (base m_global_tensor) cubatic_tensor m1).
  assert (Hl0 : length (m0 diff) = 81%nat).
  { unfold m0. rewrite new_array_same. apply length_replicate. }
  assert (Hl1 : length (m1 diff) = 81%nat).
  { unfold m1. rewrite length_memset_zero. exact Hl0. }
  assert (Hf1 : forall b, b <> diff -> m1 b = m b).
  { intros b Hb. unfold m1. rewrite memset_zero_other_buf by exact Hb.
    unfold m0. apply new_array_other. exact Hb. }
  assert (Hf2 : forall b, b <> diff -> m2 b = m b).
  { intros b Hb. unfold m2. rewrite tensorSub_other_buf by exact Hb.
    apply Hf1. exact Hb. }
  assert (Hr2 : read m2 (base diff)
                = T4.sub (read m (base m_global_tensor)) (read m cubatic_tensor)).
  { unfold m2. rewrite read_tensorSub.
    - assert (E1 : read m1 (base m_global_tensor) = read m (base m_global_tensor))
        by (apply read_same_buf; apply Hf1; discriminate).
      assert (E2 : read m1 cubatic_tensor = read m cubatic_tensor)
        by (apply read_same_buf; apply Hf1; exact Hd).
      rewrite E1, E2. reflexivity.
    - apply in_bounds_base. exact Hl1.
    - right. cbn [base p_buf]. discriminate.
    - right. cbn [base p_buf]. exact Hd. }
  split; [|exact Hf2].
  unfold T4.score. rewrite !tensorDot_read, Hr2.
  assert (E : read m2 cubatic_tensor = read m cubatic_tensor)
    by (apply read_same_buf; apply Hf2; exact Hd).
  rewrite E. reflexivity.
Qed.

(** ** Comparisons *)

Lemma SFcompare_refl_finite s m e :
  SFcompare (S754_finite s m e) (S754_finite s m e) = Some Eq.
Proof.
  simpl. rewrite Z.compare_refl, Pos.compare_cont_refl. destruct s; reflexivity.
Qed.

Lemma fne_self a : fne a a = is_nan a.
Proof.
  unfold fne, SFeqb.
  destruct a as [s|s| |s m e]; try (destruct s; reflexivity); [reflexivity|].
  rewrite SFcompare_refl_finite. reflexivity.
Qed.

Lemma fgt_nan_r a : fgt a nan = false.
Proof. unfold fgt, flt, SFltb, nan. simpl. reflexivity. Qed.

Lemma fgt_nan_l a : fgt nan a = false.
Proof. unfold fgt, flt, SFltb, nan. destruct a; reflexivity. Qed.

Lemma fge_nan_l a : fge nan a = false.
Proof. unfold fge, fle, SFleb, nan. destruct a; reflexivity. Qed.

Lemma is_nan_true a : is_nan a = true -> a = nan.
Proof. destruct a; simpl; intros Hn; try discriminate Hn. reflexivity. Qed.

Section AnnealFacts.

Context `{VectorMath} `{Libm} `{RandomEngine}.

Lemma evaluate_proposal orientation m :
  length (m new_cubatic_tensor) = 81%nat ->
  let r := calcCubaticOrderParameter (base new_cubatic_tensor)
             (calcCubaticTensor (base new_cubatic_tensor) orientation m) in
  fst r = T4.score (read m (base m_global_tensor))
            (cubatic_tensor_of orientation (read m (base m_gen_r4_tensor)))
  /\ read (snd r) (base new_cubatic_tensor)
     = cubatic_tensor_of orientation (read m (base m_gen_r4_tensor))
  /\ (forall b, retained_buf b -> snd r b = m b)
  /\ length (snd r new_cubatic_tensor) = 81%nat.
Proof.
  intros Hlen. cbv zeta.
  destruct (calcCubaticTensor_spec (base new_cubatic_tensor) orientation m)
    as (Hr & Hf & Hl).
  { cbn [base p_buf]. discriminate. }
  { cbn [base p_buf]. discriminate. }
  { apply in_bounds_base. exact Hlen. }
  set (m1 := calcCubaticTensor (base new_cubatic_tensor) orientation m) in *.
  destruct (calcCubaticOrderParameter_spec (base new_cubatic_tensor) m1)
    as (Hs & Hg).
  { cbn [base p_buf]. discriminate. }
  assert (Hnew : snd (calcCubaticOrderParameter (base new_cubatic_tensor) m1)
                   new_cubatic_tensor = m1 new_cubatic_tensor)
    by (apply Hg; discriminate).
  split; [|split; [|split]].
  - rewrite Hs, Hr.
    assert (E : read m1 (base m_global_tensor) = read m (base m_global_tensor)).
    { apply read_same_buf. apply Hf; cbn [base p_buf]; discriminate. }
    rewrite E. reflexivity.
  - rewrite <- Hr. apply read_same_buf. exact Hnew.
  - intros b (Hb1 & Hb2 & Hb3 & Hb4). rewrite Hg by exact Hb4.
    apply Hf; assumption.
  - rewrite Hnew, Hl by discriminate. exact Hlen.
Qed.

(** The ways through the body of the loop. *)
Lemma anneal_iteration_cases l :
  length (heap (self l) new_cubatic_tensor) = 81%nat ->
  let o := self l in
  let s' := candidate_score l in
  exists m g,
    (forall b, retained_buf b -> m b = heap o b)
    /\ read m (base new_cubatic_tensor)
       = cubatic_tensor_of (fst (proposal l))
           (read (heap o) (base m_gen_r4_tensor))
    /\ length (m new_cubatic_tensor) = 81%nat
    /\ ((is_nan s' = true
         /\ anneal_iteration l
            = Thrown "received negative value"
                {| t_current := t_current l;
                   loop_count := u32 (loop_count l + 1);
                   self := keep o m g |})
        \/ (is_nan s' = false
            /\ fgt s' (m_cubatic_order_parameter o) = true
            /\ anneal_iteration l
               = Accepted
                   {| t_current := fmul (t_current l) (m_scale o);
                      loop_count := u32 (loop_count l + 1);
                      self := commit o m g s' (fst (proposal l)) |})
        \/ (is_nan s' = false
            /\ fgt s' (m_cubatic_order_parameter o) = false
            /\ exists test,
                 m_phi_dist (snd (proposal l)) = (test, g)
                 /\ ((fge (boltzmann l s') test = true
                      /\ anneal_iteration l
                         = Accepted
                             {| t_current := fmul (t_current l) (m_scale o);
                                loop_count := u32 (loop_count l + 1);
                                self := commit o m g s' (fst (proposal l)) |})
                     \/ (fge (boltzmann l s') test = false
                         /\ anneal_iteration l
                            = Rejected
                                {| t_current := t_current l;
                                   loop_count := u32 (loop_count l + 1);
                                   self := keep o m g |})))).
Proof.
  intros Hlen. cbv zeta.
  unfold anneal_iteration, candidate_score, boltzmann, proposal.
  destruct (random_axis (m_gen (self l))) as [axis g1].
  destruct (m_angle_dist g1) as [a g2]. cbn [fst snd].
  set (orientation :=
         quat_mul (fromAxisAngle axis (to_float (dmul d_0_1 (to_double a))))
           (m_cubatic_orientation (self l))).
  destruct (evaluate_proposal orientation (heap (self l)) Hlen)
    as (Hs & Hr & Hf & Hl).
  destruct (calcCubaticOrderParameter (base new_cubatic_tensor)
              (calcCubaticTensor (base new_cubatic_tensor) orientation
                 (heap (self l)))) as [s' m2].
  cbn [fst snd] in Hs, Hr, Hf, Hl. rewrite <- Hs.
  rewrite fne_self.
  destruct (is_nan s') eqn:Hnan.
  { exists m2, g2. repeat (split; [assumption|]). left. split; reflexivity. }
  destruct (fgt s' (m_cubatic_order_parameter (self l))) eqn:Hgt.
  { exists m2, g2. repeat (split; [assumption|]). right. left.
    repeat split. }
  destruct (m_phi_dist g2) as [test g3] eqn:Htest.
  exists m2, g3. repeat (split; [assumption|]). right. right.
  split; [reflexivity|]. split; [reflexivity|].
  exists test. split; [reflexivity|].
  destruct (fge _ test) eqn:Hb; [left|right]; split; reflexivity.
Qed.

End AnnealFacts.

(** ** Rows of the particle-tensor array *)

Lemma row_off p n i : p_off (row p n i) = (p_off p + i * 81)%nat.
Proof. unfold row, shift, index2. cbn [p_off m_h]. lia. Qed.

Lemma row_buf p n i : p_buf (row p n i) = p_buf p.
Proof. reflexivity. Qed.

Lemma shift_row p n i j :
  shift p (index2 (mk_Index2D n 81) i j) = shift (row p n i) j.
Proof. unfold row, shift, index2. cbn [p_off p_buf m_h]. f_equal. lia. Qed.

Lemma outside_other_row p n i i' c k :
  i' <> i -> (c < 81)%nat -> (k <= 81)%nat ->
  outside (row p n i) k (shift (row p n i') c).
Proof.
  intros Hne Hc Hk. unfold outside. right.
  cbn [shift p_off]. rewrite !row_off. nia.
Qed.

Lemma load_pointwise_outside n out f m q :
  outside out n q -> load (pointwise n out f m) q = load m q.
Proof.
  intros Hq. unfold pointwise. induction n as [|n IH]; [reflexivity|].
  rewrite (for_loop_snoc 0 n (fun i m0 => store m0 (shift out i) (f i m0)) m).
  cbn [Nat.add]. rewrite load_store_other.
  - apply IH. destruct Hq as [Hq|[Hq|Hq]];
      [left; exact Hq|right; left; exact Hq|right; right; lia].
  - intros ->. destruct Hq as [Hq|[Hq|Hq]]; cbn [shift p_buf p_off] in Hq;
      [congruence|lia|lia].
Qed.

Lemma read_pointwise_outside n out f m q :
  (forall c, (c < 81)%nat -> outside out n (shift q c)) ->
  read (pointwise n out f m) q = read m q.
Proof.
  intros Hq. apply read_ext. intros c Hc.
  apply load_pointwise_outside, Hq, Hc.
Qed.

Lemma read_tensorSub_outside out a b m q :
  (forall c, (c < 81)%nat -> outside out 81 (shift q c)) ->
  read (tensorSub out a b m) q = read m q.
Proof. rewrite tensorSub_pointwise. apply read_pointwise_outside. Qed.

Lemma read_other_buf_outside out n q c : 
  p_buf q <> p_buf out -> outside out n (shift q c).
Proof. intros Hq. left. exact Hq. Qed.

Lemma copy_row particle_tensor n i m :
  for_loop 0 81 (fun j m =>
    store m (shift particle_tensor (index2 (mk_Index2D n 81) i j))
      (load m (shift (base l_mbar) j))) m
  = memcpy (row particle_tensor n i) (base l_mbar) 81 m.
Proof.
  unfold memcpy. apply for_loop_ext. intros j s _.
  rewrite shift_row. reflexivity.
Qed.

Lemma ComputeGlobalTensor_pointwise m_bar particle_tensor n m :
  ComputeGlobalTensor m_bar particle_tensor n (mk_range 0 81) m
  = pointwise 81 m_bar
      (fun i m =>
         fmul
           (for_loop 0 n (fun j tensor_value =>
              fadd tensor_value (load m (shift (row particle_tensor n j) i)))
              fzero)
           (n_inv n)) m.
Proof.
  unfold ComputeGlobalTensor, pointwise, n_inv. cbn [r_begin r_end Nat.sub].
  apply for_loop_ext. intros i s _. f_equal. f_equal.
  apply for_loop_ext. intros j tv _. rewrite shift_row. reflexivity.
Qed.

Lemma read_lookup m p k : (k < 81)%nat -> read m p !!! k = load m (shift p k).
Proof.
  intros Hk. unfold read.
  rewrite list_lookup_total_alt, list_lookup_fmap, lookup_seq_lt by exact Hk.
  reflexivity.
Qed.

Lemma length_read m p : length (read m p) = 81%nat.
Proof. unfold read. rewrite length_map, length_seq. reflexivity. Qed.

Lemma column_loop_ext (rows rows' : nat -> list float) n k :
  (forall j, (j < n)%nat -> rows j = rows' j) ->
  for_loop 0 n (fun j tensor_value => fadd tensor_value (rows j !!! k)) fzero
  = for_loop 0 n (fun j tensor_value => fadd tensor_value (rows' j !!! k)) fzero.
Proof.
  intros Hr. apply for_loop_ext. intros j tv Hj. rewrite Hr by lia. reflexivity.
Qed.

(** From here on the primitives are used through the lemmas above. *)
Opaque tensorProduct tensorAdd tensorSub tensorMult memset_zero memcpy pointwise.

Section ParticleTensorFacts.

Context `{VectorMath}.

(** One pass of the inner loop of [ComputeParticleTensor]. *)
Lemma accumulate_particle u m :
  length (m l_mbar) = 81%nat -> length (m r4_tensor) = 81%nat ->
  let m' :=
    tensorAdd (base l_mbar) (base r4_tensor) (base l_mbar)
      (tensorProduct (base r4_tensor) u
         (memset_zero (base r4_tensor) 81 m)) in
  read m' (base l_mbar) = T4.add (T4.outer4 u) (read m (base l_mbar))
  /\ (forall b, length (m' b) = length (m b))
  /\ forall b, b <> l_mbar -> b <> r4_tensor -> m' b = m b.
Proof.
  intros Hl Hr. cbv zeta.
  set (m1 := memset_zero (base r4_tensor) 81 m).
  set (m2 := tensorProduct (base r4_tensor) u m1).
  assert (Hr1 : length (m1 r4_tensor) = 81%nat)
    by (unfold m1; rewrite length_memset_zero; exact Hr).
  assert (Hl2 : m2 l_mbar = m l_mbar).
  { unfold m2. rewrite tensorProduct_other_buf by discriminate.
    unfold m1. apply memset_zero_other_buf. discriminate. }
  split; [|split].
  - rewrite read_tensorAdd.
    + assert (E1 : read m2 (base r4_tensor) = T4.outer4 u).
      { unfold m2. apply read_tensorProduct, in_bounds_base. exact Hr1. }
      assert (E2 : read m2 (base l_mbar) = read m (base l_mbar))
        by (apply read_same_buf; exact Hl2).
      rewrite E1, E2. reflexivity.
    + apply in_bounds_base. rewrite Hl2. exact Hl.
    + right. cbn [base p_buf]. discriminate.
    + left. reflexivity.
  - intros b. unfold m2, m1.
    rewrite length_tensorAdd, length_tensorProduct, length_memset_zero.
    reflexivity.
  - intros b Hb1 Hb2. rewrite tensorAdd_other_buf by exact Hb1.
    unfold m2. rewrite tensorProduct_other_buf by exact Hb2.
    unfold m1. apply memset_zero_other_buf. exact Hb2.
Qed.

Lemma ComputeParticleTensor_passes particle_tensor orientations n r m :
  ComputeParticleTensor particle_tensor orientations n r m
  = for_loop (r_begin r) (r_end r - r_begin r)
      (particle_pass particle_tensor orientations n)
      (new_array l_mbar 81 (new_array r4_tensor 81 m)).
Proof. unfold ComputeParticleTensor, particle_pass. exact eq_refl. Qed.

Lemma particle_pass_spec particle_tensor orientations n i m :
  p_buf particle_tensor <> l_mbar -> p_buf particle_tensor <> r4_tensor ->
  length (m l_mbar) = 81%nat -> length (m r4_tensor) = 81%nat ->
  (p_off particle_tensor + (i + 1) * 81
   <= length (m (p_buf particle_tensor)))%nat ->
  let m' := particle_pass particle_tensor orientations n i m in
  read m' (row particle_tensor n i) = particle_row (orientations !!! i)
  /\ (forall i', i' <> i ->
        read m' (row particle_tensor n i') = read m (row particle_tensor n i'))
  /\ (forall b, length (m' b) = length (m b))
  /\ forall b, b <> l_mbar -> b <> r4_tensor -> b <> p_buf particle_tensor ->
       m' b = m b.
Proof.
  intros Hp1 Hp2 Hl Hr Hlen. cbv zeta. unfold particle_pass.
  rewrite copy_row, to_float_2, (for_loop_3 (St:=mem)).
  set (q := orientations !!! i).
  set (m0 := memset_zero (base l_mbar) 81 m).
  assert (Hl0 : length (m0 l_mbar) = 81%nat)
    by (unfold m0; rewrite length_memset_zero; exact Hl).
  assert (Hr0 : length (m0 r4_tensor) = 81%nat)
    by (unfold m0; rewrite length_memset_zero; exact Hr).
  assert (Hz0 : read m0 (base l_mbar) = T4.zero)
    by (unfold m0; apply read_memset_zero, in_bounds_base; exact Hl).
  assert (Hf0 : forall b, b <> l_mbar -> m0 b = m b)
    by (intros b Hb; unfold m0; apply memset_zero_other_buf; exact Hb).
  assert (HL0 : forall b, length (m0 b) = length (m b))
    by (intros b; unfold m0; apply length_memset_zero).
  destruct (accumulate_particle (rotate q (basis !!! 0%nat)) m0 Hl0 Hr0)
    as (Hz1 & HL1 & Hf1).
  set (m1 := tensorAdd _ _ _ (tensorProduct _ (rotate q (basis !!! 0%nat)) _)) in *.
  assert (Hl1 : length (m1 l_mbar) = 81%nat) by (rewrite HL1; exact Hl0).
  assert (Hr1 : length (m1 r4_tensor) = 81%nat) by (rewrite HL1; exact Hr0).
  destruct (accumulate_particle (rotate q (basis !!! 1%nat)) m1 Hl1 Hr1)
    as (Hz2 & HL2 & Hf2).
  set (m2 := tensorAdd _ _ _ (tensorProduct _ (rotate q (basis !!! 1%nat)) _)) in *.
  assert (Hl2 : length (m2 l_mbar) = 81%nat) by (rewrite HL2; exact Hl1).
  assert (Hr2 : length (m2 r4_tensor) = 81%nat) by (rewrite HL2; exact Hr1).
  destruct (accumulate_particle (rotate q (basis !!! 2%nat)) m2 Hl2 Hr2)
    as (Hz3 & HL3 & Hf3).
  set (m3 := tensorAdd _ _ _ (tensorProduct _ (rotate q (basis !!! 2%nat)) _)) in *.
  assert (Hl3 : length (m3 l_mbar) = 81%nat) by (rewrite HL3; exact Hl2).
  set (m4 := tensorMult (base l_mbar) ftwo m3).
  assert (Hz4 : read m4 (base l_mbar) = particle_row q).
  { unfold m4. rewrite read_tensorMult by (apply in_bounds_base; exact Hl3).
    rewrite Hz3, Hz2, Hz1, Hz0. reflexivity. }
  assert (HL4 : forall b, length (m4 b) = length (m b)).
  { intros b. unfold m4. rewrite length_tensorMult, HL3, HL2, HL1. apply HL0. }
  assert (Hf4 : forall b, b <> l_mbar -> b <> r4_tensor -> m4 b = m b).
  { intros b Hb1 Hb2. unfold m4. rewrite tensorMult_other_buf by exact Hb1.
    rewrite Hf3, Hf2, Hf1 by assumption. apply Hf0. exact Hb1. }
  assert (Hin : (p_off (row particle_tensor n i) + 81
                 <= length (m4 (p_buf (row particle_tensor n i))))%nat).
  { rewrite row_off, row_buf, HL4. lia. }
  split; [|split; [|split]].
  - rewrite read_memcpy; [exact Hz4|exact Hin|].
    right. rewrite row_buf. cbn [base p_buf]. auto.
  - intros i' Hi'. rewrite memcpy_pointwise.
    rewrite read_pointwise_outside.
    + apply read_same_buf. rewrite row_buf. apply Hf4; auto.
    + intros c Hc. apply outside_other_row; [exact Hi'|exact Hc|lia].
  - intros b. rewrite length_memcpy. apply HL4.
  - intros b Hb1 Hb2 Hb3. rewrite memcpy_other_buf by (rewrite row_buf; exact Hb3).
    apply Hf4; assumption.
Qed.

End ParticleTensorFacts.

Section AssembleFacts.

Context `{VectorMath}.

Lemma ComputeParticleTensor_spec particle_tensor orientations n m :
  p_buf particle_tensor <> l_mbar -> p_buf particle_tensor <> r4_tensor ->
  (p_off particle_tensor + n * 81 <= length (m (p_buf particle_tensor)))%nat ->
  let m' := ComputeParticleTensor particle_tensor orientations n
              (mk_range 0 n) m in
  (forall i, (i < n)%nat ->
     read m' (row particle_tensor n i) = particle_row (orientations !!! i))
  /\ (forall b, b <> l_mbar -> b <> r4_tensor -> length (m' b) = length (m b))
  /\ forall b, b <> l_mbar -> b <> r4_tensor -> b <> p_buf particle_tensor ->
       m' b = m b.
Proof.
  intros Hp1 Hp2 Hlen. cbv zeta. rewrite ComputeParticleTensor_passes.
  cbn [r_begin r_end]. rewrite Nat.sub_0_r.
  set (m0 := new_array l_mbar 81 (new_array r4_tensor 81 m)).
  assert (Hl0 : length (m0 l_mbar) = 81%nat).
  { unfold m0. rewrite new_array_same. apply length_replicate. }
  assert (Hr0 : length (m0 r4_tensor) = 81%nat).
  { unfold m0. rewrite new_array_other by discriminate.
    rewrite new_array_same. apply length_replicate. }
  assert (Hf0 : forall b, b <> l_mbar -> b <> r4_tensor -> m0 b = m b).
  { intros b Hb1 Hb2. unfold m0. rewrite !new_array_other by assumption.
    reflexivity. }
  pose (P := fun (k : nat) (s : mem) =>
    (forall i, (i < k)%nat ->
       read s (row particle_tensor n i) = particle_row (orientations !!! i))
    /\ (forall b, length (s b) = length (m0 b))
    /\ forall b, b <> l_mbar -> b <> r4_tensor -> b <> p_buf particle_tensor ->
         s b = m0 b).
  assert (HP : P n (for_loop 0 n
                      (particle_pass particle_tensor orientations n) m0)).
  { apply (for_loop_invariant P).
    - split; [intros i Hi; lia|]. split; reflexivity.
    - intros k s Hk (Hrows & Hls & Hfs). cbn [Nat.add].
      destruct (particle_pass_spec particle_tensor orientations n k s)
        as (Hrow & Hothers & Hl' & Hf'); try assumption.
      { rewrite Hls. exact Hl0. }
      { rewrite Hls. exact Hr0. }
      { rewrite Hls, Hf0 by assumption. nia. }
      split; [|split].
      + intros i Hi. destruct (decide (i = k)) as [->|Hne]; [exact Hrow|].
        rewrite Hothers by exact Hne. apply Hrows. lia.
      + intros b. rewrite Hl'. apply Hls.
      + intros b Hb1 Hb2 Hb3. rewrite Hf' by assumption. apply Hfs; assumption. }
  destruct HP as (Hrows & Hls & Hfs).
  split; [exact Hrows|]. split.
  - intros b Hb1 Hb2. rewrite Hls, Hf0 by assumption. reflexivity.
  - intros b Hb1 Hb2 Hb3. rewrite Hfs, Hf0 by assumption. reflexivity.
Qed.

Lemma ComputeGlobalTensor_spec m_bar particle_tensor n m :
  p_buf m_bar <> p_buf particle_tensor ->
  (p_off m_bar + 81 <= length (m (p_buf m_bar)))%nat ->
  let m' := ComputeGlobalTensor m_bar particle_tensor n (mk_range 0 81) m in
  read m' m_bar
  = column_mean (fun j => read m (row particle_tensor n j)) n
  /\ (forall b, length (m' b) = length (m b))
  /\ forall b, b <> p_buf m_bar -> m' b = m b.
Proof.
  intros Hb Hlen. cbv zeta. rewrite ComputeGlobalTensor_pointwise.
  split; [|split].
  - rewrite read_pointwise; [|exact Hlen|].
    + unfold column_mean. apply map_ext_in. intros k Hk. apply in_seq in Hk.
      f_equal. apply for_loop_ext. intros j tv _.
      rewrite read_lookup by lia. reflexivity.
    + intros i m1 _ Hag. f_equal. apply for_loop_ext. intros j tv _.
      rewrite Hag; [reflexivity|]. left. cbn [shift p_buf]. rewrite row_buf.
      auto.
  - intros b. apply length_pointwise.
  - intros b Hb'. apply pointwise_other_buf. exact Hb'.
Qed.

(** The loop of [compute] that subtracts the generator from every row. *)
Lemma subtract_rows_spec particle_tensor n m :
  p_buf particle_tensor <> m_gen_r4_tensor ->
  (p_off particle_tensor + n * 81 <= length (m (p_buf particle_tensor)))%nat ->
  let m' :=
    for_loop 0 n (fun i m =>
      tensorSub (row particle_tensor n i) (row particle_tensor n i)
        (base m_gen_r4_tensor) m) m in
  (forall i, (i < n)%nat ->
     read m' (row particle_tensor n i)
     = T4.sub (read m (row particle_tensor n i))
         (read m (base m_gen_r4_tensor)))
  /\ (forall b, length (m' b) = length (m b))
  /\ forall b, b <> p_buf particle_tensor -> m' b = m b.
Proof.
  intros Hg Hlen. cbv zeta.
  pose (P := fun (k : nat) (s : mem) =>
    (forall i, (i < n)%nat ->
       read s (row particle_tensor n i)
       = if decide (i < k)%nat
         then T4.sub (read m (row particle_tensor n i))
                (read m (base m_gen_r4_tensor))
         else read m (row particle_tensor n i))
    /\ (forall b, length (s b) = length (m b))
    /\ forall b, b <> p_buf particle_tensor -> s b = m b).
  assert (HP : P n (for_loop 0 n (fun i m =>
      tensorSub (row particle_tensor n i) (row particle_tensor n i)
        (base m_gen_r4_tensor) m) m)).
  { apply (for_loop_invariant P).
    - split; [|split; reflexivity]. intros i Hi.
      destruct (decide (i < 0)%nat); [lia|reflexivity].
    - intros k s Hk (Hrows & Hls & Hfs). cbn [Nat.add].
      split; [|split].
      + intros i Hi. destruct (decide (i = k)) as [->|Hne].
        * rewrite read_tensorSub.
          -- rewrite Hrows by exact Hk.
             destruct (decide (k < k)%nat); [lia|].
             destruct (decide (k < S k)%nat); [|lia].
             assert (E : read s (base m_gen_r4_tensor)
                         = read m (base m_gen_r4_tensor)).
             { apply read_same_buf. apply Hfs. cbn [base p_buf]. auto. }
             rewrite E. reflexivity.
          -- rewrite row_off, row_buf, Hls. nia.
          -- left. reflexivity.
          -- right. rewrite row_buf. cbn [base p_buf]. auto.
        * rewrite read_tensorSub_outside.
          -- rewrite Hrows by exact Hi.
             destruct (decide (i < k)%nat); destruct (decide (i < S k)%nat);
               try lia; reflexivity.
          -- intros c Hc. apply outside_other_row; [exact Hne|exact Hc|lia].
      + intros b. rewrite length_tensorSub. apply Hls.
      + intros b Hb. rewrite tensorSub_other_buf by (rewrite row_buf; exact Hb).
        apply Hfs. exact Hb. }
  destruct HP as (Hrows & Hls & Hfs).
  split; [|split; assumption].
  intros i Hi. rewrite Hrows by exact Hi.
  destruct (decide (i < n)%nat); [reflexivity|lia].
Qed.

End AssembleFacts.

Section ComputeFacts.

Context `{VectorMath} `{Libm} `{RandomEngine}.

Lemma assemble_rows o orientations n :
  assemble o orientations n
  = if decide (n * 81 <= length (particle_array o n m_particle_tensor))%nat
    then Some (assembled o orientations n)
    else None.
Proof. unfold assemble, assembled, particle_array, row. exact eq_refl. Qed.

Lemma assemble_Some o orientations n m' :
  assemble o orientations n = Some m' ->
  stage_in_bounds o n /\ m' = assembled o orientations n.
Proof.
  rewrite assemble_rows. unfold stage_in_bounds.
  destruct (decide _) as [Hin|Hout]; [|discriminate].
  intros [= <-]. split; [exact Hin|reflexivity].
Qed.

Lemma assemble_in_bounds o orientations n :
  stage_in_bounds o n ->
  assemble o orientations n = Some (assembled o orientations n).
Proof.
  intros Hin. rewrite assemble_rows. unfold stage_in_bounds in Hin.
  destruct (decide _) as [_|Hout]; [reflexivity|contradiction].
Qed.

Lemma assemble_None o orientations n :
  assemble o orientations n = None <-> ~ stage_in_bounds o n.
Proof.
  rewrite assemble_rows. unfold stage_in_bounds.
  destruct (decide _) as [Hin|Hout]; split; try discriminate; auto.
  intros K. contradiction.
Qed.

Lemma well_formed_allocated o : well_formed o -> allocated o.
Proof. intros (K1 & K2 & _). split; assumption. Qed.

Lemma particle_array_other o n b :
  b <> m_particle_tensor -> particle_array o n b = heap o b.
Proof.
  intros Hb. unfold particle_array. destruct (negb _); [|reflexivity].
  apply new_array_other. exact Hb.
Qed.

Lemma particle_array_length o n :
  length (particle_array o n m_particle_tensor)
  = if (m_n o =? n)%nat then length (heap o m_particle_tensor)
    else Z.to_nat (u32 (Z.of_nat n * 81)).
Proof.
  unfold particle_array. destruct (m_n o =? n)%nat; cbn [negb];
    [reflexivity|].
  rewrite new_array_same. apply length_replicate.
Qed.

(** When the array is allocated anew the stage is in bounds exactly
    when the product [n*81] does not wrap; otherwise when the array
    found is large enough. *)
Lemma stage_in_bounds_iff o n :
  stage_in_bounds o n
  <-> if (m_n o =? n)%nat
      then (n * 81 <= length (heap o m_particle_tensor))%nat
      else Z.of_nat n * 81 < 2 ^ 32.
Proof.
  unfold stage_in_bounds. rewrite particle_array_length.
  destruct (m_n o =? n)%nat; [reflexivity|].
  unfold u32.
  pose proof (Z.mod_pos_bound (Z.of_nat n * 81) (2 ^ 32) ltac:(lia)) as Hm.
  split.
  - intros Hle.
    destruct (Z.lt_ge_cases (Z.of_nat n * 81) (2 ^ 32)) as [Hlt|Hge];
      [exact Hlt|].
    exfalso.
    assert (Z.of_nat (n * 81) <= (Z.of_nat n * 81) mod 2 ^ 32); [|lia].
    apply Nat2Z.inj_le in Hle. rewrite Z2Nat.id in Hle by lia. exact Hle.
  - intros Hlt. rewrite Z.mod_small by lia. lia.
Qed.

Lemma well_formed_in_bounds o n :
  well_formed o -> Z.of_nat n * 81 < 2 ^ 32 -> stage_in_bounds o n.
Proof.
  intros (_ & _ & Hp) Hn. apply stage_in_bounds_iff.
  destruct (m_n o =? n)%nat eqn:En; [|exact Hn].
  apply Nat.eqb_eq in En. rewrite Hp, En. lia.
Qed.

Lemma assembled_spec o orientations n :
  allocated o -> stage_in_bounds o n ->
  let m' := assembled o orientations n in
  read m' (base m_global_tensor)
  = T4.sub (global_mean orientations n) (read (heap o) (base m_gen_r4_tensor))
  /\ (forall i, (i < n)%nat ->
        read m' (row (base m_particle_tensor) n i)
        = T4.sub (particle_row (orientations !!! i))
            (read (heap o) (base m_gen_r4_tensor)))
  /\ m' m_cubatic_tensor = heap o m_cubatic_tensor
  /\ m' m_gen_r4_tensor = heap o m_gen_r4_tensor
  /\ length (m' m_global_tensor) = 81%nat
  /\ length (m' m_particle_tensor)
     = length (particle_array o n m_particle_tensor).
Proof.
  intros (Hg & Hc) HpA. cbv zeta. unfold assembled. cbv zeta.
  unfold stage_in_bounds in HpA.
  set (mA := particle_array o n) in *.
  assert (HfA : forall b, b <> m_particle_tensor -> mA b = heap o b)
    by (intros b Hb; apply particle_array_other; exact Hb).
  set (mB := memset_zero (base m_global_tensor) 81 mA).
  set (mC := memset_zero (base m_particle_tensor) (n * 81) mB).
  assert (HLC : forall b, length (mC b) = length (mA b)).
  { intros b. unfold mC, mB. rewrite !length_memset_zero. reflexivity. }
  assert (HfC : forall b, b <> m_global_tensor -> b <> m_particle_tensor ->
                  mC b = heap o b).
  { intros b Hb1 Hb2. unfold mC, mB.
    rewrite !memset_zero_other_buf by assumption. apply HfA. exact Hb2. }
  destruct (ComputeParticleTensor_spec (base m_particle_tensor) orientations n mC)
    as (HrD & HLD & HfD).
  { cbn [base p_buf]. discriminate. }
  { cbn [base p_buf]. discriminate. }
  { cbn [base p_buf p_off]. rewrite HLC. lia. }
  set (mD := ComputeParticleTensor _ _ _ _ mC) in *.
  destruct (ComputeGlobalTensor_spec (base m_global_tensor)
              (base m_particle_tensor) n mD) as (HrE & HLE & HfE).
  { cbn [base p_buf]. discriminate. }
  { apply in_bounds_base. rewrite HLD, HLC, HfA by discriminate. exact Hg. }
  set (mE := ComputeGlobalTensor _ _ _ _ mD) in *.
  destruct (subtract_rows_spec (base m_particle_tensor) n mE)
    as (HrF & HLF & HfF).
  { cbn [base p_buf]. discriminate. }
  { cbn [base p_buf p_off]. rewrite HLE, HLD, HLC by discriminate. lia. }
  set (mF := for_loop 0 n _ mE) in *.
  assert (Hgen : forall s, s m_gen_r4_tensor = heap o m_gen_r4_tensor ->
                   read s (base m_gen_r4_tensor)
                   = read (heap o) (base m_gen_r4_tensor))
    by (intros s Hs; apply read_same_buf; exact Hs).
  assert (HgE : mE m_gen_r4_tensor = heap o m_gen_r4_tensor).
  { rewrite HfE, HfD, HfC by (cbn [base p_buf]; discriminate). reflexivity. }
  assert (HgF : mF m_gen_r4_tensor = heap o m_gen_r4_tensor).
  { rewrite HfF by (cbn [base p_buf]; discriminate). exact HgE. }
  split; [|split; [|split; [|split; [|split]]]].
  - rewrite read_tensorSub.
    + rewrite (Hgen mF HgF).
      assert (E : read mF (base m_global_tensor)
                  = global_mean orientations n).
      { rewrite (read_same_buf mF mE)
          by (apply HfF; cbn [base p_buf]; discriminate).
        rewrite HrE. unfold global_mean, column_mean.
        apply map_ext_in. intros k _. f_equal.
        apply column_loop_ext. intros j Hj. apply HrD. exact Hj. }
      rewrite E. reflexivity.
    + apply in_bounds_base.
      rewrite HLF, HLE, HLD, HLC, HfA by discriminate. exact Hg.
    + left. reflexivity.
    + right. cbn [base p_buf]. discriminate.
  - intros i Hi. rewrite read_tensorSub_outside.
    + rewrite HrF by exact Hi. rewrite (Hgen mE HgE).
      rewrite (read_same_buf mE mD)
        by (apply HfE; rewrite row_buf; cbn [base p_buf]; discriminate).
      rewrite HrD by exact Hi. reflexivity.
    + intros c _. left. cbn [shift p_buf]. rewrite row_buf.
      cbn [base p_buf]. discriminate.
  - rewrite tensorSub_other_buf by (cbn [base p_buf]; discriminate).
    rewrite HfF, HfE, HfD, HfC by (cbn [base p_buf]; discriminate).
    reflexivity.
  - rewrite tensorSub_other_buf by (cbn [base p_buf]; discriminate).
    exact HgF.
  - rewrite length_tensorSub, HLF, HLE, HLD, HLC, HfA by discriminate. exact Hg.
  - rewrite length_tensorSub, HLF, HLE, HLD, HLC by discriminate. reflexivity.
Qed.

End ComputeFacts.

Section LoopFacts.

Context `{VectorMath} `{Libm} `{RandomEngine}.

Lemma read_commit o m g s' orientation p :
  length (m m_cubatic_tensor) = 81%nat ->
  read (heap (commit o m g s' orientation)) p
  = if decide (p_buf p = m_cubatic_tensor)
    then read (memcpy (base m_cubatic_tensor) (base new_cubatic_tensor) 81 m) p
    else read m p.
Proof.
  intros _. cbn [commit heap]. destruct (decide _) as [E|E]; [reflexivity|].
  apply read_same_buf. apply memcpy_other_buf. cbn [base p_buf]. exact E.
Qed.

(** What an iteration leaves of the retained state. *)
Lemma iteration_invariant l :
  loop_buffers (heap (self l)) ->
  loop_buffers (heap (self (state_of (anneal_iteration l))))
  /\ match anneal_iteration l with
     | Accepted l' => consistent (self l') /\ tensor_consistent (self l')
     | Rejected l' | Thrown _ l' =>
         (consistent (self l) -> consistent (self l'))
         /\ (tensor_consistent (self l) -> tensor_consistent (self l'))
     end.
Proof.
  intros (Hc & Hn).
  destruct (anneal_iteration_cases l Hn) as (m & g & Hf & Hr & Hl & Hcases).
  assert (Hkeep : forall b, b = m_global_tensor \/ b = m_cubatic_tensor
                            \/ b = m_gen_r4_tensor -> m b = heap (self l) b).
  { intros b Hb. apply Hf. unfold retained_buf.
    destruct Hb as [-> | [-> | ->]]; repeat split; discriminate. }
  assert (Hmc : length (m m_cubatic_tensor) = 81%nat).
  { rewrite Hkeep by auto. exact Hc. }
  assert (Hkept :
    loop_buffers (heap (keep (self l) m g))
    /\ (consistent (self l) -> consistent (keep (self l) m g))
    /\ (tensor_consistent (self l) -> tensor_consistent (keep (self l) m g))).
  { split; [split; assumption|]. unfold consistent, tensor_consistent.
    cbn [keep heap m_cubatic_order_parameter m_cubatic_orientation].
    rewrite (read_same_buf m (heap (self l)) (base m_global_tensor))
      by (apply Hkeep; auto).
    rewrite (read_same_buf m (heap (self l)) (base m_cubatic_tensor))
      by (apply Hkeep; auto).
    rewrite (read_same_buf m (heap (self l)) (base m_gen_r4_tensor))
      by (apply Hkeep; auto).
    split; intros Hx; exact Hx. }
  assert (Hcommitted : forall s',
    s' = candidate_score l ->
    let o' := commit (self l) m g s' (fst (proposal l)) in
    loop_buffers (heap o') /\ consistent o' /\ tensor_consistent o').
  { intros s' Hs'. cbv zeta.
    assert (Hrc : read (heap (commit (self l) m g s' (fst (proposal l))))
                    (base m_cubatic_tensor)
                  = cubatic_tensor_of (fst (proposal l))
                      (read (heap (self l)) (base m_gen_r4_tensor))).
    { cbn [commit heap]. rewrite read_memcpy.
      - exact Hr.
      - apply in_bounds_base. exact Hmc.
      - right. cbn [base p_buf]. discriminate. }
    assert (Hother : forall b, b = m_global_tensor \/ b = m_gen_r4_tensor ->
              read (heap (commit (self l) m g s' (fst (proposal l)))) (base b)
              = read (heap (self l)) (base b)).
    { intros b Hb. cbn [commit heap]. apply read_same_buf. cbn [base p_buf].
      rewrite memcpy_other_buf
        by (cbn [base p_buf]; destruct Hb as [-> | ->]; discriminate).
      apply Hkeep. destruct Hb as [-> | ->]; auto. }
    split; [|split].
    - split; cbn [commit heap]; rewrite length_memcpy; assumption.
    - unfold consistent. rewrite Hrc, Hother by auto.
      transitivity s'; [exact eq_refl|]. rewrite Hs'.
      unfold candidate_score. exact eq_refl.
    - unfold tensor_consistent. rewrite Hrc, Hother by auto.
      exact eq_refl. }
  destruct Hcases
    as [(_ & E)|[(_ & _ & E)|(_ & _ & test & _ & [(_ & E)|(_ & E)])]];
    rewrite E; cbn [state_of self].
  - destruct Hkept as (K1 & K2 & K3). split; [exact K1|]. split; assumption.
  - destruct (Hcommitted _ eq_refl) as (K1 & K2 & K3). split; [exact K1|].
    split; assumption.
  - destruct (Hcommitted _ eq_refl) as (K1 & K2 & K3). split; [exact K1|].
    split; assumption.
  - destruct Hkept as (K1 & K2 & K3). split; [exact K1|]. split; assumption.
Qed.

(** The state and counters an iteration leaves. *)
Lemma iteration_step l :
  match anneal_iteration l with
  | Accepted l' =>
      t_current l' = fmul (t_current l) (m_scale (self l))
      /\ loop_count l' = u32 (loop_count l + 1)
      /\ m_t_final (self l') = m_t_final (self l)
  | Rejected l' =>
      t_current l' = t_current l
      /\ loop_count l' = u32 (loop_count l + 1)
      /\ m_t_final (self l') = m_t_final (self l)
      /\ m_cubatic_order_parameter (self l')
         = m_cubatic_order_parameter (self l)
      /\ m_cubatic_orientation (self l') = m_cubatic_orientation (self l)
      /\ heap (self l') m_cubatic_tensor = heap (self l) m_cubatic_tensor
  | Thrown _ l' =>
      t_current l' = t_current l
      /\ loop_count l' = u32 (loop_count l + 1)
      /\ m_cubatic_order_parameter (self l')
         = m_cubatic_order_parameter (self l)
  end.
Proof.
  unfold anneal_iteration.
  destruct (random_axis (m_gen (self l))) as [axis g1].
  destruct (m_angle_dist g1) as [a g2].
  set (orientation := quat_mul _ _).
  set (m1 := calcCubaticTensor (base new_cubatic_tensor) orientation
               (heap (self l))).
  destruct (calcCubaticOrderParameter_spec (base new_cubatic_tensor) m1)
    as (_ & Hg).
  { cbn [base p_buf]. discriminate. }
  assert (Hf : m1 m_cubatic_tensor = heap (self l) m_cubatic_tensor)
    by (apply calcCubaticTensor_spec_frame; cbn [base p_buf]; discriminate).
  destruct (calcCubaticOrderParameter (base new_cubatic_tensor) m1)
    as [s' m2].
  cbn [snd] in Hg.
  destruct (fne s' s'); [repeat split|].
  destruct (fgt s' _); [repeat split|].
  destruct (m_phi_dist g2) as [test g3].
  destruct (fge _ test); repeat split.
  cbn [self keep heap]. rewrite Hg by discriminate. exact Hf.
Qed.

End LoopFacts.

Section AnnealTheorems.

Context `{VectorMath} `{Libm} `{RandomEngine}.

Lemma anneal_loop_S fuel l :
  anneal_loop (S fuel) l
  = if loop_guard l then
      match anneal_iteration l with
      | Thrown what l' => Some (Raised what l')
      | Rejected l' => anneal_loop fuel l'
      | Accepted l' => anneal_loop fuel l'
      end
    else Some (Exited l).
Proof. reflexivity. Qed.

Lemma anneal_loop_0 l :
  anneal_loop 0 l = if loop_guard l then None else Some (Exited l).
Proof. reflexivity. Qed.

Lemma u32_small z : 0 <= z < 2 ^ 32 -> u32 z = z.
Proof. intros Hz. unfold u32. apply Z.mod_small. exact Hz. Qed.

Lemma loop_guard_count l : loop_guard l = true -> loop_count l < 10000.
Proof.
  unfold loop_guard. intros Hg. apply andb_true_iff in Hg.
  destruct Hg as (_ & Hc). apply Z.ltb_lt in Hc. exact Hc.
Qed.

(** Enough fuel for the passes the guard still admits ends the loop. *)
Lemma anneal_loop_total fuel l :
  0 <= loop_count l -> 10000 - loop_count l <= Z.of_nat fuel ->
  exists e, anneal_loop fuel l = Some e.
Proof.
  revert l. induction fuel as [|fuel IH]; intros l Hc Hf.
  - rewrite anneal_loop_0. destruct (loop_guard l) eqn:Hg; [|eauto].
    apply loop_guard_count in Hg. lia.
  - rewrite anneal_loop_S. destruct (loop_guard l) eqn:Hg; [|eauto].
    apply loop_guard_count in Hg.
    pose proof (iteration_step l) as Hs.
    assert (Hu : u32 (loop_count l + 1) = loop_count l + 1)
      by (apply u32_small; lia).
    destruct (anneal_iteration l) as [what l'|l'|l']; [eauto| |].
    + destruct Hs as (_ & Hn & _). apply IH; rewrite Hn, Hu; lia.
    + destruct Hs as (_ & Hn & _). apply IH; rewrite Hn, Hu; lia.
Qed.

Lemma anneal_loop_exit fuel l :
  match anneal_loop fuel l with
  | Some (Exited e) => loop_guard e = false
  | _ => True
  end.
Proof.
  revert l. induction fuel as [|fuel IH]; intros l.
  - rewrite anneal_loop_0. destruct (loop_guard l) eqn:Hg; [exact I|exact Hg].
  - rewrite anneal_loop_S. destruct (loop_guard l) eqn:Hg; [|exact Hg].
    destruct (anneal_iteration l) as [what l'|l'|l']; [exact I|apply IH|apply IH].
Qed.

Lemma anneal_loop_invariant fuel l e :
  loop_invariant l -> anneal_loop fuel l = Some e ->
  loop_invariant (exit_state e).
Proof.
  revert l. induction fuel as [|fuel IH]; intros l Hinv.
  - rewrite anneal_loop_0. destruct (loop_guard l); [discriminate|].
    intros [= <-]. exact Hinv.
  - rewrite anneal_loop_S. destruct (loop_guard l);
      [|intros [= <-]; exact Hinv].
    destruct Hinv as (Hc & Ht & Hb).
    pose proof (iteration_invariant l Hb) as (Hb' & Hit).
    destruct (anneal_iteration l) as [what l'|l'|l']; cbn [state_of] in Hb'.
    + intros [= <-]. cbn [exit_state]. destruct Hit as (K1 & K2).
      split; [auto|]. split; [auto|exact Hb'].
    + apply IH. destruct Hit as (K1 & K2).
      split; [auto|]. split; [auto|exact Hb'].
    + apply IH. destruct Hit as (K1 & K2).
      split; [auto|]. split; [auto|exact Hb'].
Qed.

Lemma anneal_start_spec o m :
  length (m m_cubatic_tensor) = 81%nat ->
  let l := anneal_start o m in
  loop_invariant l
  /\ heap (self l) m_global_tensor = m m_global_tensor
  /\ heap (self l) m_gen_r4_tensor = m m_gen_r4_tensor
  /\ loop_count l = 0
  /\ t_current l = m_t_initial o
  /\ m_t_final (self l) = m_t_final o.
Proof.
  intros Hlen. cbv zeta. unfold anneal_start.
  destruct (random_axis (m_gen o)) as [axis g1].
  destruct (m_angle_dist g1) as [angle g2].
  set (orientation := fromAxisAngle axis angle).
  destruct (calcCubaticTensor_spec (base m_cubatic_tensor) orientation m)
    as (Hr & Hf & Hl).
  { cbn [base p_buf]. discriminate. }
  { cbn [base p_buf]. discriminate. }
  { apply in_bounds_base. exact Hlen. }
  set (m1 := calcCubaticTensor (base m_cubatic_tensor) orientation m) in *.
  destruct (calcCubaticOrderParameter_spec (base m_cubatic_tensor) m1)
    as (Hs & Hg).
  { cbn [base p_buf]. discriminate. }
  destruct (calcCubaticOrderParameter (base m_cubatic_tensor) m1) as [s m2].
  cbn [fst snd] in Hs, Hg.
  set (m3 := new_array new_cubatic_tensor 81 m2).
  set (m4 := memset_zero (base new_cubatic_tensor) 81 m3).
  assert (Hf4 : forall b, b <> new_cubatic_tensor -> b <> diff -> m4 b = m1 b).
  { intros b Hb1 Hb2. unfold m4, m3.
    rewrite memset_zero_other_buf, new_array_other by (cbn [base p_buf]; exact Hb1).
    apply Hg. exact Hb2. }
  assert (Hread : forall b, b <> new_cubatic_tensor -> b <> diff ->
                    read m4 (base b) = read m1 (base b)).
  { intros b Hb1 Hb2. apply read_same_buf. cbn [base p_buf].
    apply Hf4; assumption. }
  unfold loop_invariant, loop_buffers, consistent, tensor_consistent.
  cbn [self heap loop_count t_current m_t_final m_cubatic_order_parameter
       m_cubatic_orientation].
  split; [split; [|split]|].
  - rewrite !Hread by discriminate. exact Hs.
  - rewrite !Hread by discriminate. rewrite Hr.
    rewrite (read_same_buf m1 m (base m_gen_r4_tensor))
      by (apply Hf; cbn [base p_buf]; discriminate).
    reflexivity.
  - split.
    + rewrite Hf4 by discriminate. rewrite Hl by discriminate. exact Hlen.
    + unfold m4. rewrite length_memset_zero. unfold m3.
      rewrite new_array_same. apply length_replicate.
  - repeat split.
    + rewrite Hf4 by discriminate. apply Hf; cbn [base p_buf]; discriminate.
    + rewrite Hf4 by discriminate. apply Hf; cbn [base p_buf]; discriminate.
Qed.

Lemma anneal_start_count o m : loop_count (anneal_start o m) = 0.
Proof.
  unfold anneal_start.
  destruct (random_axis (m_gen o)) as [axis g1].
  destruct (m_angle_dist g1) as [angle g2].
  destruct (calcCubaticOrderParameter _ _) as [s m2]. reflexivity.
Qed.

Lemma anneal_start_temperature o m :
  t_current (anneal_start o m) = m_t_initial o
  /\ m_t_final (self (anneal_start o m)) = m_t_final o.
Proof.
  unfold anneal_start.
  destruct (random_axis (m_gen o)) as [axis g1].
  destruct (m_angle_dist g1) as [angle g2].
  destruct (calcCubaticOrderParameter _ _) as [s m2]. split; reflexivity.
Qed.

(** The loop writes neither the global tensor nor the generator. *)
Lemma iteration_frame l b :
  loop_buffers (heap (self l)) ->
  b = m_global_tensor \/ b = m_gen_r4_tensor ->
  heap (self (state_of (anneal_iteration l))) b = heap (self l) b.
Proof.
  intros (_ & Hn) Hb.
  destruct (anneal_iteration_cases l Hn) as (m & g & Hf & _ & _ & Hcases).
  assert (Hm : m b = heap (self l) b).
  { apply Hf. unfold retained_buf.
    destruct Hb as [-> | ->]; repeat split; discriminate. }
  assert (Hcm : forall s' q,
            heap (commit (self l) m g s' q) b = heap (self l) b).
  { intros s' q. cbn [commit heap]. rewrite memcpy_other_buf; [exact Hm|].
    cbn [base p_buf]. destruct Hb as [-> | ->]; discriminate. }
  destruct Hcases
    as [(_ & E)|[(_ & _ & E)|(_ & _ & test & _ & [(_ & E)|(_ & E)])]];
    rewrite E; cbn [state_of self]; auto.
Qed.

Lemma anneal_loop_frame fuel l e b :
  loop_buffers (heap (self l)) ->
  b = m_global_tensor \/ b = m_gen_r4_tensor ->
  anneal_loop fuel l = Some e ->
  heap (self (exit_state e)) b = heap (self l) b.
Proof.
  intros Hbuf Hb. revert l Hbuf. induction fuel as [|fuel IH]; intros l Hbuf.
  - rewrite anneal_loop_0. destruct (loop_guard l); [discriminate|].
    intros [= <-]. reflexivity.
  - rewrite anneal_loop_S. destruct (loop_guard l);
      [|intros [= <-]; reflexivity].
    pose proof (iteration_invariant l Hbuf) as (Hbuf' & _).
    pose proof (iteration_frame l b Hbuf Hb) as Hfr.
    destruct (anneal_iteration l) as [what l'|l'|l'];
      cbn [state_of] in Hbuf', Hfr.
    + intros [= <-]. exact Hfr.
    + intros He. rewrite (IH l' Hbuf' He). exact Hfr.
    + intros He. rewrite (IH l' Hbuf' He). exact Hfr.
Qed.

(** The counter only grows, and stays within the 10000 of the guard. *)
Lemma anneal_loop_count fuel l e :
  anneal_loop fuel l = Some e ->
  0 <= loop_count l <= 10000 ->
  loop_count l <= loop_count (exit_state e) <= 10000.
Proof.
  revert l. induction fuel as [|fuel IH]; intros l.
  - rewrite anneal_loop_0. destruct (loop_guard l); [discriminate|].
    intros [= <-] Hc. cbn [exit_state]. lia.
  - rewrite anneal_loop_S. destruct (loop_guard l) eqn:Hg;
      [|intros [= <-] Hc; cbn [exit_state]; lia].
    apply loop_guard_count in Hg.
    pose proof (iteration_step l) as Hs. intros He Hc.
    assert (Hu : u32 (loop_count l + 1) = loop_count l + 1)
      by (apply u32_small; lia).
    destruct (anneal_iteration l) as [what l'|l'|l'].
    + injection He as <-. cbn [exit_state].
      destruct Hs as (_ & Hn & _). rewrite Hn, Hu. lia.
    + destruct Hs as (_ & Hn & _).
      assert (K : loop_count l' <= loop_count (exit_state e) <= 10000)
        by (apply IH; [exact He|rewrite Hn, Hu; lia]).
      rewrite Hn, Hu in K. lia.
    + destruct Hs as (_ & Hn & _).
      assert (K : loop_count l' <= loop_count (exit_state e) <= 10000)
        by (apply IH; [exact He|rewrite Hn, Hu; lia]).
      rewrite Hn, Hu in K. lia.
Qed.

(** [compute] on a stage that stays in bounds: how it ends and what it
    leaves. *)
Lemma compute_spec o orientations n n_replicates m :
  allocated o -> assemble o orientations n = Some m ->
  exists e,
    anneal_loop (Z.to_nat 10000) (anneal_start o m) = Some e
    /\ loop_invariant (exit_state e)
    /\ compute o orientations n n_replicates
       = Some match e with
              | Raised what l => runtime_error what (self l)
              | Exited l =>
                  Returned
                    {| m_t_initial := m_t_initial (self l);
                       m_t_final := m_t_final (self l);
                       m_scale := m_scale (self l);
                       m_n := n; m_n_replicates := n_replicates;
                       m_cubatic_orientation := m_cubatic_orientation (self l);
                       m_cubatic_order_parameter :=
                         m_cubatic_order_parameter (self l);
                       heap := heap (self l); m_gen := m_gen (self l) |}
              end.
Proof.
  intros Hal Hm.
  destruct (assemble_Some o orientations n m Hm) as (Hin & ->).
  destruct (assembled_spec o orientations n Hal Hin) as (_ & _ & Hc & _).
  destruct Hal as (_ & Hlen).
  set (m := assembled o orientations n) in *.
  destruct (anneal_start_spec o m) as (Hinv & _ & _ & Hcnt & _).
  { rewrite Hc. exact Hlen. }
  destruct (anneal_loop_total (Z.to_nat 10000) (anneal_start o m)) as (e & He).
  { rewrite Hcnt. lia. }
  { rewrite Hcnt. lia. }
  exists e. split; [exact He|]. split.
  - apply (anneal_loop_invariant _ _ _ Hinv He).
  - unfold compute, compute_fuel. rewrite Hm, He.
    destruct e; reflexivity.
Qed.

(** [compute] has no defined result exactly when the assembly stage has
    none: the loop always ends. *)
Lemma compute_None o orientations n n_replicates :
  compute o orientations n n_replicates = None
  <-> assemble o orientations n = None.
Proof.
  unfold compute, compute_fuel.
  destruct (assemble o orientations n) as [m|]; [|split; reflexivity].
  destruct (anneal_loop_total (Z.to_nat 10000) (anneal_start o m))
    as (e & ->);
    [rewrite anneal_start_count; lia|rewrite anneal_start_count; lia|].
  destruct e; split; discriminate.
Qed.

End AnnealTheorems.

(** ** Sums that start from zero *)

Lemma same_value_refl a : same_value a a.
Proof. left. reflexivity. Qed.

Lemma zeros_same_value s s' : same_value (S754_zero s) (S754_zero s').
Proof. right. split; reflexivity. Qed.

Lemma fadd_zero_l a : same_value (fadd fzero a) a.
Proof.
  destruct a as [s|s| |s m e]; try apply same_value_refl.
  destruct s; [apply zeros_same_value|apply same_value_refl].
Qed.

Lemma fadd_same_value a a' c :
  same_value a a' -> same_value (fadd a c) (fadd a' c).
Proof.
  intros [->|(Ha & Ha')]; [apply same_value_refl|].
  destruct a as [s| | |]; try discriminate Ha.
  destruct a' as [s'| | |]; try discriminate Ha'.
  destruct c as [sc|sc| |sc mc ec]; try apply same_value_refl.
  destruct s, s', sc; apply zeros_same_value.
Qed.

Lemma fmul_same_value a a' c :
  same_value a a' -> same_value (fmul a c) (fmul a' c).
Proof.
  intros [->|(Ha & Ha')]; [apply same_value_refl|].
  destruct a as [s| | |]; try discriminate Ha.
  destruct a' as [s'| | |]; try discriminate Ha'.
  destruct c as [sc|sc| |sc mc ec]; try apply same_value_refl;
    apply zeros_same_value.
Qed.

Lemma fsub_same_value a a' c :
  same_value a a' -> same_value (fsub a c) (fsub a' c).
Proof.
  intros [->|(Ha & Ha')]; [apply same_value_refl|].
  destruct a as [s| | |]; try discriminate Ha.
  destruct a' as [s'| | |]; try discriminate Ha'.
  destruct c as [sc|sc| |sc mc ec]; try apply same_value_refl.
  destruct s, s', sc; apply zeros_same_value.
Qed.

Lemma pos_decode i j k l :
  (i < 3)%nat -> (j < 3)%nat -> (k < 3)%nat -> (l < 3)%nat ->
  (T4.pos i j k l < 81)%nat
  /\ (T4.pos i j k l / 27 = i)%nat
  /\ (T4.pos i j k l / 9 mod 3 = j)%nat
  /\ (T4.pos i j k l / 3 mod 3 = k)%nat
  /\ (T4.pos i j k l mod 3 = l)%nat.
Proof.
  intros Hi Hj Hk Hl.
  destruct i as [|[|[|i]]]; [| | |lia];
  destruct j as [|[|[|j]]]; [| | |lia | | | |lia | | | |lia];
  destruct k as [|[|[|k]]]; try lia;
  destruct l as [|[|[|l]]]; try lia;
  (split; [unfold T4.pos; lia|]); repeat split; reflexivity.
Qed.

Lemma lookup_map_seq (f : nat -> float) c :
  (c < 81)%nat -> map f (seq 0 81) !!! c = f c.
Proof.
  intros Hc.
  rewrite list_lookup_total_alt, list_lookup_fmap, lookup_seq_lt by exact Hc.
  reflexivity.
Qed.

Lemma T4_zero_map : T4.zero = map (fun _ => fzero) (seq 0 81).
Proof. exact eq_refl. Qed.

Lemma T4_add_map (f g : nat -> float) :
  T4.add (map f (seq 0 81)) (map g (seq 0 81))
  = map (fun c => fadd (f c) (g c)) (seq 0 81).
Proof. unfold T4.add. apply zip_with_map_seq. Qed.

Lemma T4_sub_map (f g : nat -> float) :
  T4.sub (map f (seq 0 81)) (map g (seq 0 81))
  = map (fun c => fsub (f c) (g c)) (seq 0 81).
Proof. unfold T4.sub. apply zip_with_map_seq. Qed.

Lemma T4_mul_scalar_map (f : nat -> float) a :
  T4.mul_scalar (map f (seq 0 81)) a = map (fun c => fmul (f c) a) (seq 0 81).
Proof. unfold T4.mul_scalar. apply map_map. Qed.

Lemma outer4_lookup v i j k l :
  (i < 3)%nat -> (j < 3)%nat -> (k < 3)%nat -> (l < 3)%nat ->
  T4.outer4 v !!! T4.pos i j k l = T4.outer4_entry v i j k l.
Proof.
  intros Hi Hj Hk Hl.
  destruct (pos_decode i j k l Hi Hj Hk Hl) as (Hp & E1 & E2 & E3 & E4).
  unfold T4.outer4. rewrite lookup_map_seq by exact Hp.
  rewrite E1, E2, E3, E4. reflexivity.
Qed.

Section CubaticTensorTheorem.

Context `{VectorMath}.

Lemma cubatic_tensor_of_lookup orientation (m : mem) i j k l :
  (i < 3)%nat -> (j < 3)%nat -> (k < 3)%nat -> (l < 3)%nat ->
  same_value
    (cubatic_tensor_of orientation (read m (base m_gen_r4_tensor))
       !!! T4.pos i j k l)
    (cubatic_entry (rotate orientation (basis !!! 0%nat))
       (rotate orientation (basis !!! 1%nat))
       (rotate orientation (basis !!! 2%nat))
       (read m (base m_gen_r4_tensor)) i j k l).
Proof.
  intros Hi Hj Hk Hl.
  destruct (pos_decode i j k l Hi Hj Hk Hl) as (Hp & E1 & E2 & E3 & E4).
  unfold cubatic_tensor_of, cubatic_entry, T4.outer4, read.
  rewrite T4_zero_map, !T4_add_map, T4_mul_scalar_map, T4_sub_map.
  rewrite !lookup_map_seq by exact Hp.
  rewrite E1, E2, E3, E4.
  apply fsub_same_value, fmul_same_value, fadd_same_value, fadd_same_value.
  apply fadd_zero_l.
Qed.

(** C4: for every orientation, [calcCubaticTensor] leaves in its output
    the tensor [2 (outer4 u0 + outer4 u1 + outer4 u2) - R4] with
    [u_i = rotate orientation e_i] for the world basis vectors: as a
    whole, as the code sums it (the accumulator starts from the zero
    tensor), and entry by entry in the formula without that zero, up to
    the sign of a zero. *)
Theorem calcCubaticTensor_formula cubatic_tensor orientation m :
  p_buf cubatic_tensor <> calculated_tensor ->
  p_buf cubatic_tensor <> l_tensor ->
  (p_off cubatic_tensor + 81 <= length (m (p_buf cubatic_tensor)))%nat ->
  let u0 := rotate orientation (mk_vec3 fone fzero fzero) in
  let u1 := rotate orientation (mk_vec3 fzero fone fzero) in
  let u2 := rotate orientation (mk_vec3 fzero fzero fone) in
  let r4 := read m (base m_gen_r4_tensor) in
  let M := read (calcCubaticTensor cubatic_tensor orientation m)
             cubatic_tensor in
  M = T4.sub
        (T4.mul_scalar
           (T4.add (T4.add (T4.add T4.zero (T4.outer4 u0)) (T4.outer4 u1))
                   (T4.outer4 u2))
           ftwo)
        r4
  /\ forall i j k l,
       (i < 3)%nat -> (j < 3)%nat -> (k < 3)%nat -> (l < 3)%nat ->
       same_value (M !!! T4.pos i j k l) (cubatic_entry u0 u1 u2 r4 i j k l).
Proof.
  intros Hc Hl Hlen. cbv zeta.
  destruct (calcCubaticTensor_spec cubatic_tensor orientation m Hc Hl Hlen)
    as (Hr & _).
  rewrite Hr. split; [exact eq_refl|].
  intros i j k l Hi Hj Hk Hl'.
  apply (cubatic_tensor_of_lookup orientation m i j k l Hi Hj Hk Hl').
Qed.

End CubaticTensorTheorem.

(** ** What a call of [compute] keeps *)

Section ObjectFacts.

Context `{VectorMath} `{Libm} `{RandomEngine}.

Lemma anneal_start_keeps o m b :
  retained_buf b -> b <> m_cubatic_tensor ->
  heap (self (anneal_start o m)) b = m b.
Proof.
  intros (Hc & Hl & Hn & Hd) Hm. unfold anneal_start.
  destruct (random_axis (m_gen o)) as [axis g1].
  destruct (m_angle_dist g1) as [angle g2].
  set (orientation := fromAxisAngle axis angle).
  set (m1 := calcCubaticTensor (base m_cubatic_tensor) orientation m).
  destruct (calcCubaticOrderParameter_spec (base m_cubatic_tensor) m1)
    as (_ & Hg).
  { cbn [base p_buf]. discriminate. }
  destruct (calcCubaticOrderParameter (base m_cubatic_tensor) m1) as [s m2].
  cbn [snd] in Hg. cbn [self heap].
  rewrite memset_zero_other_buf, new_array_other
    by (cbn [base p_buf]; exact Hn).
  rewrite Hg by exact Hd. unfold m1.
  apply calcCubaticTensor_spec_frame; cbn [base p_buf]; assumption.
Qed.

Lemma same_settings_refl o : same_settings o o.
Proof. repeat split. Qed.

Lemma same_settings_trans o1 o2 o3 :
  same_settings o1 o2 -> same_settings o2 o3 -> same_settings o1 o3.
Proof.
  intros (A1 & A2 & A3 & A4 & A5) (B1 & B2 & B3 & B4 & B5).
  repeat split; congruence.
Qed.

Lemma anneal_start_settings o m : same_settings o (self (anneal_start o m)).
Proof.
  unfold anneal_start.
  destruct (random_axis (m_gen o)) as [axis g1].
  destruct (m_angle_dist g1) as [angle g2].
  destruct (calcCubaticOrderParameter _ _) as [s m2]. repeat split.
Qed.

Lemma iteration_settings l :
  same_settings (self l) (self (state_of (anneal_iteration l))).
Proof.
  unfold anneal_iteration.
  destruct (random_axis (m_gen (self l))) as [axis g1].
  destruct (m_angle_dist g1) as [a g2].
  destruct (calcCubaticOrderParameter _ _) as [s' m2].
  destruct (fne s' s'); [repeat split|].
  destruct (fgt s' _); [repeat split|].
  destruct (m_phi_dist g2) as [test g3].
  destruct (fge _ test); repeat split.
Qed.

Lemma iteration_keeps l b :
  loop_buffers (heap (self l)) ->
  retained_buf b -> b <> m_cubatic_tensor ->
  heap (self (state_of (anneal_iteration l))) b = heap (self l) b.
Proof.
  intros (_ & Hn) Hb Hbc.
  destruct (anneal_iteration_cases l Hn) as (m & g & Hf & _ & _ & Hcases).
  assert (Hm : m b = heap (self l) b) by (apply Hf; exact Hb).
  assert (Hcm : forall s' q,
            heap (commit (self l) m g s' q) b = heap (self l) b).
  { intros s' q. cbn [commit heap]. rewrite memcpy_other_buf; [exact Hm|].
    cbn [base p_buf]. exact Hbc. }
  destruct Hcases
    as [(_ & E)|[(_ & _ & E)|(_ & _ & test & _ & [(_ & E)|(_ & E)])]];
    rewrite E; cbn [state_of self]; auto.
Qed.

Lemma anneal_loop_keeps fuel l e :
  loop_buffers (heap (self l)) ->
  anneal_loop fuel l = Some e ->
  same_settings (self l) (self (exit_state e))
  /\ forall b, retained_buf b -> b <> m_cubatic_tensor ->
       heap (self (exit_state e)) b = heap (self l) b.
Proof.
  revert l. induction fuel as [|fuel IH]; intros l Hbuf.
  - rewrite anneal_loop_0. destruct (loop_guard l); [discriminate|].
    intros [= <-]. split; [apply same_settings_refl|reflexivity].
  - rewrite anneal_loop_S. destruct (loop_guard l);
      [|intros [= <-]; split; [apply same_settings_refl|reflexivity]].
    pose proof (iteration_invariant l Hbuf) as (Hbuf' & _).
    pose proof (iteration_keeps l) as Hfr.
    pose proof (iteration_settings l) as Hst.
    destruct (anneal_iteration l) as [what l'|l'|l'];
      cbn [state_of] in Hbuf', Hfr, Hst.
    + intros [= <-]. cbn [exit_state]. split; [exact Hst|].
      intros b K1 K2. apply Hfr; assumption.
    + intros He. destruct (IH l' Hbuf' He) as (S1 & F1). split.
      * apply (same_settings_trans _ _ _ Hst S1).
      * intros b K1 K2. rewrite F1 by assumption. apply Hfr; assumption.
    + intros He. destruct (IH l' Hbuf' He) as (S1 & F1). split.
      * apply (same_settings_trans _ _ _ Hst S1).
      * intros b K1 K2. rewrite F1 by assumption. apply Hfr; assumption.
Qed.

(** The loop state [compute] leaves, against the object it was called
    on and the store the assembly stage left. *)
Lemma compute_exit o orientations n n_replicates m :
  allocated o -> assemble o orientations n = Some m ->
  exists e,
    compute o orientations n n_replicates
    = Some match e with
           | Raised what l => runtime_error what (self l)
           | Exited l =>
               Returned
                 {| m_t_initial := m_t_initial (self l);
                    m_t_final := m_t_final (self l);
                    m_scale := m_scale (self l);
                    m_n := n; m_n_replicates := n_replicates;
                    m_cubatic_orientation := m_cubatic_orientation (self l);
                    m_cubatic_order_parameter :=
                      m_cubatic_order_parameter (self l);
                    heap := heap (self l); m_gen := m_gen (self l) |}
           end
    /\ loop_invariant (exit_state e)
    /\ same_settings o (self (exit_state e))
    /\ heap (self (exit_state e)) m_gen_r4_tensor = heap o m_gen_r4_tensor
    /\ heap (self (exit_state e)) m_global_tensor = m m_global_tensor
    /\ heap (self (exit_state e)) m_particle_tensor = m m_particle_tensor
    /\ length (heap (self (exit_state e)) m_global_tensor) = 81%nat
    /\ length (heap (self (exit_state e)) m_cubatic_tensor) = 81%nat
    /\ length (heap (self (exit_state e)) m_particle_tensor)
       = length (particle_array o n m_particle_tensor).
Proof.
  intros Hal Hm.
  destruct (compute_spec o orientations n n_replicates m Hal Hm)
    as (e & He & Hinv & Hcomp).
  destruct (assemble_Some o orientations n m Hm) as (Hin & Em).
  destruct (assembled_spec o orientations n Hal Hin)
    as (_ & _ & HM & HR & HlG & HlP).
  rewrite <- Em in HM, HR, HlG, HlP.
  destruct Hal as (_ & HlenM).
  destruct (anneal_start_spec o m) as ((_ & _ & Hbuf0) & _).
  { rewrite HM. exact HlenM. }
  destruct (anneal_loop_keeps _ _ _ Hbuf0 He) as (Hset & Hkeep).
  assert (Hret : forall b, retained_buf b -> b <> m_cubatic_tensor ->
                   heap (self (exit_state e)) b = m b).
  { intros b K1 K2. rewrite Hkeep by assumption.
    apply anneal_start_keeps; assumption. }
  assert (RG : heap (self (exit_state e)) m_global_tensor = m m_global_tensor).
  { apply Hret; [|discriminate]. unfold retained_buf.
    repeat split; discriminate. }
  assert (RP : heap (self (exit_state e)) m_particle_tensor
               = m m_particle_tensor).
  { apply Hret; [|discriminate]. unfold retained_buf.
    repeat split; discriminate. }
  exists e. split; [exact Hcomp|]. split; [exact Hinv|].
  split; [|split; [|split; [|split; [|split; [|split]]]]].
  - apply (same_settings_trans _ _ _ (anneal_start_settings o m) Hset).
  - rewrite Hret; [exact HR| |discriminate].
    unfold retained_buf. repeat split; discriminate.
  - exact RG.
  - exact RP.
  - rewrite RG. exact HlG.
  - destruct Hinv as (_ & _ & (K & _)). exact K.
  - rewrite RP. exact HlP.
Qed.

(** Every call of [compute] that has a result leaves the two tensors
    with their 81 cells. *)
Lemma compute_allocated o orientations n n_replicates out :
  allocated o ->
  compute o orientations n n_replicates = Some out ->
  allocated (object_of out).
Proof.
  intros Hal Hout.
  destruct (assemble o orientations n) as [m|] eqn:Hm.
  - destruct (compute_exit o orientations n n_replicates m Hal Hm)
      as (e & Hcomp & _ & _ & _ & _ & _ & HlG & HlM & _).
    rewrite Hcomp in Hout. injection Hout as <-.
    destruct e as [l|what l]; cbn [object_of exit_state heap] in *;
      split; assumption.
  - apply (compute_None o orientations n n_replicates) in Hm.
    rewrite Hm in Hout. discriminate.
Qed.

Lemma constructed_allocated t_initial t_final scale r4 rd o :
  CubaticOrderParameter t_initial t_final scale r4 rd = Constructed o ->
  allocated o /\ well_formed o.
Proof.
  unfold CubaticOrderParameter.
  destruct (flt t_initial t_final); [discriminate|].
  destruct (flt (to_double t_final) d_1em6); [discriminate|].
  destruct (fgt scale (of_int 1) || flt scale (of_int 0)); [discriminate|].
  intros [= <-]. unfold allocated, well_formed. cbn. repeat split.
Qed.

Lemma calls_allocated o o' : allocated o -> calls o o' -> allocated o'.
Proof.
  intros Hal Hc. induction Hc as [|o' orientations n n_replicates out _ IH Hout];
    [exact Hal|].
  apply (compute_allocated o' orientations n n_replicates out IH Hout).
Qed.

Lemma reachable_allocated o : reachable o -> allocated o.
Proof.
  intros (ti & tf & sc & r4 & rd & o0 & Hc & Hcalls).
  apply (calls_allocated o0 o); [|exact Hcalls].
  apply (constructed_allocated _ _ _ _ _ _ Hc).
Qed.

End ObjectFacts.

Lemma lookup_zip_with_total (f : float -> float -> float) (A B : list float) k :
  (k < length A)%nat -> (k < length B)%nat ->
  zip_with f A B !!! k = f (A !!! k) (B !!! k).
Proof.
  revert B k. induction A as [|a A IH]; intros [|b B] k HA HB;
    cbn [length] in *; try lia.
  destruct k as [|k]; [reflexivity|]. cbn. apply IH; lia.
Qed.

Lemma length_column_mean rows n : length (column_mean rows n) = 81%nat.
Proof. unfold column_mean. rewrite length_map, length_seq. reflexivity. Qed.

Lemma column_mean_lookup rows n k :
  (k < 81)%nat ->
  column_mean rows n !!! k
  = fmul (for_loop 0 n (fun j tensor_value =>
            fadd tensor_value (rows j !!! k)) fzero) (n_inv n).
Proof. intros Hk. unfold column_mean. apply lookup_map_seq. exact Hk. Qed.

Section CubaticClaims.

Context `{VectorMath} `{Libm} `{RandomEngine}.

Lemma anneal_loop_fuel fuel fuel' l e :
  anneal_loop fuel l = Some e -> (fuel <= fuel')%nat ->
  anneal_loop fuel' l = Some e.
Proof.
  revert fuel' l. induction fuel as [|fuel IH]; intros fuel' l.
  - rewrite anneal_loop_0. destruct (loop_guard l) eqn:Hg; [discriminate|].
    intros [= <-] _. destruct fuel'; [rewrite anneal_loop_0|rewrite anneal_loop_S];
      rewrite Hg; reflexivity.
  - rewrite anneal_loop_S. intros He Hle.
    destruct fuel' as [|fuel']; [lia|]. rewrite anneal_loop_S.
    destruct (loop_guard l); [|exact He].
    destruct (anneal_iteration l) as [what l'|l'|l']; [exact He| |];
      apply IH; [exact He|lia|exact He|lia].
Qed.

(** What a pass through the body of the loop does, by the score of its
    proposal. *)
Lemma iteration_law l :
  length (heap (self l) new_cubatic_tensor) = 81%nat ->
  let s := m_cubatic_order_parameter (self l) in
  let s' := candidate_score l in
  let test := fst (m_phi_dist (snd (proposal l))) in
  match anneal_iteration l with
  | Thrown what l' =>
      is_nan s' = true
      /\ t_current l' = t_current l
      /\ m_cubatic_order_parameter (self l') = s
      /\ m_cubatic_orientation (self l') = m_cubatic_orientation (self l)
  | Accepted l' =>
      is_nan s' = false
      /\ fgt s' s || fge (boltzmann l s') test = true
      /\ t_current l' = fmul (t_current l) (m_scale (self l))
      /\ loop_count l' = u32 (loop_count l + 1)
      /\ m_cubatic_order_parameter (self l') = s'
      /\ m_cubatic_orientation (self l') = fst (proposal l)
  | Rejected l' =>
      is_nan s' = false
      /\ fgt s' s || fge (boltzmann l s') test = false
      /\ t_current l' = t_current l
      /\ loop_count l' = u32 (loop_count l + 1)
      /\ m_cubatic_order_parameter (self l') = s
      /\ m_cubatic_orientation (self l') = m_cubatic_orientation (self l)
  end.
Proof.
  intros Hn. cbv zeta.
  destruct (anneal_iteration_cases l Hn) as (m & g & _ & _ & _ & Hcases).
  cbv zeta in Hcases.
  destruct Hcases
    as [(N & E)|[(N & G & E)|(N & G & test & Et & [(B & E)|(B & E)])]];
    rewrite E; cbn [t_current loop_count self keep commit
                    m_cubatic_order_parameter m_cubatic_orientation].
  - repeat split; assumption.
  - rewrite G. repeat split; assumption.
  - rewrite Et, G. cbn [fst orb]. repeat split; assumption.
  - rewrite Et, G. cbn [fst orb]. repeat split; assumption.
Qed.

(** C1: on every object of the program, made by the constructor and
    used through any calls of [compute], each call of [compute] that has
    a result, whether it returns or throws, leaves the retained score
    equal to [1 - |G - M|^2 / |M|^2] for the stored global tensor [G]
    and the stored cubatic tensor [M], the 81-element inner products
    summed in index order, with [M] the cubatic tensor of the retained
    orientation; a call without a result is one whose assembly stage
    writes past the particle array; and every commit in the loop
    re-establishes both, whatever held before. *)
Theorem retained_state_consistent o orientations n n_replicates :
  reachable o ->
  match compute o orientations n n_replicates with
  | Some out =>
      m_cubatic_order_parameter (object_of out)
      = T4.score (read (heap (object_of out)) (base m_global_tensor))
          (read (heap (object_of out)) (base m_cubatic_tensor))
      /\ tensor_consistent (object_of out)
  | None => ~ stage_in_bounds o n
  end
  /\ forall l,
       loop_buffers (heap (self l)) ->
       match anneal_iteration l with
       | Accepted l' =>
           m_cubatic_order_parameter (self l')
           = T4.score (read (heap (self l')) (base m_global_tensor))
               (read (heap (self l')) (base m_cubatic_tensor))
           /\ tensor_consistent (self l')
       | _ => True
       end.
Proof.
  intros Hr. pose proof (reachable_allocated o Hr) as Hal. split.
  - destruct (assemble o orientations n) as [m|] eqn:Hm.
    + destruct (compute_spec o orientations n n_replicates m Hal Hm)
        as (e & _ & (Hc & Ht & _) & ->).
      destruct e as [l|what l]; cbn [object_of exit_state] in *.
      * split; [exact Hc|exact Ht].
      * split; [exact Hc|exact Ht].
    + pose proof Hm as Hn.
      apply (compute_None o orientations n n_replicates) in Hn.
      rewrite Hn. apply (assemble_None o orientations n). exact Hm.
  - intros l Hb. destruct (iteration_invariant l Hb) as (_ & Hit).
    destruct (anneal_iteration l); [exact I|exact I|exact Hit].
Qed.

(** C2, as the code has it: the assembly stage of [compute] on [n]
    orientations has a result exactly when the [n*81] cells it clears
    and fills lie inside the particle array: when the array is allocated
    anew ([m_n] differs from [n]), if [n*81] is below 2^32, the product
    of line 492 being taken in [unsigned int]; otherwise if the array
    found has [n*81] cells.  Then entry [k] of the global tensor is the
    sum over the particles (from zero, in their order) of entry [k] of
    the particle tensors, times [1/n], minus entry [k] of the
    generator; row [i] of the particle-tensor array is the particle
    tensor [2 sum_j outer4(rotate(q_i, e_j))] when
    [ComputeParticleTensor] has run, and has the generator subtracted
    once the stage is over. *)
Theorem tensor_assembly o orientations n :
  reachable o ->
  (assemble o orientations n <> None
   <-> if (m_n o =? n)%nat
       then (n * 81 <= length (heap o m_particle_tensor))%nat
       else Z.of_nat n * 81 < 2 ^ 32)
  /\ (forall m', assemble o orientations n = Some m' ->
        let r4 := read (heap o) (base m_gen_r4_tensor) in
        (forall k, (k < 81)%nat ->
           read m' (base m_global_tensor) !!! k
           = fsub
               (fmul (for_loop 0 n (fun i sum =>
                        fadd sum (particle_row (orientations !!! i) !!! k))
                        fzero)
                     (n_inv n))
               (r4 !!! k))
        /\ (forall i, (i < n)%nat ->
              read m' (row (base m_particle_tensor) n i)
              = T4.sub (particle_row (orientations !!! i)) r4))
  /\ forall m i,
       (n * 81 <= length (m m_particle_tensor))%nat -> (i < n)%nat ->
       read (ComputeParticleTensor (base m_particle_tensor) orientations n
               (mk_range 0 n) m)
         (row (base m_particle_tensor) n i)
       = particle_row (orientations !!! i).
Proof.
  intros Hr. pose proof (reachable_allocated o Hr) as Hal.
  split; [|split].
  - rewrite <- stage_in_bounds_iff. split.
    + intros Hn. destruct (assemble o orientations n) as [m|] eqn:Hm;
        [|contradiction].
      apply (assemble_Some o orientations n m Hm).
    + intros Hin. rewrite (assemble_in_bounds o orientations n Hin).
      discriminate.
  - intros m' Hm. cbv zeta.
    destruct (assemble_Some o orientations n m' Hm) as (Hin & ->).
    destruct (assembled_spec o orientations n Hal Hin) as (HG & Hrows & _).
    split.
    + intros k Hk. rewrite HG. unfold T4.sub, global_mean.
      rewrite lookup_zip_with_total
        by (rewrite ?length_column_mean, ?length_read; exact Hk).
      rewrite column_mean_lookup by exact Hk. reflexivity.
    + exact Hrows.
  - intros m i Hlen Hi.
    destruct (ComputeParticleTensor_spec (base m_particle_tensor)
                orientations n m) as (Hrw & _).
    + cbn [base p_buf]. discriminate.
    + cbn [base p_buf]. discriminate.
    + cbn [base p_buf p_off]. lia.
    + apply Hrw. exact Hi.
Qed.

(** C7: the loop of [compute] is
    [while (t_current > m_t_final && loop_count < 10000) body]: where the
    guard fails it is left at once, where it holds the body runs and the
    loop goes on from the state the body leaves, or is left by its
    throw; from a count of at most 10000 it ends within the passes the
    count leaves, with the same result for any larger bound; so
    [compute] has a result whenever its assembly stage has one.  A pass
    through the body counts, and by the score [s'] of its proposal:
    throws when [s'] is NaN; otherwise commits and multiplies
    [t_current] by [m_scale] when [s'] is greater than the retained
    score or the Boltzmann factor is at least the draw; otherwise
    rejects, leaving [t_current], the retained score and the retained
    orientation unchanged. *)
Theorem annealing_terminates :
  (forall l,
     0 <= loop_count l <= 10000 ->
     exists e,
       (forall fuel, (Z.to_nat (10000 - loop_count l) <= fuel)%nat ->
          anneal_loop fuel l = Some e)
       /\ loop_count l <= loop_count (exit_state e) <= 10000
       /\ match e with
          | Exited l' =>
              fgt (t_current l') (m_t_final (self l'))
              && (loop_count l' <? 10000) = false
          | Raised _ _ => True
          end)
  /\ (forall o orientations n n_replicates,
        compute o orientations n n_replicates = None
        <-> assemble o orientations n = None)
  /\ (forall fuel l,
        fgt (t_current l) (m_t_final (self l)) && (loop_count l <? 10000)
        = false ->
        anneal_loop fuel l = Some (Exited l))
  /\ (forall fuel l,
        fgt (t_current l) (m_t_final (self l)) && (loop_count l <? 10000)
        = true ->
        anneal_loop (S fuel) l
        = match anneal_iteration l with
          | Thrown what l' => Some (Raised what l')
          | Rejected l' | Accepted l' => anneal_loop fuel l'
          end)
  /\ forall l,
       length (heap (self l) new_cubatic_tensor) = 81%nat ->
       let s := m_cubatic_order_parameter (self l) in
       let s' := candidate_score l in
       let test := fst (m_phi_dist (snd (proposal l))) in
       match anneal_iteration l with
       | Thrown what l' =>
           is_nan s' = true
           /\ t_current l' = t_current l
           /\ m_cubatic_order_parameter (self l') = s
           /\ m_cubatic_orientation (self l') = m_cubatic_orientation (self l)
       | Accepted l' =>
           is_nan s' = false
           /\ fgt s' s || fge (boltzmann l s') test = true
           /\ t_current l' = fmul (t_current l) (m_scale (self l))
           /\ loop_count l' = u32 (loop_count l + 1)
           /\ m_cubatic_order_parameter (self l') = s'
           /\ m_cubatic_orientation (self l') = fst (proposal l)
       | Rejected l' =>
           is_nan s' = false
           /\ fgt s' s || fge (boltzmann l s') test = false
           /\ t_current l' = t_current l
           /\ loop_count l' = u32 (loop_count l + 1)
           /\ m_cubatic_order_parameter (self l') = s
           /\ m_cubatic_orientation (self l') = m_cubatic_orientation (self l)
       end.
Proof.
  split; [|split; [|split; [|split]]].
  - intros l Hc.
    destruct (anneal_loop_total (Z.to_nat (10000 - loop_count l)) l)
      as (e & He); [lia|lia|].
    exists e. split; [|split].
    + intros fuel Hf. apply (anneal_loop_fuel _ fuel l e He Hf).
    + apply (anneal_loop_count _ l e He Hc).
    + pose proof (anneal_loop_exit (Z.to_nat (10000 - loop_count l)) l) as Hx.
      rewrite He in Hx. destruct e; [exact Hx|exact I].
  - intros o orientations n n_replicates. apply compute_None.
  - intros fuel l Hg. fold (loop_guard l) in Hg.
    destruct fuel; [rewrite anneal_loop_0|rewrite anneal_loop_S];
      rewrite Hg; reflexivity.
  - intros fuel l Hg. fold (loop_guard l) in Hg.
    rewrite anneal_loop_S, Hg. reflexivity.
  - exact iteration_law.
Qed.

(** C9, as the code has it: a committed proposal either has a score
    strictly greater than the retained one (the greedy test of line
    552), or a score that is not greater and a Boltzmann factor
    [exp(-(s - s') / t_current)] at least the uniform draw (the test of
    line 562); in both cases the committed score is the candidate's. *)
Theorem accepted_score_order l :
  match anneal_iteration l with
  | Accepted l' =>
      let s := m_cubatic_order_parameter (self l) in
      let s' := m_cubatic_order_parameter (self l') in
      fgt s' s = true
      \/ (fgt s' s = false
          /\ fge (boltzmann l s') (fst (m_phi_dist (snd (proposal l)))) = true)
  | _ => True
  end.
Proof.
  unfold anneal_iteration, boltzmann, proposal.
  destruct (random_axis (m_gen (self l))) as [axis g1].
  destruct (m_angle_dist g1) as [a g2]. cbn [snd].
  destruct (calcCubaticOrderParameter _ _) as [s' m2].
  destruct (fne s' s'); [exact I|].
  destruct (fgt s' (m_cubatic_order_parameter (self l))) eqn:Hgt.
  - cbv zeta. cbn [self commit m_cubatic_order_parameter]. left. exact Hgt.
  - destruct (m_phi_dist g2) as [test g3]. cbn [fst].
    destruct (fge _ test) eqn:Hb; [|exact I].
    cbv zeta. cbn [self commit m_cubatic_order_parameter]. right.
    split; [exact Hgt|exact Hb].
Qed.

End CubaticClaims.

(** ** Scores that are not numbers *)

Lemma sub_nan_l n (R : list float) :
  length R = n -> zip_with fsub (replicate n nan) R = replicate n nan.
Proof.
  revert R. induction n as [|n IH]; intros [|x R] Hlen;
    try discriminate Hlen; [reflexivity|].
  cbn [replicate zip_with]. rewrite IH by (cbn in Hlen; lia). reflexivity.
Qed.

Lemma fdiv_nan_l a : fdiv nan a = nan.
Proof. destruct a; reflexivity. Qed.

Lemma dot_nan : T4.dot (replicate 81 nan) (replicate 81 nan) = nan.
Proof. vm_compute. reflexivity. Qed.

(** A global tensor of NaNs gives the score NaN, whatever the tensor it
    is compared with. *)
Lemma score_nan_global (M : list float) :
  length M = 81%nat -> T4.score (replicate 81 nan) M = nan.
Proof.
  intros Hlen. unfold T4.score, T4.sub.
  rewrite (sub_nan_l 81 M Hlen), dot_nan, fdiv_nan_l. vm_compute. reflexivity.
Qed.

Lemma mean_of_none : fmul fzero (n_inv 0) = nan.
Proof. vm_compute. reflexivity. Qed.

Lemma column_mean_none rows : column_mean rows 0 = replicate 81 nan.
Proof.
  unfold column_mean.
  rewrite (map_ext _ (fun _ => nan)); [exact eq_refl|].
  intros k. rewrite for_loop_0. apply mean_of_none.
Qed.

Lemma length_cubatic_tensor_of `{VectorMath} orientation (r4 : list float) :
  length r4 = 81%nat -> length (cubatic_tensor_of orientation r4) = 81%nat.
Proof.
  intros Hlen. unfold cubatic_tensor_of, T4.sub, T4.mul_scalar, T4.add,
    T4.outer4, T4.zero.
  rewrite length_zip_with, length_map, !length_zip_with, !length_map,
    length_replicate, length_seq, Hlen. reflexivity.
Qed.

Section NanFacts.

Context `{VectorMath} `{Libm} `{RandomEngine}.

(** C8, the code at the failing input: [compute] on no particle stores
    the score NaN at line 525, and the object keeps it whether the call
    then throws at the first proposal or, when the loop is not entered
    ([t_initial > t_final] fails), returns. *)
Theorem zero_particles_retain_nan o orientations n_replicates :
  well_formed o ->
  exists out,
    compute o orientations 0 n_replicates = Some out
    /\ is_nan (m_cubatic_order_parameter (object_of out)) = true
    /\ (fgt (m_t_initial o) (m_t_final o) = false ->
        exists o', out = Returned o').
Proof.
  intros Hwf.
  pose proof (well_formed_allocated o Hwf) as Hal.
  assert (Hin : stage_in_bounds o 0)
    by (apply well_formed_in_bounds; [exact Hwf|lia]).
  pose proof (assemble_in_bounds o orientations 0 Hin) as Hm.
  destruct (compute_spec o orientations 0 n_replicates _ Hal Hm)
    as (e & He & (Hc & _ & _) & Hcomp).
  destruct (assembled_spec o orientations 0 Hal Hin) as (HG & _ & HM & _).
  destruct Hwf as (_ & HlenM & _).
  set (m := assembled o orientations 0) in *.
  destruct (anneal_start_spec o m) as ((_ & _ & Hbuf) & HsG & _).
  { rewrite HM. exact HlenM. }
  assert (HGe : read (heap (self (exit_state e))) (base m_global_tensor)
                = replicate 81 nan).
  { rewrite (read_same_buf _ m).
    - rewrite HG. unfold global_mean. rewrite column_mean_none.
      apply (sub_nan_l 81). apply length_read.
    - cbn [base p_buf].
      rewrite (anneal_loop_frame _ _ e m_global_tensor Hbuf (or_introl eq_refl) He).
      exact HsG. }
  exists (match e with
          | Raised what l => runtime_error what (self l)
          | Exited l =>
              Returned
                {| m_t_initial := m_t_initial (self l);
                   m_t_final := m_t_final (self l);
                   m_scale := m_scale (self l);
                   m_n := 0; m_n_replicates := n_replicates;
                   m_cubatic_orientation := m_cubatic_orientation (self l);
                   m_cubatic_order_parameter :=
                     m_cubatic_order_parameter (self l);
                   heap := heap (self l); m_gen := m_gen (self l) |}
          end).
  split; [exact Hcomp|]. split.
  - assert (Hs : m_cubatic_order_parameter (self (exit_state e)) = nan).
    { rewrite Hc, HGe. apply score_nan_global, length_read. }
    destruct e as [l|what l]; cbn [object_of exit_state] in *;
      cbn [m_cubatic_order_parameter]; rewrite Hs; reflexivity.
  - intros Hgt.
    assert (Hguard : loop_guard (anneal_start o m) = false).
    { unfold loop_guard.
      destruct (anneal_start_temperature o m) as (-> & ->).
      rewrite Hgt. reflexivity. }
    assert (Z.to_nat 10000 = S (Z.to_nat 9999)) as Hfuel by lia.
    rewrite Hfuel, anneal_loop_S, Hguard in He.
    injection He as <-. eauto.
Qed.

End NanFacts.

(** ** PMFXYZ: the binning kernels *)

Lemma fold_left_flat_map {A B St : Type} (f : St -> B -> St) (h : A -> list B)
  (l : list A) (s : St) :
  fold_left f (flat_map h l) s
  = fold_left (fun s a => fold_left f (h a) s) l s.
Proof.
  revert s. induction l as [|a l IH]; intros s; [reflexivity|].
  cbn [flat_map fold_left]. rewrite fold_left_app. apply IH.
Qed.

Lemma fold_left_map_list {A B St : Type} (f : St -> B -> St) (k : A -> B)
  (l : list A) (s : St) :
  fold_left f (map k l) s = fold_left (fun s x => f s (k x)) l s.
Proof.
  revert s. induction l as [|a l IH]; intros s; [reflexivity|].
  cbn [map fold_left]. apply IH.
Qed.

Lemma fold_left_ext_list {A St : Type} (f g : St -> A -> St) (l : list A) (s : St) :
  (forall s a, f s a = g s a) -> fold_left f l s = fold_left g l s.
Proof.
  intros Hfg. revert s. induction l as [|a l IH]; intros s; [reflexivity|].
  cbn [fold_left]. rewrite Hfg. apply IH.
Qed.

Lemma cvtt_ss2si_range a : - 2 ^ 31 <= cvtt_ss2si a < 2 ^ 31.
Proof.
  unfold cvtt_ss2si, INT_MIN. destruct a as [s|s| |s m e]; try lia.
  cbv zeta.
  destruct ((- 2 ^ 31 <=? _) && (_ <? 2 ^ 31)) eqn:Hr; [|lia].
  apply andb_true_iff in Hr. destruct Hr as (H1 & H2).
  apply Z.leb_le in H1. apply Z.ltb_lt in H2. lia.
Qed.

(** The unsigned comparison of the kernels is a two-sided range check on
    the converted [int]. *)
Lemma unsigned_bound_check b n :
  - 2 ^ 31 <= b < 2 ^ 31 -> 0 <= n <= 2 ^ 31 ->
  (u32 b <? n) = (0 <=? b) && (b <? n).
Proof.
  intros Hb Hn. unfold u32.
  destruct (Z.leb_spec 0 b) as [Hp|Hneg]; cbn [andb].
  - rewrite Z.mod_small by lia. reflexivity.
  - apply Z.ltb_ge.
    assert (E : b mod 2 ^ 32 = b + 2 ^ 32).
    { symmetry. apply Z.mod_unique with (q := -1); lia. }
    lia.
Qed.

Section BinningFacts.

Context `{VectorMath} `{LinkCellOps}.

Import PMFXYZ.

Lemma direct_kernel_pairs f r pcf :
  ComputePMFTWithoutCellList f r pcf = bin_pairs f (direct_pairs f r) pcf.
Proof.
  unfold ComputePMFTWithoutCellList, bin_pairs, direct_pairs, for_loop.
  rewrite fold_left_flat_map. apply fold_left_ext_list. intros s i.
  rewrite fold_left_map_list. reflexivity.
Qed.

Lemma cell_kernel_pairs f lc r pcf :
  ComputePMFTWithCellList f lc r pcf = bin_pairs f (cell_pairs f lc r) pcf.
Proof.
  unfold ComputePMFTWithCellList, bin_pairs, cell_pairs, for_loop, for_each.
  rewrite fold_left_flat_map. apply fold_left_ext_list. intros s i.
  rewrite fold_left_flat_map. apply fold_left_ext_list. intros s' c.
  rewrite fold_left_map_list. reflexivity.
Qed.

Lemma bin_pair_cases f i j pcf :
  grid_sized f ->
  let delta := displacement f i j in
  let v := body_frame f i delta in
  let bx := bin_index (vx v) (f_max_x f) (f_dx f) in
  let by_ := bin_index (vy v) (f_max_y f) (f_dy f) in
  let bz := bin_index (vz v) (f_max_z f) (f_dz f) in
  bin_pair f (fdiv fone (f_dx f)) (fdiv fone (f_dy f)) (fdiv fone (f_dz f))
    i j pcf
  = if coincident delta then pcf
    else if (0 <=? bx) && (bx <? f_nbins_x f)
            && ((0 <=? by_) && (by_ <? f_nbins_y f))
            && ((0 <=? bz) && (bz <? f_nbins_z f))
    then
      let cell := Z.to_nat (bz * f_nbins_y f * f_nbins_x f
                            + by_ * f_nbins_x f + bx) in
      <[cell := u32 (pcf !!! cell + 1)]> pcf
    else pcf.
Proof.
  intros (Hx & Hy & Hz & Hcells). cbv zeta.
  unfold bin_pair, coincident, displacement, body_frame, bin_index.
  cbv zeta.
  destruct (_ && _ && _) eqn:Hco; [reflexivity|].
  set (bx := cvtt_ss2si (floorf (fmul (fadd (vx _) (f_max_x f)) _))).
  set (by_ := cvtt_ss2si (floorf (fmul (fadd (vy _) (f_max_y f)) _))).
  set (bz := cvtt_ss2si (floorf (fmul (fadd (vz _) (f_max_z f)) _))).
  pose proof (cvtt_ss2si_range
                (floorf (fmul (fadd (vx (body_frame f i (displacement f i j)))
                                 (f_max_x f)) (fdiv fone (f_dx f))))) as Rx.
  assert (Rx' : - 2 ^ 31 <= bx < 2 ^ 31) by apply cvtt_ss2si_range.
  assert (Ry' : - 2 ^ 31 <= by_ < 2 ^ 31) by apply cvtt_ss2si_range.
  assert (Rz' : - 2 ^ 31 <= bz < 2 ^ 31) by apply cvtt_ss2si_range.
  rewrite (unsigned_bound_check bx _ Rx' Hx),
    (unsigned_bound_check by_ _ Ry' Hy), (unsigned_bound_check bz _ Rz' Hz).
  destruct ((0 <=? bx) && (bx <? f_nbins_x f)
            && ((0 <=? by_) && (by_ <? f_nbins_y f))
            && ((0 <=? bz) && (bz <? f_nbins_z f))) eqn:Hin; [|reflexivity].
  apply andb_true_iff in Hin. destruct Hin as (Hin & Hbz).
  apply andb_true_iff in Hin. destruct Hin as (Hbx & Hby).
  apply andb_true_iff in Hbx. destruct Hbx as (Hbx0 & Hbx1).
  apply andb_true_iff in Hby. destruct Hby as (Hby0 & Hby1).
  apply andb_true_iff in Hbz. destruct Hbz as (Hbz0 & Hbz1).
  apply Z.leb_le in Hbx0, Hby0, Hbz0. apply Z.ltb_lt in Hbx1, Hby1, Hbz1.
  rewrite (u32_small bx), (u32_small by_), (u32_small bz) by lia.
  rewrite (u32_small (bz * f_nbins_y f * f_nbins_x f + by_ * f_nbins_x f + bx)).
  - reflexivity.
  - split; [nia|].
    assert (bz * f_nbins_y f * f_nbins_x f + by_ * f_nbins_x f + bx
            < f_nbins_x f * f_nbins_y f * f_nbins_z f); [|lia].
    assert (by_ * f_nbins_x f + bx < f_nbins_y f * f_nbins_x f) by nia.
    assert ((bz + 1) * (f_nbins_y f * f_nbins_x f)
            <= f_nbins_z f * (f_nbins_y f * f_nbins_x f)) by nia.
    nia.
Qed.

End BinningFacts.

(** ** The floor of a float and its conversion to [int] *)

Lemma digits2_pos_log2 m : Zpos (digits2_pos m) = Z.log2 (Zpos m) + 1.
Proof.
  assert (Hs : forall p, digits2_pos p = Pos.size p).
  { induction p as [p IH|p IH|]; cbn; [rewrite IH|rewrite IH|]; reflexivity. }
  destruct m as [p|p|]; cbn [digits2_pos Z.log2]; rewrite ?Hs; lia.
Qed.

Lemma digits2_pos_bound m k :
  0 <= k -> Zpos m < 2 ^ k -> Zpos (digits2_pos m) <= k.
Proof.
  intros Hk Hm. rewrite digits2_pos_log2.
  assert (Z.log2 (Zpos m) < k); [|lia].
  apply Z.log2_lt_pow2; lia.
Qed.

Lemma digits2_pos_lt m : Zpos m < 2 ^ Zpos (digits2_pos m).
Proof.
  rewrite digits2_pos_log2.
  pose proof (Z.log2_spec (Zpos m) ltac:(lia)) as Hl.
  replace (Z.log2 (Z.pos m) + 1) with (Z.succ (Z.log2 (Z.pos m))) by lia.
  lia.
Qed.

Lemma shiftr_shiftl_same a k : 0 <= k -> Z.shiftr (Z.shiftl a k) k = a.
Proof.
  intros Hk. rewrite Z.shiftr_shiftl_l by lia.
  rewrite Z.sub_diag. apply Z.shiftl_0_r.
Qed.

Lemma shiftl_pos_pos p k : 0 <= k -> 0 < Z.shiftl (Zpos p) k.
Proof.
  intros Hk. rewrite Z.shiftl_mul_pow2 by exact Hk.
  assert (0 < 2 ^ k) by (apply Z.pow_pos_nonneg; lia). nia.
Qed.

(** The canonical float of a small integer converts back to it. *)
Lemma cvtt_of_small_int n szero :
  - 2 ^ 24 < n < 2 ^ 24 -> cvtt_ss2si (of_small_int n szero) = n.
Proof.
  intros Hn. unfold of_small_int.
  destruct n as [|p|p]; [reflexivity| |].
  - cbv zeta. unfold cvtt_ss2si, prec32, INT_MIN.
    assert (Hd : Zpos (digits2_pos p) <= 24) by (apply digits2_pos_bound; lia).
    set (d := Zpos (digits2_pos p)) in *.
    assert (Hm : Zpos (Z.to_pos (Z.shiftl (Zpos p) (24 - d)))
                 = Z.shiftl (Zpos p) (24 - d)).
    { apply Z2Pos.id. apply shiftl_pos_pos. lia. }
    rewrite Hm. cbn [cond_Zopp].
    assert (Hv : (if 0 <=? d - 24
                  then Z.shiftl (Z.shiftl (Zpos p) (24 - d)) (d - 24)
                  else Z.shiftr (Z.shiftl (Zpos p) (24 - d)) (- (d - 24)))
                 = Zpos p).
    { destruct (Z.leb_spec 0 (d - 24)) as [Hge|Hlt].
      - replace (d - 24) with 0 by lia. replace (24 - d) with 0 by lia.
        rewrite !Z.shiftl_0_r. reflexivity.
      - replace (- (d - 24)) with (24 - d) by lia.
        apply shiftr_shiftl_same. lia. }
    rewrite Hv.
    destruct (Z.leb_spec (- 2 ^ 31) (Zpos p)); [|lia].
    destruct (Z.ltb_spec (Zpos p) (2 ^ 31)); [reflexivity|lia].
  - cbv zeta. unfold cvtt_ss2si, prec32, INT_MIN.
    assert (Hd : Zpos (digits2_pos p) <= 24) by (apply digits2_pos_bound; lia).
    set (d := Zpos (digits2_pos p)) in *.
    assert (Hm : Zpos (Z.to_pos (Z.shiftl (Zpos p) (24 - d)))
                 = Z.shiftl (Zpos p) (24 - d)).
    { apply Z2Pos.id. apply shiftl_pos_pos. lia. }
    rewrite Hm. cbn [cond_Zopp].
    assert (Hv : (if 0 <=? d - 24
                  then Z.shiftl (Z.shiftl (Zpos p) (24 - d)) (d - 24)
                  else Z.shiftr (Z.shiftl (Zpos p) (24 - d)) (- (d - 24)))
                 = Zpos p).
    { destruct (Z.leb_spec 0 (d - 24)) as [Hge|Hlt].
      - replace (d - 24) with 0 by lia. replace (24 - d) with 0 by lia.
        rewrite !Z.shiftl_0_r. reflexivity.
      - replace (- (d - 24)) with (24 - d) by lia.
        apply shiftr_shiftl_same. lia. }
    rewrite Hv.
    destruct (Z.leb_spec (- 2 ^ 31) (- Zpos p)); [|lia].
    destruct (Z.ltb_spec (- Zpos p) (2 ^ 31)); [reflexivity|lia].
Qed.

(** A valid binary32 number of negative exponent has a mantissa of at
    most 24 bits. *)
Lemma valid_mantissa s m e :
  valid_binary prec32 emax32 (S754_finite s m e) = true ->
  Zpos m < 2 ^ 24.
Proof.
  unfold valid_binary, bounded, canonical_mantissa, fexp, emin, prec32, emax32.
  intros Hv. apply andb_true_iff in Hv. destruct Hv as (Hc & _).
  apply Z.eqb_eq in Hc.
  pose proof (digits2_pos_lt m) as Hlt.
  assert (Hd : Zpos (digits2_pos m) <= 24) by lia.
  assert (2 ^ Zpos (digits2_pos m) <= 2 ^ 24)
    by (apply Z.pow_le_mono_r; lia).
  lia.
Qed.

Lemma cvtt_floorf a :
  valid_binary prec32 emax32 a = true ->
  cvtt_ss2si (floorf a) = floor_int a.
Proof.
  intros Hv. unfold floor_int.
  destruct a as [s|s| |s m e]; try reflexivity.
  unfold floorf, floorZ.
  destruct (Z.leb_spec 0 e) as [He|He].
  - unfold cvtt_ss2si. rewrite (proj2 (Z.leb_le 0 e) He). cbv zeta.
    assert (E : cond_Zopp s (Z.shiftl (Zpos m) e)
                = Z.shiftl (cond_Zopp s (Zpos m)) e).
    { destruct s; cbn [cond_Zopp]; [|reflexivity].
      rewrite !Z.shiftl_mul_pow2 by exact He. lia. }
    rewrite E. reflexivity.
  - pose proof (valid_mantissa s m e Hv) as Hm.
    set (n := Z.shiftr (cond_Zopp s (Zpos m)) (- e)).
    assert (Hn : - 2 ^ 24 < n < 2 ^ 24).
    { unfold n. rewrite Z.shiftr_div_pow2 by lia.
      assert (Hp : 0 < 2 ^ (- e)) by (apply Z.pow_pos_nonneg; lia).
      assert (H2 : 2 <= 2 ^ (- e)).
      { replace 2 with (2 ^ 1) at 1 by reflexivity.
        apply Z.pow_le_mono_r; lia. }
      destruct s; cbn [cond_Zopp].
      - split.
        + assert (- Zpos m <= - Zpos m / 2 ^ (- e)); [|lia].
          apply Z.div_le_lower_bound; [lia|]. nia.
        + assert (- Zpos m / 2 ^ (- e) < 0); [|lia].
          apply Z.div_lt_upper_bound; lia.
      - split.
        + assert (0 <= Zpos m / 2 ^ (- e)) by (apply Z.div_pos; lia). lia.
        + assert (Zpos m / 2 ^ (- e) <= Zpos m); [|lia].
          apply Z.div_le_upper_bound; [lia|]. nia. }
    rewrite (cvtt_of_small_int n s Hn).
    unfold INT_MIN.
    destruct (Z.leb_spec (- 2 ^ 31) n); [|lia].
    destruct (Z.ltb_spec n (2 ^ 31)); [reflexivity|lia].
Qed.

(** ** PMFXYZ: what one pair does to the histogram *)

Section PairFacts.

Context `{VectorMath} `{LinkCellOps}.

Import PMFXYZ.

Lemma bin_pair_count f i j pcf :
  grid_sized f ->
  bin_pair f (fdiv fone (f_dx f)) (fdiv fone (f_dy f)) (fdiv fone (f_dz f))
    i j pcf
  = count_pair f pcf (i, j).
Proof.
  intros Hg. rewrite (bin_pair_cases f i j pcf Hg). cbv zeta.
  unfold count_pair, pair_cell, increment. cbn [fst snd]. cbv zeta.
  destruct (coincident (displacement f i j)); [reflexivity|].
  destruct (_ && _ && _); reflexivity.
Qed.

Lemma bin_pairs_count f pairs pcf :
  grid_sized f -> bin_pairs f pairs pcf = fold_left (count_pair f) pairs pcf.
Proof.
  intros Hg. unfold bin_pairs. apply fold_left_ext_list. intros s [i j].
  cbn [fst snd]. apply bin_pair_count. exact Hg.
Qed.

(** A cell a pair is counted in lies inside the grid. *)
Lemma pair_cell_bound f i j cell :
  grid_sized f -> pair_cell f i j = Some cell ->
  (cell < Z.to_nat (f_nbins_x f * f_nbins_y f * f_nbins_z f))%nat.
Proof.
  intros (Hx & Hy & Hz & Hcells). unfold pair_cell. cbv zeta.
  destruct (coincident _); [discriminate|].
  set (bx := bin_index (vx _) _ _). set (by_ := bin_index (vy _) _ _).
  set (bz := bin_index (vz _) _ _).
  destruct (_ && _ && _) eqn:Hin; [|discriminate].
  intros E. injection E as <-.
  apply andb_true_iff in Hin. destruct Hin as (Hin & Hbz).
  apply andb_true_iff in Hin. destruct Hin as (Hbx & Hby).
  apply andb_true_iff in Hbx. destruct Hbx as (Hbx0 & Hbx1).
  apply andb_true_iff in Hby. destruct Hby as (Hby0 & Hby1).
  apply andb_true_iff in Hbz. destruct Hbz as (Hbz0 & Hbz1).
  apply Z.leb_le in Hbx0, Hby0, Hbz0. apply Z.ltb_lt in Hbx1, Hby1, Hbz1.
  apply Z2Nat.inj_lt; [nia|nia|].
  assert (by_ * f_nbins_x f + bx < f_nbins_y f * f_nbins_x f) by nia.
  assert ((bz + 1) * (f_nbins_y f * f_nbins_x f)
          <= f_nbins_z f * (f_nbins_y f * f_nbins_x f)) by nia.
  nia.
Qed.

Lemma length_increment cell pcf : length (increment cell pcf) = length pcf.
Proof. unfold increment. apply length_insert. Qed.

Lemma increment_lookup cell pcf k :
  (cell < length pcf)%nat ->
  increment cell pcf !!! k
  = if decide (k = cell) then u32 (pcf !!! cell + 1) else pcf !!! k.
Proof.
  intros Hc. unfold increment. destruct (decide (k = cell)) as [->|Hne].
  - apply list_lookup_total_insert_eq. exact Hc.
  - apply list_lookup_total_insert_ne. congruence.
Qed.

End PairFacts.

(** ** The constructors *)

Lemma flt_irrefl a : flt a a = false.
Proof.
  unfold flt, SFltb.
  destruct a as [s|s| |s m e]; try (destruct s; reflexivity); [reflexivity|].
  rewrite SFcompare_refl_finite. reflexivity.
Qed.

Lemma fgt_flt a b : fgt a b = flt b a.
Proof. reflexivity. Qed.

(** A step of zero gives an infinite or undefined quotient, whose
    conversion to [int] is the "integer indefinite" value. *)
Lemma nbins_zero_step max : PMFXYZ.nbins max fzero = 2 ^ 31.
Proof.
  unfold PMFXYZ.nbins.
  destruct max as [s|s| |s m e]; try (destruct s; reflexivity); reflexivity.
Qed.

Section ConstructorFacts.

Context `{VectorMath} `{Libm} `{RandomEngine} `{LinkCellOps}.

(** What makes [CubaticOrderParameter::CubaticOrderParameter] throw. *)
Lemma CubaticOrderParameter_throws t_initial t_final scale r4 rd :
  throws (CubaticOrderParameter t_initial t_final scale r4 rd)
  = flt t_initial t_final
    || flt (to_double t_final) d_1em6
    || (fgt scale (of_int 1) || flt scale (of_int 0)).
Proof.
  unfold CubaticOrderParameter.
  destruct (flt t_initial t_final); [reflexivity|].
  destruct (flt (to_double t_final) d_1em6); [reflexivity|].
  destruct (fgt scale (of_int 1) || flt scale (of_int 0)); reflexivity.
Qed.

(** What makes [PMFXYZ::PMFXYZ] throw. *)
Lemma PMFXYZ_throws box max_x max_y max_z dx dy dz :
  throws (PMFXYZ.PMFXYZ box max_x max_y max_z dx dy dz)
  = flt dx fzero || flt dy fzero || flt dz fzero
    || (flt max_x fzero || flt max_y fzero || flt max_z fzero)
    || (fgt dx max_x || fgt dy max_y || fgt dz max_z)
    || (fgt max_x (fdiv (getLx box) (of_int 2))
        || fgt max_y (fdiv (getLy box) (of_int 2))
        || fgt max_z (fdiv (getLz box) (of_int 2)) && negb (is2D box)).
Proof.
  unfold PMFXYZ.PMFXYZ.
  destruct (flt dx fzero); [reflexivity|].
  destruct (flt dy fzero); [reflexivity|].
  destruct (flt dz fzero); [reflexivity|].
  destruct (flt max_x fzero); [reflexivity|].
  destruct (flt max_y fzero); [reflexivity|].
  destruct (flt max_z fzero); [reflexivity|].
  destruct (fgt dx max_x); [reflexivity|].
  destruct (fgt dy max_y); [reflexivity|].
  destruct (fgt dz max_z); [reflexivity|].
  destruct (fgt max_x (fdiv (getLx box) (of_int 2))
            || fgt max_y (fdiv (getLy box) (of_int 2))); [reflexivity|].
  destruct (fgt max_z (fdiv (getLz box) (of_int 2)) && negb (is2D box));
    [reflexivity|].
  cbv zeta. destruct (_ <=? _); reflexivity.
Qed.

(** The grid of a constructed object. *)
Lemma PMFXYZ_constructed box max_x max_y max_z dx dy dz g :
  PMFXYZ.PMFXYZ box max_x max_y max_z dx dy dz = Constructed g ->
  PMFXYZ.m_box g = box
  /\ PMFXYZ.m_max_x g = max_x /\ PMFXYZ.m_max_y g = max_y
  /\ PMFXYZ.m_max_z g = max_z
  /\ PMFXYZ.m_dx g = dx /\ PMFXYZ.m_dy g = dy /\ PMFXYZ.m_dz g = dz
  /\ PMFXYZ.m_nbins_x g = PMFXYZ.nbins max_x dx
  /\ PMFXYZ.m_nbins_y g = PMFXYZ.nbins max_y dy
  /\ PMFXYZ.m_nbins_z g = PMFXYZ.nbins max_z dz
  /\ PMFXYZ.m_pcf_array g
     = replicate
         (Z.to_nat (u32 (PMFXYZ.nbins max_x dx * PMFXYZ.nbins max_y dy
                         * PMFXYZ.nbins max_z dz))) 0.
Proof.
  intros Hc. unfold PMFXYZ.PMFXYZ in Hc.
  repeat match type of Hc with
         | (if ?c then invalid_argument _ else _) = _ =>
             destruct c; [discriminate Hc|]
         end.
  cbv zeta in Hc.
  match type of Hc with
  | (if ?c then _ else _) = _ => destruct c; [|discriminate Hc]
  end.
  injection Hc as <-. cbn. repeat split.
Qed.

(** C5, the code at the failing input: equal temperatures pass the
    check of line 30, whose message asks for [t_initial] greater than
    [t_final]; the object is constructed with both. *)
Theorem equal_temperatures_constructed t scale r4 rd :
  flt (to_double t) d_1em6 = false ->
  fgt scale (of_int 1) = false -> flt scale (of_int 0) = false ->
  exists o,
    CubaticOrderParameter t t scale r4 rd = Constructed o
    /\ m_t_initial o = t /\ m_t_final o = t.
Proof.
  intros Ht Hs1 Hs0. unfold CubaticOrderParameter.
  rewrite flt_irrefl, Ht, Hs1, Hs0. cbn [orb].
  eexists. split; [reflexivity|]. split; reflexivity.
Qed.

(** C6, the code at the failing input: wherever the constructor does
    not throw, it does not throw either with the step [dx] set to zero,
    which the check of line 32 ("dx must be positive") lets through.
    The number of bins along x is then 2^31, and as soon as the y-z
    plane has two cells the [memset] of line 91 runs past the histogram
    allocated at line 90, whose size has wrapped: the constructor
    neither throws nor builds an object. *)
Theorem zero_step_not_rejected box max_x max_y max_z dx dy dz :
  throws (PMFXYZ.PMFXYZ box max_x max_y max_z dx dy dz) = false ->
  throws (PMFXYZ.PMFXYZ box max_x max_y max_z fzero dy dz) = false
  /\ PMFXYZ.nbins max_x fzero = 2 ^ 31
  /\ (2 <= PMFXYZ.nbins max_y dy * PMFXYZ.nbins max_z dz < 2 ^ 31 ->
      PMFXYZ.PMFXYZ box max_x max_y max_z fzero dy dz = undefined)
  /\ forall g,
       PMFXYZ.PMFXYZ box max_x max_y max_z fzero dy dz = Constructed g ->
       PMFXYZ.m_dx g = fzero /\ PMFXYZ.m_nbins_x g = 2 ^ 31.
Proof.
  intros Hacc. rewrite PMFXYZ_throws in Hacc.
  repeat (apply orb_false_iff in Hacc; destruct Hacc as (Hacc & ?)).
  assert (Ht : throws (PMFXYZ.PMFXYZ box max_x max_y max_z fzero dy dz) = false).
  { rewrite PMFXYZ_throws.
    repeat match goal with
           | K : _ || _ = false |- _ =>
               apply orb_false_iff in K; destruct K
           end.
    rewrite flt_irrefl, (fgt_flt fzero max_x).
    repeat match goal with K : _ = false |- _ => rewrite K; clear K end.
    reflexivity. }
  split; [exact Ht|]. split; [apply nbins_zero_step|].
  unfold PMFXYZ.PMFXYZ in *.
  repeat match type of Ht with
         | throws (if ?c then _ else _) = false =>
             destruct c; [discriminate Ht|]
         end.
  cbv zeta. rewrite (nbins_zero_step max_x).
  set (q := PMFXYZ.nbins max_y dy * PMFXYZ.nbins max_z dz).
  replace (2 ^ 31 * PMFXYZ.nbins max_y dy * PMFXYZ.nbins max_z dz)
    with (2 ^ 31 * q) by (unfold q; ring).
  replace (4 * 2 ^ 31 * PMFXYZ.nbins max_y dy * PMFXYZ.nbins max_z dz)
    with (4 * (2 ^ 31 * q)) by (unfold q; ring).
  split.
  - intros Hq.
    assert (Hc : (4 * (2 ^ 31 * q)) mod 2 ^ 64 / 4 = 2 ^ 31 * q).
    { rewrite Z.mod_small by lia.
      replace (4 * (2 ^ 31 * q)) with (2 ^ 31 * q * 4) by ring.
      apply Z.div_mul. lia. }
    rewrite Hc.
    pose proof (Z.mod_pos_bound (2 ^ 31 * q) (2 ^ 32) ltac:(lia)) as Hm.
    unfold u32.
    destruct (Z.leb_spec (2 ^ 31 * q) ((2 ^ 31 * q) mod 2 ^ 32)) as [K|_];
      [lia|reflexivity].
  - intros g.
    match goal with
    | |- (if ?c then _ else _) = _ -> _ => destruct c; [|discriminate]
    end.
    intros [= <-]. split; reflexivity.
Qed.

End ConstructorFacts.

(** ** The claims on the binning kernels *)

Section BinningClaims.

Context `{VectorMath} `{LinkCellOps}.

Import PMFXYZ.

(** C3, as the code has it: both kernels count their pairs one after the
    other with [count_pair].  A pair whose wrapped displacement has its
    three squares below 1e-6 is skipped; otherwise the displacement is
    taken to the body frame,
    [v = rotate(extra_orientations[i], rotate(conj(ref_orientations[i]), delta))],
    the bin of each axis is the floor of the float product
    [(v.a + max_a) * (1/d_a)], the reciprocal [1/d_a] rounded once
    before the loops, and exactly when the three bins lie in
    [0, nbins_a) the cell [bz*ny*nx + by*nx + bx], which is inside the
    grid, is incremented by one; any other pair leaves the histogram
    unchanged. *)
Theorem kernels_count_pairs f lc r pcf :
  grid_sized f ->
  ComputePMFTWithoutCellList f r pcf
  = fold_left (count_pair f) (direct_pairs f r) pcf
  /\ ComputePMFTWithCellList f lc r pcf
     = fold_left (count_pair f) (cell_pairs f lc r) pcf
  /\ forall i j cell,
       pair_cell f i j = Some cell ->
       (cell < Z.to_nat (f_nbins_x f * f_nbins_y f * f_nbins_z f))%nat.
Proof.
  intros Hg. split; [|split].
  - rewrite direct_kernel_pairs. apply bin_pairs_count. exact Hg.
  - rewrite cell_kernel_pairs. apply bin_pairs_count. exact Hg.
  - intros i j cell. apply pair_cell_bound. exact Hg.
Qed.

End BinningClaims.

(** ** Examples on the reference instances *)

Lemma example_object_constructed :
  CubaticOrderParameter (B32 2 0) (B32 3 (-1)) (B32 1 (-1))
    (replicate 81 fzero) example_draws
  = Constructed example_object.
Proof. reflexivity. Qed.

Lemma example_object_well_formed : well_formed example_object.
Proof. repeat split. Defined.

Lemma example_object_reachable : reachable example_object.
Proof.
  exists (B32 2 0), (B32 3 (-1)), (B32 1 (-1)), (replicate 81 fzero),
    example_draws, example_object.
  split; [reflexivity|constructor].
Defined.

Lemma example_stale_object_reachable : reachable example_stale_object.
Proof.
  exists (B32 2 0), (B32 3 (-1)), (B32 1 (-1)), (replicate 81 fzero),
    example_draws, example_object.
  split; [reflexivity|]. unfold example_stale_object.
  destruct (compute example_object [q_id; q_id] 2 1) as [out|] eqn:E1;
    [|constructor].
  assert (C1 : calls example_object (object_of out))
    by (eapply calls_compute; [constructor|exact E1]).
  destruct (compute (object_of out) [] 0 1) as [out'|] eqn:E2; [|exact C1].
  eapply calls_compute; [exact C1|exact E2].
Defined.

Lemma retained_state_consistent_witness :
  reachable example_object
  /\ match compute example_object [q_id] 1 1 with
     | Some out =>
         m_cubatic_order_parameter (object_of out)
         = T4.score (read (heap (object_of out)) (base m_global_tensor))
             (read (heap (object_of out)) (base m_cubatic_tensor))
         /\ tensor_consistent (object_of out)
     | None => ~ stage_in_bounds example_object 1
     end.
Proof.
  split; [exact example_object_reachable|].
  pose proof (retained_state_consistent example_object [q_id] 1 1
                example_object_reachable) as K.
  destruct K as [K _]. exact K.
Defined.

(** C2 on the example: on the fresh object the stage on one particle
    has a result, with the row of the particle as stated; on the object
    a throwing call has left, the stage on two particles finds
    [m_n = 2] and an array of no cell, and has none. *)
Lemma tensor_assembly_witness :
  reachable example_object
  /\ (exists m',
        assemble example_object [q_id] 1 = Some m'
        /\ read m' (row (base m_particle_tensor) 1 0)
           = T4.sub (particle_row q_id)
               (read (heap example_object) (base m_gen_r4_tensor)))
  /\ reachable example_stale_object
  /\ m_n example_stale_object = 2%nat
  /\ length (heap example_stale_object m_particle_tensor) = 0%nat
  /\ assemble example_stale_object [q_id; q_id] 2 = None.
Proof.
  split; [exact example_object_reachable|]. split.
  - pose proof (tensor_assembly example_object [q_id] 1
                  example_object_reachable) as K.
    destruct K as (Kdef & Krows & _).
    destruct (assemble example_object [q_id] 1) as [m'|] eqn:E.
    + exists m'. split; [reflexivity|].
      destruct (Krows m' eq_refl) as (_ & Kr).
      exact (Kr 0%nat ltac:(lia)).
    + exfalso. apply (proj2 Kdef); [vm_compute; reflexivity|reflexivity].
  - split; [exact example_stale_object_reachable|].
    assert (Hn : m_n example_stale_object = 2%nat) by (vm_compute; reflexivity).
    assert (Hl : length (heap example_stale_object m_particle_tensor) = 0%nat)
      by (vm_compute; reflexivity).
    split; [exact Hn|]. split; [exact Hl|].
    pose proof (tensor_assembly example_stale_object [q_id; q_id] 2
                  example_stale_object_reachable) as K.
    destruct K as (Kdef & _).
    rewrite Hn, Hl in Kdef. cbn in Kdef.
    destruct (assemble example_stale_object [q_id; q_id] 2) as [m'|];
      [|reflexivity].
    exfalso. assert (K : (162 <= 0)%nat) by (apply Kdef; discriminate). lia.
Defined.

Lemma calcCubaticTensor_formula_witness :
  (p_off (base m_cubatic_tensor) + 81
   <= length (heap example_object (p_buf (base m_cubatic_tensor))))%nat
  /\ read (calcCubaticTensor (base m_cubatic_tensor) q_id (heap example_object))
       (base m_cubatic_tensor)
     = T4.sub
         (T4.mul_scalar
            (T4.add
               (T4.add
                  (T4.add T4.zero
                     (T4.outer4 (rotate q_id (mk_vec3 fone fzero fzero))))
                  (T4.outer4 (rotate q_id (mk_vec3 fzero fone fzero))))
               (T4.outer4 (rotate q_id (mk_vec3 fzero fzero fone))))
            ftwo)
         (read (heap example_object) (base m_gen_r4_tensor)).
Proof.
  assert (Hlen : (p_off (base m_cubatic_tensor) + 81
                  <= length (heap example_object
                               (p_buf (base m_cubatic_tensor))))%nat)
    by (vm_compute; lia).
  split; [exact Hlen|].
  refine (proj1 (calcCubaticTensor_formula (base m_cubatic_tensor) q_id
                   (heap example_object) _ _ Hlen)); discriminate.
Defined.

Lemma equal_temperatures_constructed_witness :
  exists o,
    CubaticOrderParameter fone fone (B32 1 (-1)) (replicate 81 fzero)
      example_draws = Constructed o
    /\ m_t_initial o = fone /\ m_t_final o = fone.
Proof.
  apply (equal_temperatures_constructed fone (B32 1 (-1))); reflexivity.
Defined.

Lemma zero_step_not_rejected_witness :
  throws (example_grid (B32 10 0) fone fone) = false
  /\ throws (PMFXYZ.PMFXYZ (mk_box (B32 10 0) (B32 10 0) (B32 10 0) false)
               fone fone fone fzero fone fone) = false
  /\ PMFXYZ.nbins fone fzero = 2 ^ 31
  /\ PMFXYZ.PMFXYZ (mk_box (B32 10 0) (B32 10 0) (B32 10 0) false)
       fone fone fone fzero fone fone = undefined.
Proof.
  assert (Hacc : throws (example_grid (B32 10 0) fone fone) = false)
    by reflexivity.
  split; [exact Hacc|].
  pose proof (zero_step_not_rejected _ _ _ _ _ _ _ Hacc) as K.
  destruct K as (K1 & K2 & K3 & _).
  split; [exact K1|]. split; [exact K2|].
  apply K3. vm_compute. split; [discriminate|reflexivity].
Defined.

Lemma zero_particles_retain_nan_witness :
  well_formed example_object
  /\ exists out,
       compute example_object [] 0 1 = Some out
       /\ is_nan (m_cubatic_order_parameter (object_of out)) = true
       /\ (fgt (m_t_initial example_object) (m_t_final example_object) = false ->
           exists o', out = Returned o').
Proof.
  split; [exact example_object_well_formed|].
  exact (zero_particles_retain_nan example_object [] 1
           example_object_well_formed).
Defined.

(** C7 on the example: the first pass from the state in which [compute]
    on one particle enters the loop commits, counts, and cools
    [t_current] from 2 to 1; with the draw 0.99 in place of 0.5 the
    same proposal is rejected, the pass counts and [t_current] stays 2;
    and the loop ends within the 10000 passes. *)
Lemma annealing_terminates_witness :
  match anneal_iteration example_loop_state with
  | Accepted l' =>
      t_current example_loop_state = B32 2 0
      /\ t_current l' = fone /\ loop_count l' = 1
  | _ => False
  end
  /\ match anneal_iteration example_cold_state with
     | Rejected l' =>
         t_current l' = B32 2 0 /\ loop_count l' = 1
         /\ m_cubatic_order_parameter (self l') = fone
     | _ => False
     end
  /\ exists e,
       anneal_loop (Z.to_nat 10000) example_loop_state = Some e
       /\ loop_count (exit_state e) <= 10000.
Proof.
  destruct annealing_terminates as (T1 & _ & _ & _ & T5).
  split; [|split].
  - assert (Hs : is_nan (candidate_score example_loop_state) = false)
      by (vm_compute; reflexivity).
    assert (Ha : fgt (candidate_score example_loop_state)
                   (m_cubatic_order_parameter (self example_loop_state))
                 || fge (boltzmann example_loop_state
                           (candidate_score example_loop_state))
                      (fst (m_phi_dist (snd (proposal example_loop_state))))
                 = true)
      by (vm_compute; reflexivity).
    pose proof (T5 example_loop_state ltac:(vm_compute; reflexivity)) as K.
    cbv zeta in K. revert K.
    destruct (anneal_iteration example_loop_state) as [what l'|l'|l'];
      intros K.
    + destruct K as (K & _). rewrite Hs in K. discriminate K.
    + destruct K as (_ & K & _). rewrite Ha in K. discriminate K.
    + destruct K as (_ & _ & Kt & Kc & _).
      split; [vm_compute; reflexivity|]. rewrite Kt, Kc.
      split; vm_compute; reflexivity.
  - assert (Hs : is_nan (candidate_score example_cold_state) = false)
      by (vm_compute; reflexivity).
    assert (Ha : fgt (candidate_score example_cold_state)
                   (m_cubatic_order_parameter (self example_cold_state))
                 || fge (boltzmann example_cold_state
                           (candidate_score example_cold_state))
                      (fst (m_phi_dist (snd (proposal example_cold_state))))
                 = false)
      by (vm_compute; reflexivity).
    pose proof (T5 example_cold_state ltac:(vm_compute; reflexivity)) as K.
    cbv zeta in K. revert K.
    destruct (anneal_iteration example_cold_state) as [what l'|l'|l'];
      intros K.
    + destruct K as (K & _). rewrite Hs in K. discriminate K.
    + destruct K as (_ & _ & Kt & Kc & Ks & _). rewrite Kt, Kc, Ks.
      split; [|split]; vm_compute; reflexivity.
    + destruct K as (_ & K & _). rewrite Ha in K. discriminate K.
  - assert (Hc : loop_count example_loop_state = 0) by (vm_compute; reflexivity).
    destruct (T1 example_loop_state ltac:(rewrite Hc; lia)) as (e & Ke & Kc & _).
    exists e. split; [apply Ke; rewrite Hc; lia|lia].
Defined.

(** C9, against the claim: in the example the loop is entered with the
    retained score 1; the first proposal scores 0.8989..., which is
    lower, and is committed because its Boltzmann factor 0.9507... is
    not below the draw 0.5; [compute] then returns with the lower
    score. *)
Lemma accepted_score_decreases :
  m_cubatic_order_parameter (self example_loop_state) = fone
  /\ match anneal_iteration example_loop_state with
     | Accepted l' =>
         m_cubatic_order_parameter (self l') = S754_finite false 15081077 (-24)
         /\ flt (m_cubatic_order_parameter (self l'))
              (m_cubatic_order_parameter (self example_loop_state)) = true
     | _ => False
     end
  /\ match compute example_object [q_id] 1 1 with
     | Some (Returned o') =>
         m_cubatic_order_parameter o' = S754_finite false 15081077 (-24)
     | _ => False
     end.
Proof. vm_compute. repeat split. Qed.

(** Grids: 2 bins of width 41 on [-41, 41]; 4 bins of width 41 on
    [-102.5, 102.5]; 4 bins of width 0.4 on [-1, 1]. *)
Lemma example_grids :
  grid_sized (example_functor (B32 200 0) (B32 41 0) (B32 41 0) 2
                (make_float3 fzero (B32 (-1) 0) fzero))
  /\ grid_sized (example_functor (B32 10 0) fone (B32 13421773 (-25)) 4
                   (make_float3 (B32 (-15099494) (-24)) fzero fzero)).
Proof. unfold grid_sized. vm_compute. repeat split; discriminate. Defined.

Lemma kernels_count_pairs_witness :
  let f := example_functor (B32 200 0) (B32 41 0) (B32 41 0) 2
             (make_float3 fzero (B32 (-1) 0) fzero) in
  grid_sized f
  /\ PMFXYZ.ComputePMFTWithoutCellList f (mk_range 0 1) (replicate 8 0)
     = fold_left (count_pair f) (direct_pairs f (mk_range 0 1)) (replicate 8 0).
Proof.
  cbv zeta. split; [exact (proj1 example_grids)|].
  exact (proj1 (kernels_count_pairs _ 1%nat (mk_range 0 1) (replicate 8 0)
                  (proj1 example_grids))).
Defined.

(** C3, against the claim: on the grid of 2 bins of width 41, the pair
    with displacement (0, 1, 0) has the shifted coordinates (41, 42, 41).
    Divided by 41 they floor to (1, 1, 1), the cell 7 of the claim; the
    code multiplies by the float nearest 1/41, gets 0.99999994 for 41,
    and counts the pair in the bins (0, 1, 0), the cell 2. *)
Lemma reciprocal_bin_differs :
  let point := make_float3 fzero (B32 (-1) 0) fzero in
  let f := example_functor (B32 200 0) (B32 41 0) (B32 41 0) 2 point in
  claimed_bin_index fzero (B32 41 0) (B32 41 0) = 1
  /\ bin_index fzero (B32 41 0) (B32 41 0) = 0
  /\ claimed_pair_cell f 0 0 = Some 7%nat
  /\ pair_cell f 0 0 = Some 2%nat
  /\ PMFXYZ.ComputePMFTWithoutCellList f (mk_range 0 1) (replicate 8 0)
     = [0; 0; 1; 0; 0; 0; 0; 0]
  /\ example_histogram (B32 200 0) (B32 41 0) (B32 41 0) point
     = [0; 0; 1; 0; 0; 0; 0; 0].
Proof. vm_compute. repeat split. Qed.

(** C10, against the claim: on the grid of 4 bins of width 41 on
    [-102.5, 102.5], built by the constructor, the coordinate 61.5 is
    [nbins * d - max], the lower end of the range the claim has
    dropped; its shifted value 164 times the float nearest 1/41 is
    3.9999998, so the pair is counted, in the last bin along x. *)
Lemma sliver_end_counted :
  let point := make_float3 (B32 (-123) (-1)) fzero fzero in
  let f := example_functor (B32 300 0) (B32 205 (-1)) (B32 41 0) 4 point in
  let v := body_frame f 0 (displacement f 0 0) in
  match example_grid (B32 300 0) (B32 205 (-1)) (B32 41 0) with
  | Constructed g => PMFXYZ.m_nbins_x g = 4
  | _ => False
  end
  /\ vx v = B32 123 (-1)
  /\ fsub (fmul (of_int 4) (B32 41 0)) (B32 205 (-1)) = vx v
  /\ fle (vx v) (B32 205 (-1)) = true
  /\ bin_index (vx v) (B32 205 (-1)) (B32 41 0) = 3
  /\ pair_cell f 0 0 = Some 43%nat
  /\ example_histogram (B32 300 0) (B32 205 (-1)) (B32 41 0) point
     = <[43%nat := 1]> (replicate 64 0).
Proof. vm_compute. repeat split. Qed.

(** ** The tensor primitives, cell by cell *)

Lemma fmul_comm a b : fmul a b = fmul b a.
Proof.
  unfold fmul, SFmul.
  destruct a as [sa|sa| |sa ma ea], b as [sb|sb| |sb mb eb];
    try reflexivity; try (rewrite xorb_comm; reflexivity).
  rewrite xorb_comm, Pos.mul_comm, Z.add_comm. reflexivity.
Qed.

Lemma dot_comm_from (A B : list float) s :
  fold_left (fun s ab => fadd s (fmul (fst ab) (snd ab))) (zip A B) s
  = fold_left (fun s ab => fadd s (fmul (fst ab) (snd ab))) (zip B A) s.
Proof.
  revert B s. induction A as [|a A IH]; intros [|b B] s; try reflexivity.
  cbn [zip zip_with fold_left fst snd]. rewrite (fmul_comm a b). apply IH.
Qed.

Lemma tensorDiv_tensorMult tensor a m :
  tensorDiv tensor a m
  = tensorMult tensor (to_float (ddiv d_1_0 (to_double a))) m.
Proof. rewrite tensorDiv_pointwise, tensorMult_pointwise. reflexivity. Qed.

(** X1: [tensorProduct] writes [v_i * v_j * v_k * v_l], multiplied from
    the left, into the cell [((i*3+j)*3+k)*3+l] of its output, whatever
    the cells held, and writes no other cell of the store. *)
Theorem tensorProduct_entries tensor vector m :
  (p_off tensor + 81 <= length (m (p_buf tensor)))%nat ->
  let m' := tensorProduct tensor vector m in
  (forall i j k l, (i < 3)%nat -> (j < 3)%nat -> (k < 3)%nat -> (l < 3)%nat ->
     load m' (shift tensor (T4.pos i j k l))
     = fmul (fmul (fmul (T4.component vector i) (T4.component vector j))
                  (T4.component vector k))
            (T4.component vector l))
  /\ (forall q, outside tensor 81 q -> load m' q = load m q)
  /\ forall b, length (m' b) = length (m b).
Proof.
  intros Hlen. cbv zeta. split; [|split].
  - intros i j k l Hi Hj Hk Hl.
    destruct (pos_decode i j k l Hi Hj Hk Hl) as (Hp & _).
    rewrite <- read_lookup by exact Hp.
    rewrite read_tensorProduct by exact Hlen.
    rewrite outer4_lookup by assumption. reflexivity.
  - intros q Hq. rewrite tensorProduct_pointwise.
    apply load_pointwise_outside. exact Hq.
  - intros b. apply length_tensorProduct.
Qed.

(** X2: [tensorAdd] and [tensorSub] may work in place: when each input
    is the output itself or lies in another buffer, the output holds the
    elementwise sum (difference) of the inputs as they were before the
    call, and no cell outside the 81 of the output changes. *)
Theorem tensorAdd_tensorSub_in_place out a b m :
  (p_off out + 81 <= length (m (p_buf out)))%nat ->
  compat a out -> compat b out ->
  read (tensorAdd out a b m) out = zip_with fadd (read m a) (read m b)
  /\ read (tensorSub out a b m) out = zip_with fsub (read m a) (read m b)
  /\ forall q, outside out 81 q ->
       load (tensorAdd out a b m) q = load m q
       /\ load (tensorSub out a b m) q = load m q.
Proof.
  intros Hlen Ha Hb. split; [|split].
  - apply read_tensorAdd; assumption.
  - apply read_tensorSub; assumption.
  - intros q Hq. rewrite tensorAdd_pointwise, tensorSub_pointwise.
    split; apply load_pointwise_outside; exact Hq.
Qed.

(** X3: [tensorDiv] does not divide: it multiplies every entry by the
    float nearest to the double [1.0/a], and is [tensorMult] with that
    factor; [tensorMult] multiplies every entry by [a]; both write the
    81 cells of the tensor only. *)
Theorem tensorDiv_reciprocal tensor a m :
  (p_off tensor + 81 <= length (m (p_buf tensor)))%nat ->
  let a_inv := to_float (ddiv d_1_0 (to_double a)) in
  read (tensorMult tensor a m) tensor = map (fun x => fmul x a) (read m tensor)
  /\ read (tensorDiv tensor a m) tensor
     = map (fun x => fmul x a_inv) (read m tensor)
  /\ forall q, outside tensor 81 q ->
       load (tensorMult tensor a m) q = load m q
       /\ load (tensorDiv tensor a m) q = load m q.
Proof.
  intros Hlen. cbv zeta. split; [|split].
  - apply read_tensorMult. exact Hlen.
  - rewrite tensorDiv_tensorMult. apply read_tensorMult. exact Hlen.
  - intros q Hq. split.
    + rewrite tensorMult_pointwise. apply load_pointwise_outside. exact Hq.
    + rewrite tensorDiv_pointwise. apply load_pointwise_outside. exact Hq.
Qed.

(** X4: [tensorDot] is symmetric in its operands, and depends on the
    store through the 81 cells of each operand only. *)
Theorem tensorDot_symmetric a b m :
  tensorDot a b m = tensorDot b a m
  /\ forall m', read m' a = read m a -> read m' b = read m b ->
       tensorDot a b m' = tensorDot a b m.
Proof.
  split.
  - rewrite !tensorDot_read. unfold T4.dot. apply dot_comm_from.
  - intros m' Ea Eb. rewrite !tensorDot_read, Ea, Eb. reflexivity.
Qed.

(** ** The functions of the annealer, one by one *)

Section FunctionFacts.

Context `{VectorMath} `{Libm} `{RandomEngine}.

(** X5: [calcCubaticOrderParameter] returns
    [1 - dot(G - M, G - M) / dot(M, M)] for the stored global tensor [G]
    and the tensor [M] it is given, and changes nothing in the store but
    its scratch buffer [diff]. *)
Theorem calcCubaticOrderParameter_effect cubatic_tensor m :
  p_buf cubatic_tensor <> diff ->
  let G := read m (base m_global_tensor) in
  let M := read m cubatic_tensor in
  fst (calcCubaticOrderParameter cubatic_tensor m) = T4.score G M
  /\ forall b, b <> diff ->
       snd (calcCubaticOrderParameter cubatic_tensor m) b = m b.
Proof. intros Hd. cbv zeta. apply calcCubaticOrderParameter_spec. exact Hd. Qed.

(** X6: [calcCubaticTensor] writes its output tensor and its two local
    arrays and nothing else: every other buffer, the generator and the
    global tensor among them, is as before, and no buffer but the two
    local arrays changes its size. *)
Theorem calcCubaticTensor_writes cubatic_tensor orientation m :
  p_buf cubatic_tensor <> calculated_tensor ->
  p_buf cubatic_tensor <> l_tensor ->
  (p_off cubatic_tensor + 81 <= length (m (p_buf cubatic_tensor)))%nat ->
  let m' := calcCubaticTensor cubatic_tensor orientation m in
  (forall b, b <> calculated_tensor -> b <> l_tensor ->
     b <> p_buf cubatic_tensor -> m' b = m b)
  /\ (forall b, b <> calculated_tensor -> b <> l_tensor ->
        length (m' b) = length (m b))
  /\ (forall q, p_buf q = p_buf cubatic_tensor ->
        outside cubatic_tensor 81 q -> load m' q = load m q).
Proof.
  intros Hc Hl Hlen. cbv zeta.
  destruct (calcCubaticTensor_spec cubatic_tensor orientation m Hc Hl Hlen)
    as (_ & Hf & Hlens).
  split; [exact Hf|]. split; [exact Hlens|].
  intros q Hq Hout. unfold calcCubaticTensor.
  rewrite memcpy_pointwise. rewrite load_pointwise_outside by exact Hout.
  unfold load. rewrite Hq.
  rewrite tensorSub_other_buf by (cbn [base p_buf]; exact Hc).
  rewrite tensorMult_other_buf by (cbn [base p_buf]; exact Hc).
  rewrite for_loop_3.
  rewrite !tensorAdd_other_buf by (cbn [base p_buf]; exact Hc).
  rewrite !tensorProduct_other_buf by (cbn [base p_buf]; exact Hl).
  rewrite !new_array_other by exact Hl.
  rewrite !tensorAdd_other_buf by (cbn [base p_buf]; exact Hc).
  rewrite !tensorProduct_other_buf by (cbn [base p_buf]; exact Hl).
  rewrite !new_array_other by exact Hl.
  rewrite !tensorAdd_other_buf by (cbn [base p_buf]; exact Hc).
  rewrite !tensorProduct_other_buf by (cbn [base p_buf]; exact Hl).
  rewrite !new_array_other by exact Hl.
  rewrite memset_zero_other_buf by (cbn [base p_buf]; exact Hc).
  rewrite new_array_other by exact Hc. reflexivity.
Qed.

(** X7: [ComputeGlobalTensor] leaves in entry [k] of its output the sum
    over the [n] rows of the particle array (from zero, in their order)
    of their entry [k], times the float nearest to [1/n]; with no row
    every entry is NaN; it writes no other buffer. *)
Theorem ComputeGlobalTensor_mean m_bar particle_tensor n m :
  p_buf m_bar <> p_buf particle_tensor ->
  (p_off m_bar + 81 <= length (m (p_buf m_bar)))%nat ->
  let m' := ComputeGlobalTensor m_bar particle_tensor n (mk_range 0 81) m in
  (forall k, (k < 81)%nat ->
     load m' (shift m_bar k)
     = fmul (for_loop 0 n (fun j s =>
               fadd s (load m (shift particle_tensor (j * 81 + k)))) fzero)
            (n_inv n))
  /\ (n = 0%nat -> read m' m_bar = replicate 81 nan)
  /\ (forall b, b <> p_buf m_bar -> m' b = m b)
  /\ forall b, length (m' b) = length (m b).
Proof.
  intros Hb Hlen. cbv zeta.
  destruct (ComputeGlobalTensor_spec m_bar particle_tensor n m Hb Hlen)
    as (Hr & Hl & Hf).
  split; [|split; [|split]].
  - intros k Hk. rewrite <- read_lookup by exact Hk. rewrite Hr.
    unfold column_mean. rewrite lookup_map_seq by exact Hk.
    f_equal. apply for_loop_ext. intros j s _.
    rewrite read_lookup by exact Hk.
    unfold row, index2, shift. cbn [p_buf p_off m_h].
    do 3 f_equal. lia.
  - intros ->. rewrite Hr. apply column_mean_none.
  - exact Hf.
  - exact Hl.
Qed.

(** X8: a call of [compute] on an object with buffers of their sizes,
    however it ends, leaves the generator tensor and the settings
    [t_initial], [t_final] and [scale] as they were. *)
Theorem compute_keeps_generator o orientations n n_replicates out :
  well_formed o ->
  compute o orientations n n_replicates = Some out ->
  heap (object_of out) m_gen_r4_tensor = heap o m_gen_r4_tensor
  /\ m_t_initial (object_of out) = m_t_initial o
  /\ m_t_final (object_of out) = m_t_final o
  /\ m_scale (object_of out) = m_scale o.
Proof.
  intros Hwf Hout.
  destruct (assemble o orientations n) as [m|] eqn:Hm.
  2:{ apply (compute_None o orientations n n_replicates) in Hm.
      rewrite Hm in Hout. discriminate. }
  destruct (compute_exit o orientations n n_replicates m
              (well_formed_allocated o Hwf) Hm)
    as (e & Hcomp & _ & (S1 & S2 & S3 & _) & HR & _).
  rewrite Hcomp in Hout. injection Hout as <-.
  destruct e as [l|what l]; cbn [object_of exit_state] in *;
    cbn [heap m_t_initial m_t_final m_scale]; auto.
Qed.

(** X9: on an object of the program, made by the constructor and used
    through calls of [compute], a call that has a result leaves the
    particle array it worked on, of at least [n*81] cells: the array it
    found when [m_n] is [n], and otherwise a new one of [n*81] cells,
    the product taken in [unsigned int].  A call that returns records
    [n] and [n_replicates]; a call that throws leaves [m_n] and
    [m_n_replicates] as they were, whatever array it allocated. *)
Theorem compute_particle_array o orientations n n_replicates out :
  reachable o ->
  compute o orientations n n_replicates = Some out ->
  length (heap (object_of out) m_particle_tensor)
  = (if (m_n o =? n)%nat then length (heap o m_particle_tensor)
     else Z.to_nat (u32 (Z.of_nat n * 81)))
  /\ (n * 81 <= length (heap (object_of out) m_particle_tensor))%nat
  /\ match out with
     | Returned o' => m_n o' = n /\ m_n_replicates o' = n_replicates
     | runtime_error _ o' =>
         m_n o' = m_n o /\ m_n_replicates o' = m_n_replicates o
     end.
Proof.
  intros Hr Hout.
  destruct (assemble o orientations n) as [m|] eqn:Hm.
  2:{ apply (compute_None o orientations n n_replicates) in Hm.
      rewrite Hm in Hout. discriminate. }
  destruct (assemble_Some o orientations n m Hm) as (Hin & _).
  destruct (compute_exit o orientations n n_replicates m
              (reachable_allocated o Hr) Hm)
    as (e & Hcomp & _ & (_ & _ & _ & S4 & S5) & _ & _ & _ & _ & _ & HlP).
  rewrite Hcomp in Hout. injection Hout as <-.
  unfold stage_in_bounds in Hin. rewrite <- HlP in Hin.
  rewrite particle_array_length in HlP.
  destruct e as [l|what l]; cbn [object_of exit_state] in *.
  - cbn [heap m_n m_n_replicates]. auto.
  - auto.
Qed.

(** X10: a pass of the loop throws exactly when the score of its
    proposal is NaN, and a pass that commits stores the score of its
    proposal, which is then not NaN. *)
Theorem nan_proposal_throws l :
  length (heap (self l) new_cubatic_tensor) = 81%nat ->
  ((exists what l', anneal_iteration l = Thrown what l')
   <-> is_nan (candidate_score l) = true)
  /\ forall l', anneal_iteration l = Accepted l' ->
       m_cubatic_order_parameter (self l') = candidate_score l
       /\ is_nan (candidate_score l) = false.
Proof.
  intros Hn.
  destruct (anneal_iteration_cases l Hn) as (m & g & _ & _ & _ & Hcases).
  cbv zeta in Hcases.
  destruct Hcases
    as [(N & E)|[(N & _ & E)|(N & _ & test & _ & [(_ & E)|(_ & E)])]];
    rewrite E.
  - split; [split; [intros _; exact N|intros _; eauto]|]. discriminate.
  - split.
    + split; [intros (what & l' & K); discriminate K|].
      intros K. rewrite N in K. discriminate K.
    + intros l' [= <-]. cbn [self commit m_cubatic_order_parameter]. auto.
  - split.
    + split; [intros (what & l' & K); discriminate K|].
      intros K. rewrite N in K. discriminate K.
    + intros l' [= <-]. cbn [self commit m_cubatic_order_parameter]. auto.
  - split.
    + split; [intros (what & l' & K); discriminate K|].
      intros K. rewrite N in K. discriminate K.
    + discriminate.
Qed.

(** X11: what [compute] relies on holds of every object of the
    program: through any calls of [compute], returning or throwing, on
    an object the constructor built, the global and the cubatic tensor
    keep their 81 entries, the generator stays the first 81 entries of
    the array given to the constructor, and the temperatures and the
    scale stay those given, which passed the checks of the
    constructor. *)
Theorem calls_keep_settings t_initial t_final scale r4 rd o0 o :
  CubaticOrderParameter t_initial t_final scale r4 rd = Constructed o0 ->
  calls o0 o ->
  length (heap o m_global_tensor) = 81%nat
  /\ length (heap o m_cubatic_tensor) = 81%nat
  /\ heap o m_gen_r4_tensor = take 81 r4
  /\ m_t_initial o = t_initial /\ m_t_final o = t_final /\ m_scale o = scale
  /\ flt t_initial t_final = false
  /\ flt (to_double t_final) d_1em6 = false
  /\ fgt scale (of_int 1) || flt scale (of_int 0) = false.
Proof.
  intros Hc Hcalls.
  pose proof (constructed_allocated _ _ _ _ _ _ Hc) as (Hal0 & _).
  assert (Hchecks : flt t_initial t_final = false
                    /\ flt (to_double t_final) d_1em6 = false
                    /\ fgt scale (of_int 1) || flt scale (of_int 0) = false
                    /\ heap o0 m_gen_r4_tensor = take 81 r4
                    /\ m_t_initial o0 = t_initial /\ m_t_final o0 = t_final
                    /\ m_scale o0 = scale).
  { revert Hc. unfold CubaticOrderParameter.
    destruct (flt t_initial t_final); [discriminate|].
    destruct (flt (to_double t_final) d_1em6); [discriminate|].
    destruct (fgt scale (of_int 1) || flt scale (of_int 0)); [discriminate|].
    intros [= <-]. cbn. repeat split. }
  destruct Hchecks as (C1 & C2 & C3 & C4 & C5 & C6 & C7).
  assert (Hinv : allocated o
                 /\ heap o m_gen_r4_tensor = heap o0 m_gen_r4_tensor
                 /\ m_t_initial o = m_t_initial o0
                 /\ m_t_final o = m_t_final o0 /\ m_scale o = m_scale o0).
  { induction Hcalls as [|o' orientations n n_replicates out Hcalls IH Hout].
    - repeat split; apply Hal0.
    - destruct IH as (Hal & I1 & I2 & I3 & I4).
      split; [exact (compute_allocated o' orientations n n_replicates out
                       Hal Hout)|].
      destruct (assemble o' orientations n) as [m|] eqn:Hm.
      2:{ apply (compute_None o' orientations n n_replicates) in Hm.
          rewrite Hm in Hout. discriminate. }
      destruct (compute_exit o' orientations n n_replicates m Hal Hm)
        as (e & Hcomp & _ & (S1 & S2 & S3 & _) & HR & _).
      rewrite Hcomp in Hout. injection Hout as <-.
      destruct e as [l|what l]; cbn [object_of exit_state] in *;
        cbn [heap m_t_initial m_t_final m_scale];
        rewrite HR, S1, S2, S3; auto. }
  destruct Hinv as ((HlG & HlM) & I1 & I2 & I3 & I4).
  rewrite I1, I2, I3, I4. auto 10.
Qed.

End FunctionFacts.

(** ** PMFXYZ: the object through [compute] and [resetPCF] *)

Lemma total_insert (pcf : list Z) cell v :
  (cell < length pcf)%nat ->
  total (<[cell := v]> pcf) = total pcf - pcf !!! cell + v.
Proof.
  revert cell. induction pcf as [|c pcf IH]; intros cell Hc;
    [cbn in Hc; lia|].
  destruct cell as [|cell].
  - cbn. lia.
  - cbn [length] in Hc.
    change (<[S cell := v]> (c :: pcf)) with (c :: <[cell := v]> pcf).
    change ((c :: pcf) !!! S cell) with (pcf !!! cell).
    unfold total in *. cbn [fold_right]. rewrite IH by lia. lia.
Qed.

Lemma lookup_le_total (pcf : list Z) cell :
  Forall (fun c => 0 <= c) pcf -> (cell < length pcf)%nat ->
  0 <= pcf !!! cell <= total pcf.
Proof.
  intros Hpos. revert cell.
  induction Hpos as [|c pcf Hc Hpos IH]; intros cell Hlt;
    [cbn in Hlt; lia|].
  assert (Ht : 0 <= total pcf).
  { clear IH Hlt. induction Hpos as [|c' pcf' Hc' _ IH'];
      unfold total in *; cbn [fold_right]; lia. }
  destruct cell as [|cell].
  - unfold total in *. cbn. lia.
  - change ((c :: pcf) !!! S cell) with (pcf !!! cell).
    cbn [length] in Hlt. specialize (IH cell ltac:(lia)).
    unfold total in *. cbn [fold_right]. lia.
Qed.

Lemma Forall_insert_nonneg (pcf : list Z) cell v :
  Forall (fun c => 0 <= c) pcf -> 0 <= v ->
  Forall (fun c => 0 <= c) (<[cell := v]> pcf).
Proof.
  intros Hpos Hv. revert cell. induction Hpos as [|c pcf Hc Hpos IH];
    intros cell; [constructor|].
  destruct cell as [|cell].
  - constructor; assumption.
  - change (<[S cell := v]> (c :: pcf)) with (c :: <[cell := v]> pcf).
    constructor; [exact Hc|apply IH].
Qed.

Lemma fsub_diag a : finite a = true -> fsub a a = fzero.
Proof.
  destruct a as [s|s| |s m e]; try discriminate; intros _.
  - destruct s; reflexivity.
  - unfold fsub, SFsub. rewrite Z.sub_diag. reflexivity.
Qed.

Section GridFacts.

Context `{VectorMath} `{LinkCellOps}.

Import PMFXYZ.

Lemma length_bin_pair f dx_inv dy_inv dz_inv i j pcf :
  length (bin_pair f dx_inv dy_inv dz_inv i j pcf) = length pcf.
Proof.
  unfold bin_pair. cbv zeta.
  destruct (_ && _ && _); [reflexivity|].
  destruct (_ && _ && _); [apply length_insert|reflexivity].
Qed.

Lemma length_fold_bin_pair {A : Type} f dx_inv dy_inv dz_inv
  (l : list A) (ix : A -> nat) (jx : A -> nat) pcf :
  length (fold_left (fun pcf a =>
            bin_pair f dx_inv dy_inv dz_inv (ix a) (jx a) pcf) l pcf)
  = length pcf.
Proof.
  revert pcf. induction l as [|a l IH]; intros pcf; [reflexivity|].
  cbn [fold_left]. rewrite IH. apply length_bin_pair.
Qed.

Lemma length_direct_kernel f r pcf :
  length (ComputePMFTWithoutCellList f r pcf) = length pcf.
Proof.
  rewrite direct_kernel_pairs. unfold bin_pairs.
  apply (length_fold_bin_pair f _ _ _ (direct_pairs f r) fst snd).
Qed.

Lemma length_cell_kernel f lc r pcf :
  length (ComputePMFTWithCellList f lc r pcf) = length pcf.
Proof.
  rewrite cell_kernel_pairs. unfold bin_pairs.
  apply (length_fold_bin_pair f _ _ _ (cell_pairs f lc r) fst snd).
Qed.

Lemma compute_same_grid o rp ro Nref p os Np eo :
  same_grid o (compute o rp ro Nref p os Np eo)
  /\ length (m_pcf_array (compute o rp ro Nref p os Np eo))
     = length (m_pcf_array o).
Proof.
  unfold compute, same_grid. cbv zeta.
  destruct (useCells _ _ _ _).
  - destruct (m_lc o) as [lc|].
    + cbn [m_box m_max_x m_max_y m_max_z m_dx m_dy m_dz m_nbins_x m_nbins_y
           m_nbins_z m_pcf_array].
      rewrite length_cell_kernel. repeat split.
    + repeat split.
  - cbn [m_box m_max_x m_max_y m_max_z m_dx m_dy m_dz m_nbins_x m_nbins_y
         m_nbins_z m_pcf_array].
    rewrite length_direct_kernel. repeat split.
Qed.

Lemma fold_count_pair_total f pairs pcf :
  grid_sized f ->
  length pcf
  = Z.to_nat (f_nbins_x f * f_nbins_y f * f_nbins_z f) ->
  Forall (fun c => 0 <= c) pcf ->
  total pcf + Z.of_nat (length pairs) < 2 ^ 32 ->
  total (fold_left (count_pair f) pairs pcf) = total pcf + counted f pairs
  /\ Forall (fun c => 0 <= c) (fold_left (count_pair f) pairs pcf)
  /\ 0 <= counted f pairs <= Z.of_nat (length pairs).
Proof.
  intros Hg. revert pcf. induction pairs as [|ij pairs IH];
    intros pcf Hlen Hpos Hsum.
  - cbn [fold_left counted length]. split; [lia|]. split; [exact Hpos|lia].
  - cbn [fold_left counted length]. cbn [length] in Hsum.
    rewrite Nat2Z.inj_succ in Hsum |- *.
    destruct (pair_cell f (fst ij) (snd ij)) as [cell|] eqn:Hcell.
    + assert (Hstep : count_pair f pcf ij = increment cell pcf)
        by (unfold count_pair; rewrite Hcell; reflexivity).
      rewrite Hstep.
      pose proof (pair_cell_bound f _ _ cell Hg Hcell) as Hb.
      rewrite <- Hlen in Hb.
      pose proof (lookup_le_total pcf cell Hpos Hb) as Hle.
      assert (Hu : u32 (pcf !!! cell + 1) = pcf !!! cell + 1)
        by (apply u32_small; lia).
      assert (Ht : total (increment cell pcf) = total pcf + 1).
      { unfold increment. rewrite total_insert by exact Hb. rewrite Hu. lia. }
      destruct (IH (increment cell pcf)) as (K1 & K2 & K3).
      * rewrite length_increment. exact Hlen.
      * unfold increment. apply Forall_insert_nonneg; [exact Hpos|].
        rewrite Hu. lia.
      * rewrite Ht. lia.
      * rewrite K1, Ht. split; [lia|]. split; [exact K2|lia].
    + assert (Hstep : count_pair f pcf ij = pcf)
        by (unfold count_pair; rewrite Hcell; reflexivity).
      rewrite Hstep.
      destruct (IH pcf Hlen Hpos) as (K1 & K2 & K3); [lia|].
      split; [exact K1|]. split; [exact K2|lia].
Qed.

(** X12: [PMFXYZ::compute] counts, on top of the histogram it finds, the
    pairs of every reference with every point when [useCells()] fails,
    and with the points of the neighbouring cells of the freshly
    computed cell list when it holds; it changes neither the grid nor
    the size of the histogram. *)
Theorem compute_counts_pairs o rp ro Nref p os Np eo :
  let f := functor_of o rp ro Nref p os Np eo in
  let o' := compute o rp ro Nref p os Np eo in
  grid_sized f ->
  (useCells (m_box o) (m_max_x o) (m_max_y o) (m_max_z o) = false ->
   m_pcf_array o'
   = fold_left (count_pair f) (direct_pairs f (mk_range 0 Nref))
       (m_pcf_array o))
  /\ (forall lc,
        useCells (m_box o) (m_max_x o) (m_max_y o) (m_max_z o) = true ->
        m_lc o = Some lc ->
        m_pcf_array o'
        = fold_left (count_pair f)
            (cell_pairs f (computeCellList lc p Np) (mk_range 0 Nref))
            (m_pcf_array o))
  /\ same_grid o o'
  /\ length (m_pcf_array o') = length (m_pcf_array o).
Proof.
  cbv zeta. intros Hg. split; [|split].
  - intros Hu. unfold compute. rewrite Hu. cbn [m_pcf_array].
    fold (functor_of o rp ro Nref p os Np eo).
    rewrite direct_kernel_pairs. apply bin_pairs_count. exact Hg.
  - intros lc Hu Hlc. unfold compute. rewrite Hu, Hlc. cbn [m_pcf_array].
    fold (functor_of o rp ro Nref p os Np eo).
    rewrite cell_kernel_pairs. apply bin_pairs_count. exact Hg.
  - apply compute_same_grid.
Qed.

(** X13: on a grid the constructor built with fewer than 2^32 cells,
    [resetPCF] after a call of [compute] stays inside the array and
    gives back the histogram of the constructor, all zero, on the same
    grid. *)
Theorem resetPCF_after_compute box max_x max_y max_z dx dy dz g
  rp ro Nref p os Np eo :
  PMFXYZ box max_x max_y max_z dx dy dz = Constructed g ->
  m_nbins_x g * m_nbins_y g * m_nbins_z g < 2 ^ 32 ->
  exists g',
    resetPCF (compute g rp ro Nref p os Np eo) = Some g'
    /\ m_pcf_array g' = m_pcf_array g
    /\ m_pcf_array g
       = replicate (Z.to_nat (m_nbins_x g * m_nbins_y g * m_nbins_z g)) 0
    /\ same_grid g g'.
Proof.
  intros Hc Hcells.
  assert (Hpcf : m_pcf_array g
                 = replicate
                     (Z.to_nat (u32 (m_nbins_x g * m_nbins_y g * m_nbins_z g)))
                     0
                 /\ 0 <= m_nbins_x g /\ 0 <= m_nbins_y g /\ 0 <= m_nbins_z g).
  { destruct (PMFXYZ_constructed _ _ _ _ _ _ _ _ Hc)
      as (_ & _ & _ & _ & _ & _ & _ & Nx & Ny & Nz & Hp).
    rewrite Nx, Ny, Nz. split; [exact Hp|].
    unfold nbins, u32. repeat split; apply Z.mod_pos_bound; lia. }
  destruct Hpcf as (Hpcf & Hx & Hy & Hz).
  assert (Hp : 0 <= m_nbins_x g * m_nbins_y g * m_nbins_z g) by nia.
  rewrite u32_small in Hpcf by lia.
  destruct (compute_same_grid g rp ro Nref p os Np eo) as (Hgrid & Hlen).
  set (o := compute g rp ro Nref p os Np eo) in *.
  destruct Hgrid as (G1 & G2 & G3 & G4 & G5 & G6 & G7 & G8 & G9 & G10).
  assert (Hbytes : (4 * m_nbins_x o * m_nbins_y o * m_nbins_z o) mod 2 ^ 64 / 4
                   = m_nbins_x g * m_nbins_y g * m_nbins_z g).
  { rewrite G8, G9, G10. rewrite Z.mod_small by lia.
    replace (4 * m_nbins_x g * m_nbins_y g * m_nbins_z g)
      with (m_nbins_x g * m_nbins_y g * m_nbins_z g * 4) by lia.
    apply Z.div_mul. lia. }
  assert (Hl : length (m_pcf_array o)
               = Z.to_nat (m_nbins_x g * m_nbins_y g * m_nbins_z g)).
  { rewrite Hlen, Hpcf. apply length_replicate. }
  unfold resetPCF. cbv zeta. rewrite Hbytes.
  destruct (decide (Z.to_nat (m_nbins_x g * m_nbins_y g * m_nbins_z g)
                    <= length (m_pcf_array o))%nat) as [Hle|Hgt]; [|lia].
  eexists. split; [reflexivity|]. cbn [m_pcf_array].
  split; [|split; [exact Hpcf|]].
  - rewrite drop_ge by lia. rewrite app_nil_r. symmetry. exact Hpcf.
  - unfold same_grid. cbn. repeat split; assumption.
Qed.

(** X14: as long as no count can reach 2^32, the kernel without cell
    list adds to the sum of the histogram exactly the number of its
    pairs that are counted, one for each, and so at most the number of
    pairs it goes through. *)
Theorem histogram_total f r pcf :
  grid_sized f ->
  length pcf = Z.to_nat (f_nbins_x f * f_nbins_y f * f_nbins_z f) ->
  Forall (fun c => 0 <= c) pcf ->
  total pcf + Z.of_nat (length (direct_pairs f r)) < 2 ^ 32 ->
  total (ComputePMFTWithoutCellList f r pcf)
  = total pcf + counted f (direct_pairs f r)
  /\ 0 <= counted f (direct_pairs f r) <= Z.of_nat (length (direct_pairs f r)).
Proof.
  intros Hg Hlen Hpos Hsum.
  rewrite direct_kernel_pairs, (bin_pairs_count f _ pcf Hg).
  destruct (fold_count_pair_total f (direct_pairs f r) pcf Hg Hlen Hpos Hsum)
    as (K1 & _ & K3).
  split; assumption.
Qed.

(** X15: a point at the position of the reference is never counted,
    whatever the orientations and the grid, in a box whose [wrap] leaves
    the zero vector as it is. *)
Theorem self_pair_skipped f dx_inv dy_inv dz_inv i j pcf :
  f_points f !!! j = f_ref_points f !!! i ->
  finite (f3x (f_points f !!! j)) = true ->
  finite (f3y (f_points f !!! j)) = true ->
  finite (f3z (f_points f !!! j)) = true ->
  wrap (f_box f) (make_float3 fzero fzero fzero)
  = make_float3 fzero fzero fzero ->
  bin_pair f dx_inv dy_inv dz_inv i j pcf = pcf
  /\ pair_cell f i j = None.
Proof.
  intros Hsame Fx Fy Fz Hw. split.
  - unfold bin_pair. cbv zeta. rewrite <- Hsame.
    rewrite !fsub_diag by assumption. rewrite Hw. reflexivity.
  - unfold pair_cell. cbv zeta. unfold displacement. cbv zeta.
    rewrite <- Hsame. rewrite !fsub_diag by assumption. rewrite Hw.
    reflexivity.
Qed.

End GridFacts.

(** X16: the bin of a coordinate is the integer part, rounded down, of
    the float product [(v + max) * (1/d)]: for a product [+-m * 2^e]
    with [e < 0] it is the quotient of [+-m] by [2^(-e)], and in
    general the floor of the product where that fits an [int] and
    [INT_MIN] where it does not or the product is no number. *)
Theorem bin_index_floor v max d :
  let p := fmul (fadd v max) (fdiv fone d) in
  valid_binary prec32 emax32 p = true ->
  bin_index v max d = floor_int p
  /\ (forall s m e, p = S754_finite s m e -> e < 0 ->
        bin_index v max d = cond_Zopp s (Zpos m) / 2 ^ (- e))
  /\ (floorZ p = None -> bin_index v max d = INT_MIN).
Proof.
  cbv zeta. intros Hv. unfold bin_index.
  rewrite (cvtt_floorf _ Hv). split; [reflexivity|]. split.
  - intros s m e Hp He. rewrite Hp in *. unfold floor_int, floorZ.
    destruct (Z.leb_spec 0 e) as [K|_]; [lia|].
    pose proof (valid_mantissa s m e Hv) as Hm.
    rewrite Z.shiftr_div_pow2 by lia.
    set (n := cond_Zopp s (Zpos m) / 2 ^ (- e)).
    assert (Hn : - 2 ^ 24 < n < 2 ^ 24).
    { unfold n.
      assert (Hp2 : 0 < 2 ^ (- e)) by (apply Z.pow_pos_nonneg; lia).
      assert (H2 : 2 <= 2 ^ (- e)).
      { replace 2 with (2 ^ 1) at 1 by reflexivity.
        apply Z.pow_le_mono_r; lia. }
      destruct s; cbn [cond_Zopp].
      - split.
        + assert (- Zpos m <= - Zpos m / 2 ^ (- e)); [|lia].
          apply Z.div_le_lower_bound; [lia|]. nia.
        + assert (- Zpos m / 2 ^ (- e) < 0); [|lia].
          apply Z.div_lt_upper_bound; lia.
      - split.
        + assert (0 <= Zpos m / 2 ^ (- e)) by (apply Z.div_pos; lia). lia.
        + assert (Zpos m / 2 ^ (- e) <= Zpos m); [|lia].
          apply Z.div_le_upper_bound; [lia|]. nia. }
    unfold INT_MIN.
    destruct (Z.leb_spec (- 2 ^ 31) n); [|lia].
    destruct (Z.ltb_spec n (2 ^ 31)); [reflexivity|lia].
  - intros Hnone. unfold floor_int. rewrite Hnone. reflexivity.
Qed.

(** ** Further examples *)

Lemma example_outcome_computed :
  compute example_object [q_id] 1 1 = Some example_outcome.
Proof.
  unfold example_outcome.
  destruct (assemble example_object [q_id] 1) as [m|] eqn:Hm.
  - destruct (compute_spec example_object [q_id] 1 1 m
                (well_formed_allocated _ example_object_well_formed) Hm)
      as (e & _ & _ & ->).
    reflexivity.
  - exfalso. apply assemble_None in Hm. apply Hm.
    apply stage_in_bounds_iff. vm_compute. reflexivity.
Qed.

Lemma example_pmf_constructed :
  example_grid (B32 200 0) (B32 41 0) (B32 41 0) = Constructed example_pmf.
Proof. exact eq_refl. Qed.

Lemma example_in_bounds :
  (p_off (base m_cubatic_tensor) + 81
   <= length (heap example_object (p_buf (base m_cubatic_tensor))))%nat.
Proof. vm_compute. lia. Defined.

Lemma tensorProduct_entries_witness :
  (p_off (base m_cubatic_tensor) + 81
   <= length (heap example_object (p_buf (base m_cubatic_tensor))))%nat
  /\ forall q, outside (base m_cubatic_tensor) 81 q ->
       load (tensorProduct (base m_cubatic_tensor)
               (mk_vec3 fone ftwo (B32 3 0)) (heap example_object)) q
       = load (heap example_object) q.
Proof.
  split; [exact example_in_bounds|].
  pose proof (tensorProduct_entries (base m_cubatic_tensor)
                (mk_vec3 fone ftwo (B32 3 0)) (heap example_object)
                example_in_bounds) as K.
  cbv zeta in K. destruct K as (_ & K & _). exact K.
Defined.

Lemma tensorAdd_tensorSub_in_place_witness :
  compat (base m_cubatic_tensor) (base m_cubatic_tensor)
  /\ compat (base m_gen_r4_tensor) (base m_cubatic_tensor)
  /\ read (tensorSub (base m_cubatic_tensor) (base m_cubatic_tensor)
             (base m_gen_r4_tensor) (heap example_object))
       (base m_cubatic_tensor)
     = zip_with fsub (read (heap example_object) (base m_cubatic_tensor))
         (read (heap example_object) (base m_gen_r4_tensor)).
Proof.
  assert (Ka : compat (base m_cubatic_tensor) (base m_cubatic_tensor))
    by (left; reflexivity).
  assert (Kb : compat (base m_gen_r4_tensor) (base m_cubatic_tensor))
    by (right; discriminate).
  split; [exact Ka|]. split; [exact Kb|].
  pose proof (tensorAdd_tensorSub_in_place (base m_cubatic_tensor)
                (base m_cubatic_tensor) (base m_gen_r4_tensor)
                (heap example_object) example_in_bounds Ka Kb) as K.
  destruct K as (_ & K & _). exact K.
Defined.

Lemma tensorDiv_reciprocal_witness :
  (p_off (base m_cubatic_tensor) + 81
   <= length (heap example_object (p_buf (base m_cubatic_tensor))))%nat
  /\ read (tensorDiv (base m_cubatic_tensor) (B32 3 0) (heap example_object))
       (base m_cubatic_tensor)
     = map (fun x => fmul x (to_float (ddiv d_1_0 (to_double (B32 3 0)))))
         (read (heap example_object) (base m_cubatic_tensor)).
Proof.
  split; [exact example_in_bounds|].
  pose proof (tensorDiv_reciprocal (base m_cubatic_tensor) (B32 3 0)
                (heap example_object) example_in_bounds) as K.
  cbv zeta in K. destruct K as (_ & K & _). exact K.
Defined.

Lemma calcCubaticOrderParameter_effect_witness :
  p_buf (base m_cubatic_tensor) <> diff
  /\ fst (calcCubaticOrderParameter (base m_cubatic_tensor)
            (heap example_object))
     = T4.score (read (heap example_object) (base m_global_tensor))
         (read (heap example_object) (base m_cubatic_tensor)).
Proof.
  assert (Kd : p_buf (base m_cubatic_tensor) <> diff) by discriminate.
  split; [exact Kd|].
  pose proof (calcCubaticOrderParameter_effect (base m_cubatic_tensor)
                (heap example_object) Kd) as K.
  cbv zeta in K. destruct K as (K & _). exact K.
Defined.

Lemma calcCubaticTensor_writes_witness :
  p_buf (base m_cubatic_tensor) <> calculated_tensor
  /\ p_buf (base m_cubatic_tensor) <> l_tensor
  /\ forall b, b <> calculated_tensor -> b <> l_tensor ->
       b <> p_buf (base m_cubatic_tensor) ->
       calcCubaticTensor (base m_cubatic_tensor) q_id (heap example_object) b
       = heap example_object b.
Proof.
  assert (Kc : p_buf (base m_cubatic_tensor) <> calculated_tensor)
    by discriminate.
  assert (Kl : p_buf (base m_cubatic_tensor) <> l_tensor) by discriminate.
  split; [exact Kc|]. split; [exact Kl|].
  pose proof (calcCubaticTensor_writes (base m_cubatic_tensor) q_id
                (heap example_object) Kc Kl example_in_bounds) as K.
  cbv zeta in K. destruct K as (K & _). exact K.
Defined.

Lemma ComputeGlobalTensor_mean_witness :
  p_buf (base m_global_tensor) <> p_buf (base m_particle_tensor)
  /\ (p_off (base m_global_tensor) + 81
      <= length (heap example_object (p_buf (base m_global_tensor))))%nat
  /\ read (ComputeGlobalTensor (base m_global_tensor)
             (base m_particle_tensor) 0 (mk_range 0 81) (heap example_object))
       (base m_global_tensor)
     = replicate 81 nan.
Proof.
  assert (Kb : p_buf (base m_global_tensor) <> p_buf (base m_particle_tensor))
    by discriminate.
  assert (Kl : (p_off (base m_global_tensor) + 81
                <= length (heap example_object
                             (p_buf (base m_global_tensor))))%nat)
    by (vm_compute; lia).
  split; [exact Kb|]. split; [exact Kl|].
  pose proof (ComputeGlobalTensor_mean (base m_global_tensor)
                (base m_particle_tensor) 0 (heap example_object) Kb Kl) as K.
  cbv zeta in K. destruct K as (_ & K & _). exact (K eq_refl).
Defined.

Lemma compute_keeps_generator_witness :
  well_formed example_object
  /\ compute example_object [q_id] 1 1 = Some example_outcome
  /\ heap (object_of example_outcome) m_gen_r4_tensor
     = heap example_object m_gen_r4_tensor.
Proof.
  split; [exact example_object_well_formed|].
  split; [exact example_outcome_computed|].
  pose proof (compute_keeps_generator example_object [q_id] 1 1
                example_outcome example_object_well_formed
                example_outcome_computed) as K.
  destruct K as (K & _). exact K.
Defined.

Lemma compute_particle_array_witness :
  reachable example_object
  /\ compute example_object [q_id] 1 1 = Some example_outcome
  /\ length (heap (object_of example_outcome) m_particle_tensor) = 81%nat.
Proof.
  split; [exact example_object_reachable|].
  split; [exact example_outcome_computed|].
  pose proof (compute_particle_array example_object [q_id] 1 1
                example_outcome example_object_reachable
                example_outcome_computed) as K.
  destruct K as (K & _). rewrite K. reflexivity.
Defined.

Lemma example_loop_buffer :
  length (heap (self example_loop_state) new_cubatic_tensor) = 81%nat.
Proof. vm_compute. reflexivity. Defined.

Lemma nan_proposal_throws_witness :
  length (heap (self example_loop_state) new_cubatic_tensor) = 81%nat
  /\ forall l', anneal_iteration example_loop_state = Accepted l' ->
       m_cubatic_order_parameter (self l')
       = candidate_score example_loop_state
       /\ is_nan (candidate_score example_loop_state) = false.
Proof.
  split; [exact example_loop_buffer|].
  pose proof (nan_proposal_throws example_loop_state example_loop_buffer) as K.
  destruct K as (_ & K). exact K.
Defined.

Lemma example_stale_object_calls : calls example_object example_stale_object.
Proof.
  unfold example_stale_object.
  destruct (compute example_object [q_id; q_id] 2 1) as [out|] eqn:E1;
    [|constructor].
  assert (C1 : calls example_object (object_of out))
    by (eapply calls_compute; [constructor|exact E1]).
  destruct (compute (object_of out) [] 0 1) as [out'|] eqn:E2; [|exact C1].
  eapply calls_compute; [exact C1|exact E2].
Defined.

Lemma calls_keep_settings_witness :
  CubaticOrderParameter (B32 2 0) (B32 3 (-1)) (B32 1 (-1))
    (replicate 81 fzero) example_draws
  = Constructed example_object
  /\ calls example_object example_stale_object
  /\ length (heap example_stale_object m_global_tensor) = 81%nat
  /\ m_t_initial example_stale_object = B32 2 0.
Proof.
  split; [exact example_object_constructed|].
  split; [exact example_stale_object_calls|].
  pose proof (calls_keep_settings _ _ _ _ _ _ _ example_object_constructed
                example_stale_object_calls) as K.
  destruct K as (K1 & _ & _ & K2 & _). split; [exact K1|exact K2].
Defined.

Lemma example_pmf_sized :
  grid_sized (functor_of example_pmf [origin] [q4_id] 1
                [make_float3 fzero (B32 (-1) 0) fzero] [q4_id] 1 [q4_id]).
Proof. unfold grid_sized. vm_compute. repeat split; discriminate. Defined.

Lemma compute_counts_pairs_witness :
  let point := make_float3 fzero (B32 (-1) 0) fzero in
  let f := functor_of example_pmf [origin] [q4_id] 1 [point] [q4_id] 1
             [q4_id] in
  grid_sized f
  /\ PMFXYZ.useCells (PMFXYZ.m_box example_pmf) (PMFXYZ.m_max_x example_pmf)
       (PMFXYZ.m_max_y example_pmf) (PMFXYZ.m_max_z example_pmf) = false
  /\ PMFXYZ.m_pcf_array
       (PMFXYZ.compute example_pmf [origin] [q4_id] 1 [point] [q4_id] 1
          [q4_id])
     = fold_left (count_pair f) (direct_pairs f (mk_range 0 1))
         (PMFXYZ.m_pcf_array example_pmf).
Proof.
  cbv zeta.
  assert (Ku : PMFXYZ.useCells (PMFXYZ.m_box example_pmf)
                 (PMFXYZ.m_max_x example_pmf) (PMFXYZ.m_max_y example_pmf)
                 (PMFXYZ.m_max_z example_pmf) = false)
    by (vm_compute; reflexivity).
  split; [exact example_pmf_sized|]. split; [exact Ku|].
  pose proof (compute_counts_pairs example_pmf [origin] [q4_id] 1
                [make_float3 fzero (B32 (-1) 0) fzero] [q4_id] 1 [q4_id]) as K.
  cbv zeta in K. destruct (K example_pmf_sized) as (K1 & _). exact (K1 Ku).
Defined.

Lemma resetPCF_after_compute_witness :
  example_grid (B32 200 0) (B32 41 0) (B32 41 0) = Constructed example_pmf
  /\ PMFXYZ.m_nbins_x example_pmf * PMFXYZ.m_nbins_y example_pmf
     * PMFXYZ.m_nbins_z example_pmf < 2 ^ 32
  /\ exists g',
       PMFXYZ.resetPCF
         (PMFXYZ.compute example_pmf [origin] [q4_id] 1
            [make_float3 fzero (B32 (-1) 0) fzero] [q4_id] 1 [q4_id])
       = Some g'
       /\ PMFXYZ.m_pcf_array g' = PMFXYZ.m_pcf_array example_pmf.
Proof.
  assert (Kc : PMFXYZ.m_nbins_x example_pmf * PMFXYZ.m_nbins_y example_pmf
               * PMFXYZ.m_nbins_z example_pmf < 2 ^ 32)
    by (vm_compute; reflexivity).
  split; [exact example_pmf_constructed|]. split; [exact Kc|].
  pose proof (resetPCF_after_compute _ _ _ _ _ _ _ example_pmf
                [origin] [q4_id] 1 [make_float3 fzero (B32 (-1) 0) fzero]
                [q4_id] 1 [q4_id] example_pmf_constructed Kc) as K.
  destruct K as (g' & K1 & K2 & _). exists g'. split; [exact K1|exact K2].
Defined.

Lemma histogram_total_witness :
  let f := example_functor (B32 200 0) (B32 41 0) (B32 41 0) 2
             (make_float3 fzero (B32 (-1) 0) fzero) in
  grid_sized f
  /\ Forall (fun c => 0 <= c) (replicate 8 0)
  /\ total (replicate 8 0)
     + Z.of_nat (length (direct_pairs f (mk_range 0 1))) < 2 ^ 32
  /\ total (PMFXYZ.ComputePMFTWithoutCellList f (mk_range 0 1) (replicate 8 0))
     = total (replicate 8 0) + counted f (direct_pairs f (mk_range 0 1)).
Proof.
  cbv zeta.
  assert (Kp : Forall (fun c => 0 <= c) (replicate 8 0))
    by (repeat constructor; discriminate).
  assert (Ks : total (replicate 8 0)
               + Z.of_nat
                   (length
                      (direct_pairs
                         (example_functor (B32 200 0) (B32 41 0) (B32 41 0) 2
                            (make_float3 fzero (B32 (-1) 0) fzero))
                         (mk_range 0 1))) < 2 ^ 32)
    by (vm_compute; reflexivity).
  split; [exact (proj1 example_grids)|]. split; [exact Kp|].
  split; [exact Ks|].
  pose proof (histogram_total _ (mk_range 0 1) (replicate 8 0)
                (proj1 example_grids) eq_refl Kp Ks) as K.
  destruct K as (K & _). exact K.
Defined.

Lemma self_pair_skipped_witness :
  let f := example_functor (B32 200 0) (B32 41 0) (B32 41 0) 2 origin in
  wrap (PMFXYZ.f_box f) (make_float3 fzero fzero fzero)
  = make_float3 fzero fzero fzero
  /\ PMFXYZ.bin_pair f fone fone fone 0 0 (replicate 8 0) = replicate 8 0.
Proof.
  cbv zeta.
  assert (Kw : wrap (PMFXYZ.f_box
                       (example_functor (B32 200 0) (B32 41 0) (B32 41 0) 2
                          origin))
                 (make_float3 fzero fzero fzero)
               = make_float3 fzero fzero fzero)
    by (vm_compute; reflexivity).
  split; [exact Kw|].
  pose proof (self_pair_skipped
                (example_functor (B32 200 0) (B32 41 0) (B32 41 0) 2 origin)
                fone fone fone 0%nat 0%nat (replicate 8 0)
                eq_refl eq_refl eq_refl eq_refl Kw) as K.
  destruct K as (K & _). exact K.
Defined.

Lemma bin_index_floor_witness :
  valid_binary prec32 emax32
    (fmul (fadd (B32 15099494 (-24)) fone) (fdiv fone (B32 13421773 (-25))))
  = true
  /\ bin_index (B32 15099494 (-24)) fone (B32 13421773 (-25)) = 4.
Proof.
  assert (Kv : valid_binary prec32 emax32
                 (fmul (fadd (B32 15099494 (-24)) fone)
                    (fdiv fone (B32 13421773 (-25)))) = true)
    by (vm_compute; reflexivity).
  split; [exact Kv|].
  pose proof (bin_index_floor (B32 15099494 (-24)) fone (B32 13421773 (-25)))
    as K.
  cbv zeta in K. destruct (K Kv) as (K1 & _). rewrite K1.
  vm_compute. reflexivity.
Defined.

(** ** Rounding to binary32 never falls below a float under the exact value *)

Lemma le_val_base b mT eT m e :
  b <= eT -> b <= e ->
  le_val mT eT m e <-> mT * 2 ^ (eT - b) <= m * 2 ^ (e - b).
Proof.
  intros HbT Hbe. unfold le_val. set (c := Z.min eT e).
  assert (Hc : b <= c) by (unfold c; lia).
  assert (HcT : c <= eT) by (unfold c; lia).
  assert (Hce : c <= e) by (unfold c; lia).
  replace (eT - b) with ((eT - c) + (c - b)) by lia.
  replace (e - b) with ((e - c) + (c - b)) by lia.
  rewrite !Z.pow_add_r by lia.
  assert (Hp : 0 < 2 ^ (c - b)) by (apply Z.pow_pos_nonneg; lia).
  rewrite !Z.mul_assoc.
  exact (Z.mul_le_mono_pos_r (mT * 2 ^ (eT - c)) (m * 2 ^ (e - c))
           (2 ^ (c - b)) Hp).
Qed.

Lemma le_val_mono mT eT m m' e :
  m <= m' -> le_val mT eT m e -> le_val mT eT m' e.
Proof.
  unfold le_val. intros Hm K.
  assert (Hp : 0 < 2 ^ (e - Z.min eT e)) by (apply Z.pow_pos_nonneg; lia).
  nia.
Qed.

Lemma le_val_pos mT eT m e : 0 < mT -> le_val mT eT m e -> 0 < m.
Proof.
  unfold le_val. intros HT K.
  assert (Hp : 0 < 2 ^ (e - Z.min eT e)) by (apply Z.pow_pos_nonneg; lia).
  assert (Hq : 0 < 2 ^ (eT - Z.min eT e)) by (apply Z.pow_pos_nonneg; lia).
  nia.
Qed.

Lemma digits2_pos_ge m : 2 ^ (Zpos (digits2_pos m) - 1) <= Zpos m.
Proof.
  rewrite digits2_pos_log2.
  pose proof (Z.log2_spec (Zpos m) ltac:(lia)) as Hl.
  replace (Z.log2 (Z.pos m) + 1 - 1) with (Z.log2 (Z.pos m)) by lia.
  lia.
Qed.

Lemma shr_1_m mrs : 0 <= shr_m mrs -> shr_m (shr_1 mrs) = shr_m mrs / 2.
Proof.
  destruct mrs as [m r s]. cbn [shr_m]. intros Hm.
  destruct m as [|[p|p|]|p]; cbn [shr_1 shr_m]; try lia.
  - reflexivity.
  - change (Zpos p~1) with (2 * Zpos p + 1). apply Z.div_unique with 1; lia.
  - change (Zpos p~0) with (2 * Zpos p). apply Z.div_unique with 0; lia.
  - reflexivity.
Qed.

Lemma iter_shr_1_m p : forall mrs,
  0 <= shr_m mrs ->
  shr_m (SpecFloat.iter_pos shr_1 p mrs) = shr_m mrs / 2 ^ Zpos p.
Proof.
  induction p as [p IH|p IH|]; intros mrs Hm; cbn [SpecFloat.iter_pos].
  - assert (H1 : 0 <= shr_m (shr_1 mrs)).
    { rewrite shr_1_m by exact Hm. apply Z.div_pos; lia. }
    assert (Hp : 0 < 2 ^ Zpos p) by (apply Z.pow_pos_nonneg; lia).
    assert (H2 : 0 <= shr_m (SpecFloat.iter_pos shr_1 p (shr_1 mrs))).
    { rewrite IH by exact H1. apply Z.div_pos; lia. }
    rewrite IH by exact H2. rewrite IH by exact H1.
    rewrite shr_1_m by exact Hm.
    rewrite !Z.div_div by lia.
    f_equal. change (Zpos p~1) with (2 * Zpos p + 1).
    replace (2 * Zpos p + 1) with (1 + Zpos p + Zpos p) by lia.
    rewrite !Z.pow_add_r by lia. change (2 ^ 1) with 2. ring.
  - assert (Hp : 0 < 2 ^ Zpos p) by (apply Z.pow_pos_nonneg; lia).
    assert (H2 : 0 <= shr_m (SpecFloat.iter_pos shr_1 p mrs)).
    { rewrite IH by exact Hm. apply Z.div_pos; lia. }
    rewrite IH by exact H2. rewrite IH by exact Hm.
    rewrite !Z.div_div by lia.
    f_equal. change (Zpos p~0) with (2 * Zpos p).
    replace (2 * Zpos p) with (Zpos p + Zpos p) by lia.
    rewrite Z.pow_add_r by lia. reflexivity.
  - rewrite shr_1_m by exact Hm. reflexivity.
Qed.

Lemma shr_m_of_loc m l : shr_m (shr_record_of_loc m l) = m.
Proof. destruct l as [|[]]; reflexivity. Qed.

Lemma shr_fexp_stage m e l :
  0 <= m ->
  (shr_m (fst (shr_fexp prec32 emax32 m e l)),
   snd (shr_fexp prec32 emax32 m e l)) = stage m e.
Proof.
  intros Hm. unfold shr_fexp, stage, shr.
  set (e1 := fexp prec32 emax32 (Zdigits2 m + e)).
  destruct (Z.leb_spec e1 e) as [Hle|Hgt].
  - destruct (e1 - e) as [|p|p] eqn:E; [|lia|];
      cbn [fst snd]; rewrite shr_m_of_loc; reflexivity.
  - destruct (e1 - e) as [|p|p] eqn:E; [lia| |lia].
    cbn [fst snd]. rewrite iter_shr_1_m by (rewrite shr_m_of_loc; exact Hm).
    rewrite shr_m_of_loc. f_equal. lia.
Qed.

Lemma round_nearest_even_bounds m l :
  m <= round_nearest_even m l <= m + 1.
Proof.
  destruct l as [|[]]; cbn [round_nearest_even];
    try destruct (Z.even m); lia.
Qed.

Lemma stage_nonneg m e : 0 <= m -> 0 <= fst (stage m e).
Proof.
  intros Hm. unfold stage. cbv zeta.
  destruct (Z.leb_spec (fexp prec32 emax32 (Zdigits2 m + e)) e);
    cbn [fst]; [exact Hm|].
  apply Z.div_pos; [exact Hm|]. apply Z.pow_pos_nonneg; lia.
Qed.

Lemma stage_bounds p e :
  fst (stage (Zpos p) e) < 2 ^ 24 /\ -149 <= snd (stage (Zpos p) e).
Proof.
  unfold stage, fexp, emin, prec32, emax32. cbn [Zdigits2]. cbv zeta.
  pose proof (digits2_pos_lt p) as Hlt.
  set (d := Zpos (digits2_pos p)) in *.
  destruct (Z.leb_spec (Z.max (d + e - 24) (3 - 128 - 24)) e) as [Hle|Hgt];
    cbn [fst snd].
  - split; [|lia].
    assert (2 ^ d <= 2 ^ 24) by (apply Z.pow_le_mono_r; lia). lia.
  - split; [|lia].
    set (n := Z.max (d + e - 24) (3 - 128 - 24) - e).
    assert (Hn : 0 < n) by (unfold n; lia).
    assert (Hp : 0 < 2 ^ n) by (apply Z.pow_pos_nonneg; lia).
    apply Z.div_lt_upper_bound; [exact Hp|].
    assert (Hd : 2 ^ d <= 2 ^ (n + 24))
      by (apply Z.pow_le_mono_r; unfold n; lia).
    rewrite Z.pow_add_r in Hd by lia. lia.
Qed.

Lemma stage_keeps mT eT p e :
  0 <= mT <= 2 ^ 24 -> -149 <= eT ->
  le_val mT eT (Zpos p) e ->
  le_val mT eT (fst (stage (Zpos p) e)) (snd (stage (Zpos p) e)).
Proof.
  intros HT HeT K.
  unfold stage, fexp, emin, prec32, emax32. cbn [Zdigits2]. cbv zeta.
  pose proof (digits2_pos_ge p) as Hge.
  set (d := Zpos (digits2_pos p)) in *.
  set (e1 := Z.max (d + e - 24) (3 - 128 - 24)).
  destruct (Z.leb_spec e1 e) as [Hle|Hgt]; cbn [fst snd]; [exact K|].
  set (n := e1 - e).
  assert (Hn : 0 < n) by (unfold n; lia).
  assert (Hp : 0 < 2 ^ n) by (apply Z.pow_pos_nonneg; lia).
  destruct (Z.le_gt_cases e1 eT) as [Hc|Hc].
  - apply (le_val_base e mT eT (Zpos p) e) in K; [|lia|lia].
    apply (le_val_base e1 mT eT _ e1); [lia|lia|].
    rewrite Z.sub_diag in *. rewrite Z.pow_0_r, Z.mul_1_r in *.
    replace (eT - e) with ((eT - e1) + n) in K by (unfold n; lia).
    rewrite Z.pow_add_r in K by lia.
    apply Z.div_le_lower_bound; [exact Hp|]. lia.
  - assert (He1 : e1 = d + e - 24) by (unfold e1; lia).
    apply (le_val_base eT mT eT _ e1); [lia|lia|].
    rewrite Z.sub_diag, Z.pow_0_r, Z.mul_1_r.
    assert (Hm : 2 ^ 23 <= Zpos p / 2 ^ n).
    { apply Z.div_le_lower_bound; [exact Hp|].
      replace (d - 1) with (n + 23) in Hge by (unfold n; lia).
      rewrite Z.pow_add_r in Hge by lia. lia. }
    assert (H2 : 2 ^ 1 <= 2 ^ (e1 - eT)) by (apply Z.pow_le_mono_r; lia).
    change (2 ^ 1) with 2 in H2. change (2 ^ 23) with 8388608 in Hm.
    change (2 ^ 24) with 16777216 in HT. nia.
Qed.

Lemma binary_round_aux_stages s m e l :
  0 <= m ->
  exists m2,
    fst (stage m e) <= m2 <= fst (stage m e) + 1
    /\ binary_round_aux prec32 emax32 s m e l
       = finish s (stage m2 (snd (stage m e))).
Proof.
  intros Hm. unfold binary_round_aux.
  pose proof (shr_fexp_stage m e l Hm) as E1.
  destruct (shr_fexp prec32 emax32 m e l) as [mrs' e'].
  cbn [fst snd] in E1. rewrite <- E1. cbn [fst snd].
  set (m2 := round_nearest_even (shr_m mrs') (loc_of_shr_record mrs')).
  pose proof (round_nearest_even_bounds (shr_m mrs') (loc_of_shr_record mrs'))
    as Hb. fold m2 in Hb.
  exists m2. split; [exact Hb|].
  assert (H1 : 0 <= shr_m mrs').
  { replace (shr_m mrs') with (fst (stage m e)) by (rewrite <- E1; reflexivity).
    apply stage_nonneg. exact Hm. }
  pose proof (shr_fexp_stage m2 e' loc_Exact ltac:(lia)) as E2.
  destruct (shr_fexp prec32 emax32 m2 e' loc_Exact) as [mrs'' e''].
  cbn [fst snd] in E2. rewrite <- E2. unfold finish. cbn [fst snd].
  reflexivity.
Qed.

(** A rounded result is a binary32 number. *)
Lemma rounded_finite s m e l s' m' e' :
  0 <= m ->
  binary_round_aux prec32 emax32 s m e l = S754_finite s' m' e' ->
  Zpos m' < 2 ^ 24 /\ -149 <= e'.
Proof.
  intros Hm E.
  destruct (binary_round_aux_stages s m e l Hm) as (m2 & Hb & E').
  rewrite E' in E. clear E'.
  pose proof (stage_nonneg m e Hm) as H1.
  unfold finish in E.
  destruct m2 as [|p2|p2]; [| |lia].
  - unfold stage in E. cbv zeta in E.
    destruct (_ <=? _) in E; cbn [fst snd] in E; [discriminate|].
    rewrite Zdiv_0_l in E. discriminate.
  - pose proof (stage_bounds p2 (snd (stage m e))) as (Hlt & Hge).
    destruct (fst (stage (Zpos p2) (snd (stage m e)))) as [|q|q];
      [discriminate| |discriminate].
    destruct (_ <=? _) in E; [|discriminate].
    injection E as _ <- <-. split; assumption.
Qed.

(** Rounding to nearest never goes below a binary32 number that the
    exact value is not below. *)
Lemma round_above mT eT p e l :
  0 < mT <= 2 ^ 24 -> -149 <= eT ->
  le_val mT eT (Zpos p) e ->
  above mT eT (binary_round_aux prec32 emax32 false (Zpos p) e l).
Proof.
  intros HT HeT K.
  destruct (binary_round_aux_stages false (Zpos p) e l ltac:(lia))
    as (m2 & Hb & E).
  rewrite E. clear E.
  pose proof (stage_keeps mT eT p e ltac:(lia) HeT K) as K1.
  pose proof (stage_bounds p e) as (_ & He1).
  set (e1 := snd (stage (Zpos p) e)) in *.
  assert (K2 : le_val mT eT m2 e1) by (apply (le_val_mono _ _ _ _ _ (proj1 Hb) K1)).
  pose proof (le_val_pos _ _ _ _ (proj1 HT) K2) as Hm2.
  destruct m2 as [|p2|p2]; [lia| |lia].
  pose proof (stage_keeps mT eT p2 e1 ltac:(lia) HeT K2) as K3.
  pose proof (stage_bounds p2 e1) as (_ & He3).
  pose proof (le_val_pos _ _ _ _ (proj1 HT) K3) as Hm3.
  unfold finish.
  destruct (fst (stage (Zpos p2) e1)) as [|q|q]; [lia| |lia].
  destruct (_ <=? _); cbn [above]; [|exact I].
  split; assumption.
Qed.

Lemma iter_xO m d : Zpos (Pos.iter xO m d) = Zpos m * 2 ^ Zpos d.
Proof.
  induction d as [|d IH] using Pos.peano_ind.
  - cbn [Pos.iter]. rewrite Pos2Z.inj_xO. change (2 ^ 1) with 2. lia.
  - rewrite Pos.iter_succ, Pos2Z.inj_xO, IH, Pos2Z.inj_succ.
    rewrite Z.pow_succ_r by lia. lia.
Qed.

Lemma shl_align_value m e e' :
  snd (shl_align m e e') = Z.min e e'
  /\ Zpos (fst (shl_align m e e')) = Zpos m * 2 ^ (e - Z.min e e').
Proof.
  unfold shl_align.
  destruct (e' - e) as [|d|d] eqn:E; cbn [fst snd].
  - replace (Z.min e e') with e by lia. rewrite Z.sub_diag. split; lia.
  - replace (Z.min e e') with e by lia. rewrite Z.sub_diag. split; lia.
  - replace (Z.min e e') with e' by lia. split; [reflexivity|].
    rewrite iter_xO. f_equal. f_equal. lia.
Qed.

(** The quotient of two floats, where finite and not zero, is a binary32
    number. *)
Lemma fdiv_finite a b s m e :
  fdiv a b = S754_finite s m e -> Zpos m < 2 ^ 24 /\ -149 <= e.
Proof.
  unfold fdiv, SFdiv.
  destruct a as [sa|sa| |sa ma ea], b as [sb|sb| |sb mb eb];
    try discriminate.
  destruct (SFdiv_core_binary prec32 emax32 (Zpos ma) ea (Zpos mb) eb)
    as [[mz ez] lz] eqn:E.
  intros K. apply (rounded_finite _ mz ez lz _ _ _) in K; [exact K|].
  unfold SFdiv_core_binary in E. cbv zeta in E.
  match type of E with
  | (let '(q, r) := Z.div_eucl ?a ?b in _) = _ =>
      assert (Hq : 0 <= fst (Z.div_eucl a b));
      [change (0 <= a / b)|destruct (Z.div_eucl a b) as [q r]]
  end.
  - apply Z.div_pos; [|lia].
    destruct (_ - _ - _) as [|k|k]; [lia| |lia].
    apply Z.shiftl_nonneg. lia.
  - injection E as <- _ _. exact Hq.
Qed.

Lemma fmul_finite a b s m e :
  fmul a b = S754_finite s m e -> Zpos m < 2 ^ 24 /\ -149 <= e.
Proof.
  unfold fmul, SFmul.
  destruct a as [sa|sa| |sa ma ea], b as [sb|sb| |sb mb eb];
    try discriminate.
  intros K. apply (rounded_finite _ _ _ _ _ _ _) in K; [exact K|lia].
Qed.

Lemma scaled_threshold x0 :
  threshold x0 = true ->
  exists mT eT,
    x0 = S754_finite false mT eT /\ Zpos mT <= 2 ^ 24 /\ -149 <= eT
    /\ scaled x0 = Zpos mT * 2 ^ (eT + 149).
Proof.
  destruct x0 as [s|s| |[|] mT eT]; try discriminate.
  cbn [threshold]. intros K. apply andb_true_iff in K. destruct K as (K1 & K2).
  apply Z.leb_le in K1, K2. exists mT, eT. repeat split; assumption.
Qed.

Lemma scaled_finite s m e :
  scaled (S754_finite s m e) = cond_Zopp s (Zpos m) * 2 ^ (e + 149).
Proof. reflexivity. Qed.

Lemma above_scaled mT eT a :
  -149 <= eT -> above mT eT a ->
  a = S754_infinity false
  \/ exists m e, a = S754_finite false m e /\ -149 <= e
       /\ mT * 2 ^ (eT + 149) <= scaled a.
Proof.
  intros HeT. destruct a as [s|[|]| |[|] m e]; cbn [above]; try tauto.
  intros (K & He). right. exists m, e. split; [reflexivity|]. split; [exact He|].
  apply (le_val_base (-149)) in K; [|lia|lia].
  rewrite scaled_finite. cbn [cond_Zopp].
  replace (eT + 149) with (eT - -149) by lia.
  replace (e + 149) with (e - -149) by lia. exact K.
Qed.

(** The float sum is not below a binary32 number that the exact sum is
    not below. *)
Lemma fadd_above x0 mT eT v max :
  x0 = S754_finite false mT eT -> Zpos mT <= 2 ^ 24 -> -149 <= eT ->
  ranged v = true -> ranged max = true ->
  scaled x0 <= scaled v + scaled max ->
  above (Zpos mT) eT (fadd v max).
Proof.
  intros -> HmT HeT Hv Hm Hs. rewrite scaled_finite in Hs. cbn [cond_Zopp] in Hs.
  assert (HpT : 0 < Zpos mT * 2 ^ (eT + 149)).
  { assert (0 < 2 ^ (eT + 149)) by (apply Z.pow_pos_nonneg; lia). nia. }
  assert (Hpass : forall s m e,
             -149 <= e ->
             Zpos mT * 2 ^ (eT + 149) <= scaled (S754_finite s m e) ->
             above (Zpos mT) eT (S754_finite s m e)).
  { intros s m e He K. rewrite scaled_finite in K.
    assert (Hp : 0 < 2 ^ (e + 149)) by (apply Z.pow_pos_nonneg; lia).
    destruct s; cbn [cond_Zopp] in K; [nia|].
    cbn [above]. split; [|exact He].
    apply (le_val_base (-149)); [lia|lia|].
    replace (eT - -149) with (eT + 149) by lia.
    replace (e - -149) with (e + 149) by lia. exact K. }
  destruct v as [sv|sv| |sv mv ev], max as [sm|sm| |sm mm em];
    try discriminate; cbn [ranged] in Hv, Hm.
  - cbn [scaled] in Hs. lia.
  - apply Z.leb_le in Hm. unfold fadd, SFadd.
    apply Hpass; [exact Hm|]. cbn [scaled] in Hs |- *. lia.
  - apply Z.leb_le in Hv. unfold fadd, SFadd.
    apply Hpass; [exact Hv|]. cbn [scaled] in Hs |- *. lia.
  - apply Z.leb_le in Hv, Hm. unfold fadd, SFadd. cbv zeta.
    set (ez := Z.min ev em).
    destruct (shl_align_value mv ev ez) as (_ & Ev).
    destruct (shl_align_value mm em ez) as (_ & Em).
    replace (Z.min ev ez) with ez in Ev by (unfold ez; lia).
    replace (Z.min em ez) with ez in Em by (unfold ez; lia).
    rewrite Ev, Em.
    set (S := cond_Zopp sv (Zpos mv * 2 ^ (ev - ez))
              + cond_Zopp sm (Zpos mm * 2 ^ (em - ez))).
    assert (HS : scaled (S754_finite sv mv ev) + scaled (S754_finite sm mm em)
                 = S * 2 ^ (ez + 149)).
    { rewrite !scaled_finite. unfold S.
      replace (ev + 149) with ((ev - ez) + (ez + 149)) by lia.
      replace (em + 149) with ((em - ez) + (ez + 149)) by lia.
      rewrite (Z.pow_add_r 2 (ev - ez) (ez + 149)) by (unfold ez; lia).
      rewrite (Z.pow_add_r 2 (em - ez) (ez + 149)) by (unfold ez; lia).
      destruct sv, sm; cbn [cond_Zopp]; ring. }
    rewrite HS in Hs.
    assert (Hpz : 0 < 2 ^ (ez + 149))
      by (apply Z.pow_pos_nonneg; unfold ez; lia).
    assert (HSp : 0 < S) by nia.
    destruct S as [|p|p] eqn:ES; [lia| |lia].
    unfold binary_normalize, binary_round.
    set (e' := fexp prec32 emax32 (Zpos (digits2_pos p) + ez)).
    destruct (shl_align_value p ez e') as (E2 & E1).
    destruct (shl_align p ez e') as [mz ez'].
    cbn [fst snd] in E1, E2.
    assert (He' : -149 <= e') by (unfold e', fexp, emin, prec32, emax32; lia).
    apply round_above; [lia|exact HeT|].
    apply (le_val_base (-149)); [lia|unfold ez in *; lia|].
    rewrite E1, E2.
    replace (eT - -149) with (eT + 149) by lia.
    replace (Z.min ez e' - -149) with (Z.min ez e' + 149) by lia.
    rewrite <- Z.mul_assoc, <- Z.pow_add_r by (unfold ez; lia).
    replace (ez - Z.min ez e' + (Z.min ez e' + 149)) with (ez + 149) by lia.
    exact Hs.
Qed.

(** The bin of a coordinate past the end is not one of the grid. *)
Lemma bin_index_past_end x0 v max d :
  past_end x0 v max d = true ->
  (0 <=? bin_index v max d) && (bin_index v max d <? PMFXYZ.nbins max d)
  = false
  /\ (u32 (bin_index v max d) <? PMFXYZ.nbins max d) = false.
Proof.
  unfold past_end. intros K.
  repeat (apply andb_true_iff in K; let K' := fresh "K" in destruct K as (K & K')).
  rename K into Hv, K4 into Hm, K3 into Hx0, K2 into HN, K1 into Hprod,
    K0 into Hsum.
  apply Z.leb_le in HN, Hprod, Hsum.
  set (N := PMFXYZ.nbins max d) in *.
  assert (HN0 : 0 <= N).
  { unfold N, PMFXYZ.nbins, u32. apply Z.mod_pos_bound. lia. }
  pose proof (cvtt_ss2si_range
                (floorf (fmul (fadd v max) (fdiv fone d)))) as Hr.
  fold (bin_index v max d) in Hr.
  assert (Hout : N = 0 \/ N <= bin_index v max d
                 \/ bin_index v max d = INT_MIN).
  2:{ rewrite (unsigned_bound_check _ N Hr ltac:(lia)).
      assert (E : (0 <=? bin_index v max d) && (bin_index v max d <? N) = false).
      { unfold INT_MIN in Hout.
        destruct (Z.leb_spec 0 (bin_index v max d)); cbn [andb]; [|reflexivity].
        apply Z.ltb_ge. lia. }
      split; exact E. }
  destruct (Z.eq_dec N 0) as [HN1|HN1]; [left; exact HN1|right].
  destruct (scaled_threshold x0 Hx0) as (mT & eT & Ex0 & HmT & HeT & Esc).
  pose proof (fadd_above x0 mT eT v max Ex0 HmT HeT Hv Hm Hsum) as Hab.
  apply above_scaled in Hab; [|exact HeT].
  rewrite <- Esc in Hab.
  assert (Hx0p : 0 < scaled x0).
  { rewrite Esc. assert (0 < 2 ^ (eT + 149)) by (apply Z.pow_pos_nonneg; lia).
    nia. }
  assert (Hdp : 0 < scaled (fdiv fone d)) by nia.
  destruct (fdiv fone d) as [si|si| |si mi ei] eqn:Ed;
    try (cbn [scaled] in Hdp; lia).
  pose proof (fdiv_finite _ _ _ _ _ Ed) as (_ & Hei).
  rewrite scaled_finite in Hdp, Hprod.
  assert (Hpi : 0 < 2 ^ (ei + 149)) by (apply Z.pow_pos_nonneg; lia).
  destruct si; cbn [cond_Zopp] in Hdp, Hprod; [nia|].
  unfold bin_index. rewrite Ed.
  destruct Hab as [-> | (mx & ex & -> & Hex & Hx)].
  { right. reflexivity. }
  rewrite scaled_finite in Hx. cbn [cond_Zopp] in Hx.
  assert (Hpx : 0 < 2 ^ (ex + 149)) by (apply Z.pow_pos_nonneg; lia).
  assert (Hab : above N 0 (fmul (S754_finite false mx ex)
                             (S754_finite false mi ei))).
  { unfold fmul, SFmul. cbn [xorb]. apply round_above; [lia|lia|].
    apply (le_val_base (-298)); [lia|lia|].
    replace (0 - -298) with 298 by lia.
    replace (ex + ei - -298) with ((ex + 149) + (ei + 149)) by lia.
    rewrite Z.pow_add_r by lia. rewrite Pos2Z.inj_mul.
    nia. }
  destruct (fmul (S754_finite false mx ex) (S754_finite false mi ei))
    as [sp|[|]| |[|] mp ep] eqn:Ep; cbn [above] in Hab;
    try (exfalso; exact Hab).
  { right. reflexivity. }
  destruct Hab as (Hle & Hep).
  pose proof (fmul_finite _ _ _ _ _ Ep) as (Hmp & _).
  unfold floorf.
  destruct (Z.leb_spec 0 ep) as [Hge|Hlt].
  - apply (le_val_base 0) in Hle; [|lia|lia].
    rewrite !Z.sub_0_r in Hle. rewrite Z.pow_0_r, Z.mul_1_r in Hle.
    unfold cvtt_ss2si. rewrite (proj2 (Z.leb_le 0 ep) Hge). cbv zeta.
    cbn [cond_Zopp]. rewrite Z.shiftl_mul_pow2 by exact Hge.
    destruct (_ && _); [left; exact Hle|right; reflexivity].
  - apply (le_val_base ep) in Hle; [|lia|lia].
    rewrite Z.sub_diag, Z.pow_0_r, Z.mul_1_r, Z.sub_0_l in Hle.
    cbn [cond_Zopp]. rewrite Z.shiftr_div_pow2 by lia.
    assert (Hp : 0 < 2 ^ (- ep)) by (apply Z.pow_pos_nonneg; lia).
    set (n := Zpos mp / 2 ^ (- ep)).
    assert (Hn1 : N <= n)
      by (apply Z.div_le_lower_bound; [exact Hp|lia]).
    assert (Hn2 : n <= Zpos mp)
      by (apply Z.div_le_upper_bound; [exact Hp|nia]).
    rewrite cvtt_of_small_int by lia. left. exact Hn1.
Qed.

(** ** The end of the range a grid covers *)

Section RangeClaim.

Context `{VectorMath} `{LinkCellOps}.

Import PMFXYZ.

(** C10, as the code has it: on a grid built by the constructor, axis
    [a] has [nbins_a = int(2 * floorf(max_a / d_a))] bins, and a pair is
    left out of the histogram, without notice, as soon as on one axis
    its body-frame coordinate [v.a] is past the end of the bins: in
    exact arithmetic [v.a + max_a >= x0] for a binary32 number [x0]
    with [x0 * r >= nbins_a], where [r] is the float [1.0f / d_a] the
    kernel multiplies by.  So every coordinate from [x0 - max_a]
    upwards is dropped, up to [max_a] and beyond, on an axis of at most
    2^24 bins. *)
Theorem beyond_covered_range_dropped box max_x max_y max_z dx dy dz g
  rp ro Nref p os Np eo i j pcf x0 :
  PMFXYZ box max_x max_y max_z dx dy dz = Constructed g ->
  let f := functor_of g rp ro Nref p os Np eo in
  let v := body_frame f i (displacement f i j) in
  past_end x0 (vx v) max_x dx = true
  \/ past_end x0 (vy v) max_y dy = true
  \/ past_end x0 (vz v) max_z dz = true ->
  m_nbins_x g = nbins max_x dx /\ m_nbins_y g = nbins max_y dy
  /\ m_nbins_z g = nbins max_z dz
  /\ pair_cell f i j = None
  /\ bin_pair f (fdiv fone dx) (fdiv fone dy) (fdiv fone dz) i j pcf = pcf.
Proof.
  intros Hc f v Hpast.
  destruct (PMFXYZ_constructed _ _ _ _ _ _ _ _ Hc)
    as (_ & Mx & My & Mz & Dx & Dy & Dz & Nx & Ny & Nz & _).
  split; [exact Nx|]. split; [exact Ny|]. split; [exact Nz|].
  assert (Hand : forall a b c : bool,
             a = false \/ b = false \/ c = false -> a && b && c = false).
  { intros [|] [|] [|]; cbn; intuition congruence. }
  assert (Hx : past_end x0 (vx v) max_x dx = true ->
               (0 <=? bin_index (vx v) (f_max_x f) (f_dx f))
               && (bin_index (vx v) (f_max_x f) (f_dx f) <? f_nbins_x f)
               = false
               /\ (u32 (bin_index (vx v) (f_max_x f) (f_dx f)) <? f_nbins_x f)
                  = false).
  { intros K. apply bin_index_past_end in K. unfold f. cbn [functor_of
      f_max_x f_dx f_nbins_x]. rewrite Mx, Dx, Nx. exact K. }
  assert (Hy : past_end x0 (vy v) max_y dy = true ->
               (0 <=? bin_index (vy v) (f_max_y f) (f_dy f))
               && (bin_index (vy v) (f_max_y f) (f_dy f) <? f_nbins_y f)
               = false
               /\ (u32 (bin_index (vy v) (f_max_y f) (f_dy f)) <? f_nbins_y f)
                  = false).
  { intros K. apply bin_index_past_end in K. unfold f. cbn [functor_of
      f_max_y f_dy f_nbins_y]. rewrite My, Dy, Ny. exact K. }
  assert (Hz : past_end x0 (vz v) max_z dz = true ->
               (0 <=? bin_index (vz v) (f_max_z f) (f_dz f))
               && (bin_index (vz v) (f_max_z f) (f_dz f) <? f_nbins_z f)
               = false
               /\ (u32 (bin_index (vz v) (f_max_z f) (f_dz f)) <? f_nbins_z f)
                  = false).
  { intros K. apply bin_index_past_end in K. unfold f. cbn [functor_of
      f_max_z f_dz f_nbins_z]. rewrite Mz, Dz, Nz. exact K. }
  split.
  - unfold pair_cell. cbv zeta. fold v.
    destruct (coincident _); [reflexivity|].
    rewrite Hand; [reflexivity|].
    destruct Hpast as [K|[K|K]];
      [left; apply (Hx K)|right; left; apply (Hy K)|right; right; apply (Hz K)].
  - replace dx with (f_dx f) by exact Dx.
    replace dy with (f_dy f) by exact Dy.
    replace dz with (f_dz f) by exact Dz.
    unfold bin_pair. cbv zeta.
    destruct (_ && _ && _); [reflexivity|].
    match goal with
    | |- (if ?a && ?b && ?c then _ else _) = _ =>
        assert (E : a && b && c = false); [|rewrite E; reflexivity]
    end.
    apply Hand.
    destruct Hpast as [K|[K|K]];
      [left; exact (proj2 (Hx K))|right; left; exact (proj2 (Hy K))
      |right; right; exact (proj2 (Hz K))].
Qed.

End RangeClaim.

Lemma example_fine_pmf_constructed :
  example_grid (B32 10 0) fone (B32 13421773 (-25))
  = Constructed example_fine_pmf.
Proof. exact eq_refl. Qed.

(** C10 on the example: with steps of 0.4 on [-1, 1] an axis has 4 bins,
    which end at 0.6; the coordinate 0.6 (the float nearest, which is
    [4 * 0.4f - 1]), inside the half-extent 1, is past the end with
    [x0 = 1.6f], since [1.6f * 2.5 >= 4] and [0.6f + 1 = 1.6f]; the
    pair is left out. *)
Lemma beyond_covered_range_dropped_witness :
  let point := make_float3 (B32 (-10066330) (-24)) fzero fzero in
  let f := functor_of example_fine_pmf [origin] [q4_id] 1 [point] [q4_id] 1
             [q4_id] in
  let v := body_frame f 0 (displacement f 0 0) in
  example_grid (B32 10 0) fone (B32 13421773 (-25))
  = Constructed example_fine_pmf
  /\ vx v = B32 10066330 (-24)
  /\ fsub (fmul (of_int 4) (B32 13421773 (-25))) fone = vx v
  /\ fle (vx v) fone = true
  /\ past_end (B32 13421773 (-23)) (vx v) fone (B32 13421773 (-25)) = true
  /\ PMFXYZ.m_nbins_x example_fine_pmf = PMFXYZ.nbins fone (B32 13421773 (-25))
  /\ pair_cell f 0 0 = None
  /\ PMFXYZ.bin_pair f (fdiv fone (B32 13421773 (-25)))
       (fdiv fone (B32 13421773 (-25))) (fdiv fone (B32 13421773 (-25)))
       0 0 (replicate 64 0)
     = replicate 64 0.
Proof.
  cbv zeta.
  set (f := functor_of example_fine_pmf [origin] [q4_id] 1
              [make_float3 (B32 (-10066330) (-24)) fzero fzero] [q4_id] 1
              [q4_id]).
  assert (Hp : past_end (B32 13421773 (-23))
                 (vx (body_frame f 0 (displacement f 0 0))) fone
                 (B32 13421773 (-25)) = true)
    by (vm_compute; reflexivity).
  split; [exact example_fine_pmf_constructed|].
  split; [vm_compute; reflexivity|].
  split; [vm_compute; reflexivity|].
  split; [vm_compute; reflexivity|].
  split; [exact Hp|].
  pose proof (beyond_covered_range_dropped _ _ _ _ _ _ _ example_fine_pmf
                [origin] [q4_id] 1
                [make_float3 (B32 (-10066330) (-24)) fzero fzero] [q4_id] 1
                [q4_id] 0%nat 0%nat (replicate 64 0) (B32 13421773 (-23))
                example_fine_pmf_constructed (or_introl Hp)) as K.
  destruct K as (K1 & _ & _ & K2 & K3).
  split; [exact K1|]. split; [exact K2|exact K3].
Defined.
